(** * lua-dlopen: a shallow embedding of [src/dlopen.c]

    The module binds [dlopen]/[dlsym]/[dlclose] and libffi to Lua.  A library
    handle is a userdata ([dso_t]) whose [__index] metamethod ([index_lua])
    dispatches the two methods [dlsym] and [dlclose] and otherwise looks a
    name up in the list of declared symbols ([syminfo_t]); a declared symbol
    is invoked through [symcall_lua].

    Conventions of the embedding:
    - Lua strings and C strings are [string]s of bytes; a C string is read up
      to its first NUL, and every buffer is followed by a terminator;
    - C integers are [Z] with the wrap-around of each cast written out;
    - [lua_Number] is IEEE binary64 and C [float] is binary32, both as
      [spec_float] with the rounding functions of the standard library;
    - calls that leave the module ([dlopen], [dlsym], [dlclose],
      [ffi_prep_cif], [ffi_call], allocation) are answered by an [env] and
      recorded in a trace of [event]s;
    - the Lua auxiliary library is modelled after the reference manual
      (Lua 5.3 and later: 64-bit [lua_Integer]). *)

From Stdlib Require Import ZArith List String Ascii Bool Lia.
From Stdlib Require Import Floats.SpecFloat.
From stdpp Require Import base gmap strings list.

Local Open Scope string_scope.
Local Open Scope Z_scope.

(** ** C strings *)

Definition NUL : ascii := Ascii.zero.

(** [(unsigned char)c] *)
Definition uchar (c : ascii) : Z := Z.of_N (N_of_ascii c).

(** [*s]: the byte under the pointer; the terminator once the buffer is
    exhausted. *)
Definition char_at (s : string) : ascii :=
  match s with
  | EmptyString => NUL
  | String c _ => c
  end.

(** [s + 1] *)
Definition advance (s : string) : string :=
  match s with
  | EmptyString => EmptyString
  | String _ r => r
  end.

(** [strncmp(s1, s2, n)]: compares at most [n] bytes and stops after a NUL. *)
Fixpoint strncmp (s1 s2 : string) (n : nat) : Z :=
  match n with
  | O => 0
  | S n' =>
      let c1 := uchar (char_at s1) in
      let c2 := uchar (char_at s2) in
      if negb (c1 =? c2) then c1 - c2
      else if c1 =? 0 then 0
      else strncmp (advance s1) (advance s2) n'
  end.

(** [strcmp(s1, s2)]: the terminator of [s1] is met within
    [length s1 + 1] bytes. *)
Definition strcmp (s1 s2 : string) : Z :=
  strncmp s1 s2 (S (String.length s1)).

(** The C string held in a buffer: the bytes before the first NUL.  This is
    what [strdup] copies and what [lua_pushstring] reads. *)
Fixpoint c_str (s : string) : string :=
  match s with
  | EmptyString => EmptyString
  | String c r => if (uchar c =? 0) then EmptyString else String c (c_str r)
  end.

(** A string without an embedded NUL. *)
Fixpoint nul_free (s : string) : bool :=
  match s with
  | EmptyString => true
  | String c r => negb (uchar c =? 0) && nul_free r
  end.

(** ** C integer types *)

Record ctype := { bits : Z; is_signed : bool }.

(** [(T)z]: conversion of an integer to the type [T], modulo [2^bits]. *)
Definition cast (T : ctype) (z : Z) : Z :=
  let u := z mod 2 ^ bits T in
  if is_signed T && (2 ^ (bits T - 1) <=? u) then u - 2 ^ bits T else u.

Definition in_range (T : ctype) (z : Z) : Prop :=
  if is_signed T then - 2 ^ (bits T - 1) <= z < 2 ^ (bits T - 1)
  else 0 <= z < 2 ^ bits T.

Inductive wordsize := W32 | W64.

Definition wbits (w : wordsize) : Z :=
  match w with W32 => 32 | W64 => 64 end.

(** What the C source leaves to the platform. *)
Record abi := {
  long_size : wordsize;     (* [long], [unsigned long] *)
  size_t_size : wordsize;   (* [size_t], [ssize_t], pointers: [SIZE_MAX] *)
  char_signed : bool        (* plain [char] *)
}.

Definition c_int : ctype := {| bits := 32; is_signed := true |}.
Definition c_size_t (a : abi) : ctype :=
  {| bits := wbits (size_t_size a); is_signed := false |}.

(** [lua_Integer] *)
Definition lua_Integer : ctype := {| bits := 64; is_signed := true |}.

(** ** Floating point: binary64 [lua_Number], binary32 [float] *)

Definition lua_Number := spec_float.

(** [(float)d] *)
Definition double_to_float (d : spec_float) : spec_float :=
  match d with
  | S754_finite s m e => binary_round 24 128 s m e
  | _ => d
  end.

(** [(double)f] *)
Definition float_to_double (f : spec_float) : spec_float :=
  match f with
  | S754_finite s m e => binary_round 53 1024 s m e
  | _ => f
  end.

(** [(lua_Number)n] for an integer [n] *)
Definition integer_to_double (n : Z) : spec_float :=
  binary_normalize 53 1024 n 0 false.

(** [lua_numbertointeger]: a float converts to an integer only when it has an
    exact integer value within the range of [lua_Integer]. *)
Definition double_to_integer (d : spec_float) : option Z :=
  match d with
  | S754_zero _ => Some 0
  | S754_finite s m e =>
      let a :=
        if 0 <=? e then Some (Zpos m * 2 ^ e)
        else if (Zpos m mod 2 ^ (- e) =? 0) then Some (Zpos m / 2 ^ (- e))
        else None in
      match a with
      | Some a =>
          let z := if s then - a else a in
          if (- 2 ^ 63 <=? z) && (z <? 2 ^ 63) then Some z else None
      | None => None
      end
  | _ => None
  end.

(** ** The type tags of the source *)

Definition FFI_MAX_ARGS : Z := 32.

Inductive datatype_t :=
| T_VOID | T_VOID_PTR | T_CHAR_PTR | T_CHAR | T_SCHAR | T_UCHAR
| T_SHORT | T_USHORT | T_INT8 | T_UINT8 | T_INT16 | T_UINT16
| T_INT | T_UINT | T_INT32 | T_UINT32 | T_INT64 | T_UINT64
| T_LONG | T_ULONG | T_LONG_LONG | T_ULONG_LONG | T_FLOAT | T_DOUBLE
| T_SIZE_T | T_SSIZE_T.

(** The enumerators in declaration order; the position is the value the C
    compiler gives the enumerator. *)
Definition datatypes : list datatype_t :=
  [T_VOID; T_VOID_PTR; T_CHAR_PTR; T_CHAR; T_SCHAR; T_UCHAR;
   T_SHORT; T_USHORT; T_INT8; T_UINT8; T_INT16; T_UINT16;
   T_INT; T_UINT; T_INT32; T_UINT32; T_INT64; T_UINT64;
   T_LONG; T_ULONG; T_LONG_LONG; T_ULONG_LONG; T_FLOAT; T_DOUBLE;
   T_SIZE_T; T_SSIZE_T].

(** The sentinel: one past the last enumerator. *)
Definition T_LAST : Z := 26.

Definition enum_value (t : datatype_t) : Z :=
  match t with
  | T_VOID => 0 | T_VOID_PTR => 1 | T_CHAR_PTR => 2 | T_CHAR => 3
  | T_SCHAR => 4 | T_UCHAR => 5 | T_SHORT => 6 | T_USHORT => 7
  | T_INT8 => 8 | T_UINT8 => 9 | T_INT16 => 10 | T_UINT16 => 11
  | T_INT => 12 | T_UINT => 13 | T_INT32 => 14 | T_UINT32 => 15
  | T_INT64 => 16 | T_UINT64 => 17 | T_LONG => 18 | T_ULONG => 19
  | T_LONG_LONG => 20 | T_ULONG_LONG => 21 | T_FLOAT => 22 | T_DOUBLE => 23
  | T_SIZE_T => 24 | T_SSIZE_T => 25
  end.

(** A [datatype_t] object in memory is an integer; it names an enumerator
    when it lies in [0, T_LAST). *)
Definition datatype_of_enum (z : Z) : option datatype_t :=
  if 0 <=? z then nth_error datatypes (Z.to_nat z) else None.

(** [type_names] of [check_ffitype], indexed by enumerator. *)
Definition type_names : list string :=
  ["void"; "void*"; "char*"; "char"; "signed char"; "unsigned char";
   "short"; "unsigned short"; "int8"; "uint8"; "int16"; "uint16";
   "int"; "unsigned int"; "int32"; "uint32"; "int64"; "uint64";
   "long"; "unsigned long"; "long long"; "unsigned long long"; "float";
   "double"; "size_t"; "ssize_t"].

(** ** libffi *)

Inductive ffi_type :=
| ffi_type_void | ffi_type_pointer
| ffi_type_schar | ffi_type_uchar | ffi_type_sshort | ffi_type_ushort
| ffi_type_sint | ffi_type_uint | ffi_type_slong | ffi_type_ulong
| ffi_type_sint8 | ffi_type_uint8 | ffi_type_sint16 | ffi_type_uint16
| ffi_type_sint32 | ffi_type_uint32 | ffi_type_sint64 | ffi_type_uint64
| ffi_type_float | ffi_type_double.

Inductive ffi_status :=
| FFI_OK | FFI_BAD_TYPEDEF | FFI_BAD_ABI | FFI_BAD_ARGTYPE
| FFI_OTHER (code : Z).

Definition ffi_status_message (st : ffi_status) : string :=
  match st with
  | FFI_OK => "FFI_OK"
  | FFI_BAD_TYPEDEF => "FFI_BAD_TYPEDEF (invalid ffi_type definition)"
  | FFI_BAD_ABI => "FFI_BAD_ABI (unsupported ABI)"
  | FFI_BAD_ARGTYPE => "FFI_BAD_ARGTYPE (invalid argument type)"
  | FFI_OTHER _ => "FFI_UNKNOWN_STATUS"
  end.

(** [FFI_TYPE_SIZE_T], [FFI_TYPE_SSIZE_T]: chosen from [SIZE_MAX]. *)
Definition FFI_TYPE_SIZE_T (a : abi) : ffi_type :=
  match size_t_size a with W32 => ffi_type_uint32 | W64 => ffi_type_uint64 end.
Definition FFI_TYPE_SSIZE_T (a : abi) : ffi_type :=
  match size_t_size a with W32 => ffi_type_sint32 | W64 => ffi_type_sint64 end.

(** The call interface that [ffi_prep_cif] fills in. *)
Record ffi_cif := {
  cif_nargs : Z;
  cif_rtype : ffi_type;
  cif_arg_types : list ffi_type
}.

(** ** The structures of the source *)

(** [syminfo_t].  The [next] member is the tail of the list that holds the
    entry; [name] is [None] once the duplicated string has been freed. *)
Record syminfo_t := {
  ref : Z;
  addr : Z;
  len : Z;
  name : option string;
  ret_type : Z;
  ret_ffi_type : ffi_type;
  nargs : Z;
  arg_types : list Z;             (* the slots written so far, of 32 *)
  arg_ffi_types : list ffi_type;
  cif : ffi_cif
}.

(** [dso_t].  [symbols] is the chain that starts at [symbols_head] and
    follows [next]; [symbols_tail] is its last entry.  A null pointer is 0. *)
Record dso_t := {
  handle : Z;
  path : option string;
  symbols : list syminfo_t
}.

(** [callval_u]: the integer and pointer members share one image of bits;
    the images of the floating-point members are kept apart. *)
Inductive callval_u :=
| CV_bits (image : Z)
| CV_float (f : spec_float)
| CV_double (d : spec_float).

(** [= {0}] *)
Definition callval_zero : callval_u := CV_bits 0.

(** Writing and reading an integer member of type [T]. *)
Definition store_member (T : ctype) (v : Z) : callval_u :=
  CV_bits (v mod 2 ^ bits T).

Definition load_member (T : ctype) (u : callval_u) : Z :=
  match u with
  | CV_bits image => cast T image
  | _ => 0
  end.

Definition load_float (u : callval_u) : spec_float :=
  match u with CV_float f => f | _ => S754_zero false end.

Definition load_double (u : callval_u) : spec_float :=
  match u with CV_double d => d | _ => S754_zero false end.

(** The members of [callval_u]. *)
Inductive member :=
| m_p | m_i8 | m_u8 | m_i16 | m_u16 | m_i32 | m_u32 | m_i64 | m_u64
| m_c | m_sc | m_uc | m_s | m_us | m_i | m_ui | m_l | m_ul | m_ll | m_ull
| m_f | m_d | m_sz | m_ssz.

(** The C type of an integer or pointer member. *)
Definition member_type (a : abi) (m : member) : ctype :=
  match m with
  | m_p => {| bits := wbits (size_t_size a); is_signed := false |}
  | m_i8 => {| bits := 8; is_signed := true |}
  | m_u8 => {| bits := 8; is_signed := false |}
  | m_i16 => {| bits := 16; is_signed := true |}
  | m_u16 => {| bits := 16; is_signed := false |}
  | m_i32 => {| bits := 32; is_signed := true |}
  | m_u32 => {| bits := 32; is_signed := false |}
  | m_i64 => {| bits := 64; is_signed := true |}
  | m_u64 => {| bits := 64; is_signed := false |}
  | m_c => {| bits := 8; is_signed := char_signed a |}
  | m_sc => {| bits := 8; is_signed := true |}
  | m_uc => {| bits := 8; is_signed := false |}
  | m_s => {| bits := 16; is_signed := true |}
  | m_us => {| bits := 16; is_signed := false |}
  | m_i => {| bits := 32; is_signed := true |}
  | m_ui => {| bits := 32; is_signed := false |}
  | m_l => {| bits := wbits (long_size a); is_signed := true |}
  | m_ul => {| bits := wbits (long_size a); is_signed := false |}
  | m_ll => {| bits := 64; is_signed := true |}
  | m_ull => {| bits := 64; is_signed := false |}
  | m_sz => {| bits := wbits (size_t_size a); is_signed := false |}
  | m_ssz => {| bits := wbits (size_t_size a); is_signed := true |}
  | m_f | m_d => {| bits := 0; is_signed := false |}
  end.

(** ** Lua values *)

(** The functions the module hands to Lua.  The upvalue of [symcall_lua] is
    the entry the registry held under [sym->ref] when the closure was made
    ([None] stands for [nil], which [lua_touserdata] turns into a null
    pointer); it is kept by value, so a closure reflects the entry as it was
    when the handle was indexed. *)
Inductive lua_function :=
| CF_dlsym                       (* [dlsym_lua] *)
| CF_dlclose                     (* [dlclose_lua] *)
| CF_symcall (upvalue : option syminfo_t)   (* [symcall_lua] and its upvalue *)
| F_other (id : Z).

Inductive lua_value :=
| LNil
| LBoolean (b : bool)
| LLightUserdata (p : Z)
| LInteger (n : Z)
| LNumber (d : lua_Number)
| LString (s : string)
| LTable (id : Z)
| LFunction (f : lua_function)
| LUserdata (p : Z)
| LThread (id : Z).

Inductive lua_type_t :=
| LUA_TNONE | LUA_TNIL | LUA_TBOOLEAN | LUA_TLIGHTUSERDATA | LUA_TNUMBER
| LUA_TSTRING | LUA_TTABLE | LUA_TFUNCTION | LUA_TUSERDATA | LUA_TTHREAD.

Definition lua_typename (t : lua_type_t) : string :=
  match t with
  | LUA_TNONE => "no value"
  | LUA_TNIL => "nil"
  | LUA_TBOOLEAN => "boolean"
  | LUA_TLIGHTUSERDATA => "userdata"
  | LUA_TNUMBER => "number"
  | LUA_TSTRING => "string"
  | LUA_TTABLE => "table"
  | LUA_TFUNCTION => "function"
  | LUA_TUSERDATA => "userdata"
  | LUA_TTHREAD => "thread"
  end.

Definition type_of_value (v : lua_value) : lua_type_t :=
  match v with
  | LNil => LUA_TNIL
  | LBoolean _ => LUA_TBOOLEAN
  | LLightUserdata _ => LUA_TLIGHTUSERDATA
  | LInteger _ | LNumber _ => LUA_TNUMBER
  | LString _ => LUA_TSTRING
  | LTable _ => LUA_TTABLE
  | LFunction _ => LUA_TFUNCTION
  | LUserdata _ => LUA_TUSERDATA
  | LThread _ => LUA_TTHREAD
  end.

(** The arguments of a C function: stack index 1 is the head of the list. *)
Definition stack := list lua_value.

Definition lua_gettop (st : stack) : Z := Z.of_nat (length st).

Definition value_at (st : stack) (idx : Z) : option lua_value :=
  if 1 <=? idx then nth_error st (Z.to_nat (idx - 1)) else None.

Definition lua_type (st : stack) (idx : Z) : lua_type_t :=
  match value_at st idx with
  | Some v => type_of_value v
  | None => LUA_TNONE
  end.

(** ** Errors *)

(** The [extramsg] of [luaL_argerror]. *)
Inductive argmsg :=
| TypeExpected (t : lua_type_t)   (* "%s expected, got %s" *)
| UdataExpected (tname : string)  (* the same, for a named metatable *)
| NoIntegerRepresentation         (* "number has no integer representation" *)
| InvalidOption (opt : string).   (* "invalid option '%s'" *)

(** What [luaL_error] raises, one constructor per format string. *)
Inductive lua_error :=
| Err_bad_argument (arg : Z) (msg : argmsg)
    (* "bad argument #%d to '%s' (%s)" *)
| Err_bad_self (msg : argmsg)
    (* "calling '%s' on bad self (%s)" *)
| Err_missing_case
    (* "missing case for datatype" *)
| Err_invalid_nargs (sym_name : string) (expected got : Z)
    (* "invalid number of arguments for symbol '%s': expected %d but got %d" *)
| Err_unsupported_return (sym_name : string)
    (* "unsupported return type for symbol '%s'" *)
| Err_unsupported_argument (sym_name : string)
    (* "unsupported argument type for symbol '%s'" *)
| Err_void_argument (pos : Z)
    (* "argument %d: void cannot be used as argument" *)
| Err_void_ptr_argument (pos : Z) (got : string)
    (* "argument %d: void* requires nil, lightuserdata or userdata, got %s" *)
| Err_char_ptr_argument (pos : Z) (got : string)
    (* "argument %d: char* requires nil or string, got %s" *)
| Err_module_closed
    (* "module is closed" *)
| Err_unknown_field (key : string)
    (* "attempt to index invalid unknown field '%s'" *)
| Err_not_callable (v : lua_value).
    (* raised by Lua itself: "attempt to call a %s value" *)

(** Behaviour that C leaves undefined. *)
Inductive fault :=
| Out_of_bounds          (* an index past the end of a fixed-size array *)
| Uninitialized_read     (* a slot of [arg_types] that was never written *)
| Use_after_free         (* a freed name, or an entry released by [dso_close] *)
| Null_dereference.

Inductive result (A : Type) :=
| Ok (a : A)
| Raise (e : lua_error)
| Crash (f : fault).

Arguments Ok {A} a.
Arguments Raise {A} e.
Arguments Crash {A} f.

Definition bind {A B} (r : result A) (k : A -> result B) : result B :=
  match r with
  | Ok a => k a
  | Raise e => Raise e
  | Crash f => Crash f
  end.

Notation "x <- c ;; k" := (bind c (fun x => k))
  (at level 100, c at next level, right associativity).

(** [luaL_error] with a format that prints [sym->name]: the string is read,
    which is undefined once it has been freed. *)
Definition error_with_name {A} (nm : option string)
    (e : string -> lua_error) : result A :=
  match nm with
  | Some s => Raise (e s)
  | None => Crash Use_after_free
  end.

(** ** The world outside the module *)

(** Calls that leave the module, in the order they are made. *)
Inductive event :=
| Ev_dlopen (file : string)
| Ev_dlsym (h : Z) (symbol : string)
| Ev_ffi_prep_cif (c : ffi_cif)
| Ev_ffi_call (c : ffi_cif) (fn : Z) (avalue : list callval_u)
| Ev_dlclose (h : Z).

(** The answers of the platform, of the dynamic loader, of libffi and of the
    parts of Lua that the embedding leaves open. *)
Record env := {
  platform : abi;
  (* Lua: string to number and number to string conversions *)
  lua_str2number : string -> option (Z + lua_Number);
  lua_number2str : Z + lua_Number -> string;
  (* Lua: address of the internal copy of a string *)
  lua_string_ptr : string -> Z;
  (* memory: the bytes found from an address on *)
  c_string_at : Z -> string;
  (* libc *)
  strdup_ok : string -> bool;
  sys_dlopen : string -> Z;
  sys_dlsym : Z -> string -> Z;
  sys_dlclose : Z -> Z;
  sys_dlerror : string;
  (* libffi *)
  sys_ffi_prep_cif : Z -> ffi_type -> list ffi_type -> ffi_status;
  sys_ffi_call : ffi_cif -> Z -> list callval_u -> callval_u
}.

(** [ar.namewhat] of the running C function: whether it was called with
    the method syntax [obj:name(...)]. *)
Inductive namewhat := NW_method | NW_other.

(** The part of [lua_State] the module works on: the userdata that carry the
    metatable [MODULE_MT], the next free registry reference and the trace.
    The call information of the running function is passed next to it. *)
Record lua_State := {
  udata : gmap Z dso_t;
  next_ref : positive;
  trace : list event
}.

Definition MODULE_MT : string := "dlopen".
Definition LUA_NOREF : Z := -2.

Definition set_udata (L : lua_State) (p : Z) (d : dso_t) : lua_State :=
  {| udata := <[p := d]> (udata L); next_ref := next_ref L;
     trace := trace L |}.

Definition emit (L : lua_State) (ev : event) : lua_State :=
  {| udata := udata L; next_ref := next_ref L;
     trace := trace L ++ [ev] |}.

(** [luaL_ref]: a fresh positive reference. *)
Definition luaL_ref (L : lua_State) : Z * lua_State :=
  (Zpos (next_ref L),
   {| udata := udata L; next_ref := Pos.succ (next_ref L);
      trace := trace L |}).

(** ** The Lua C API used by the module *)

Section LuaAPI.
Variable E : env.

Definition lua_tointegerx (v : lua_value) : option Z :=
  match v with
  | LInteger n => Some n
  | LNumber d => double_to_integer d
  | LString s =>
      match lua_str2number E s with
      | Some (inl n) => Some n
      | Some (inr d) => double_to_integer d
      | None => None
      end
  | _ => None
  end.

Definition lua_tonumberx (v : lua_value) : option lua_Number :=
  match v with
  | LInteger n => Some (integer_to_double n)
  | LNumber d => Some d
  | LString s =>
      match lua_str2number E s with
      | Some (inl n) => Some (integer_to_double n)
      | Some (inr d) => Some d
      | None => None
      end
  | _ => None
  end.

Definition lua_tolstring (v : lua_value) : option string :=
  match v with
  | LString s => Some s
  | LInteger n => Some (lua_number2str E (inl n))
  | LNumber d => Some (lua_number2str E (inr d))
  | _ => None
  end.

(** [lua_topointer] on the two kinds of userdata. *)
Definition lua_topointer (v : lua_value) : Z :=
  match v with
  | LLightUserdata p | LUserdata p => p
  | _ => 0
  end.

(** [luaL_argerror]: a method call does not count [self]. *)
Definition luaL_argerror (ci : namewhat) (arg : Z) (msg : argmsg) : lua_error :=
  match ci with
  | NW_method =>
      if arg - 1 =? 0 then Err_bad_self msg else Err_bad_argument (arg - 1) msg
  | NW_other => Err_bad_argument arg msg
  end.

Definition luaL_checkinteger (ci : namewhat) (st : stack) (arg : Z) : result Z :=
  match value_at st arg with
  | Some v =>
      match lua_tointegerx v with
      | Some n => Ok n
      | None =>
          match lua_tonumberx v with
          | Some _ => Raise (luaL_argerror ci arg NoIntegerRepresentation)
          | None => Raise (luaL_argerror ci arg (TypeExpected LUA_TNUMBER))
          end
      end
  | None => Raise (luaL_argerror ci arg (TypeExpected LUA_TNUMBER))
  end.

Definition luaL_checknumber (ci : namewhat) (st : stack) (arg : Z)
  : result lua_Number :=
  match value_at st arg with
  | Some v =>
      match lua_tonumberx v with
      | Some d => Ok d
      | None => Raise (luaL_argerror ci arg (TypeExpected LUA_TNUMBER))
      end
  | None => Raise (luaL_argerror ci arg (TypeExpected LUA_TNUMBER))
  end.

(** [luaL_checklstring]: the string and, through [String.length], its
    length. *)
Definition luaL_checklstring (ci : namewhat) (st : stack) (arg : Z)
  : result string :=
  match value_at st arg with
  | Some v =>
      match lua_tolstring v with
      | Some s => Ok s
      | None => Raise (luaL_argerror ci arg (TypeExpected LUA_TSTRING))
      end
  | None => Raise (luaL_argerror ci arg (TypeExpected LUA_TSTRING))
  end.

(** [luaL_checkudata(L, arg, MODULE_MT)]: the address of the block and the
    [dso_t] it holds. *)
Definition luaL_checkudata (ci : namewhat) (L : lua_State) (st : stack)
    (arg : Z)
  : result (Z * dso_t) :=
  match value_at st arg with
  | Some (LUserdata p) =>
      match udata L !! p with
      | Some d => Ok (p, d)
      | None => Raise (luaL_argerror ci arg (UdataExpected MODULE_MT))
      end
  | _ => Raise (luaL_argerror ci arg (UdataExpected MODULE_MT))
  end.

(** The first index [i] with [strcmp(lst[i], name) == 0]. *)
Fixpoint find_option (lst : list string) (opt : string) (i : Z) : option Z :=
  match lst with
  | [] => None
  | s :: rest =>
      if strcmp s opt =? 0 then Some i else find_option rest opt (i + 1)
  end.

(** [luaL_checkoption(L, arg, NULL, lst)] *)
Definition luaL_checkoption (ci : namewhat) (st : stack) (arg : Z)
    (lst : list string) : result Z :=
  opt <- luaL_checklstring ci st arg ;;
  match find_option lst opt 0 with
  | Some i => Ok i
  | None => Raise (luaL_argerror ci arg (InvalidOption (c_str opt)))
  end.

End LuaAPI.

(** ** The module *)

Section Dlopen.
Variable E : env.

(** The [FFI_TYPE_CASE] rows of [check_ffitype]. *)
Definition ffi_type_of (t : datatype_t) : ffi_type :=
  match t with
  | T_VOID => ffi_type_void
  | T_VOID_PTR => ffi_type_pointer
  | T_CHAR_PTR => ffi_type_pointer
  | T_CHAR => ffi_type_schar
  | T_SCHAR => ffi_type_schar
  | T_UCHAR => ffi_type_uchar
  | T_SHORT => ffi_type_sshort
  | T_USHORT => ffi_type_ushort
  | T_INT8 => ffi_type_sint8
  | T_UINT8 => ffi_type_uint8
  | T_INT16 => ffi_type_sint16
  | T_UINT16 => ffi_type_uint16
  | T_INT => ffi_type_sint
  | T_UINT => ffi_type_uint
  | T_INT32 => ffi_type_sint32
  | T_UINT32 => ffi_type_uint32
  | T_INT64 => ffi_type_sint64
  | T_UINT64 => ffi_type_uint64
  | T_LONG => ffi_type_slong
  | T_ULONG => ffi_type_ulong
  | T_LONG_LONG => ffi_type_sint64
  | T_ULONG_LONG => ffi_type_uint64
  | T_FLOAT => ffi_type_float
  | T_DOUBLE => ffi_type_double
  | T_SIZE_T => FFI_TYPE_SIZE_T (platform E)
  | T_SSIZE_T => FFI_TYPE_SSIZE_T (platform E)
  end.

(** [check_ffitype(L, idx, &ffi_type_out)] (dlopen.c:122-194): the
    enumerator named by the option at [idx] and its libffi descriptor. *)
Definition check_ffitype (ci : namewhat) (st : stack) (idx : Z)
  : result (datatype_t * ffi_type) :=
  i <- luaL_checkoption E ci st idx type_names ;;
  match datatype_of_enum i with
  | None => Raise Err_missing_case
  | Some t => Ok (t, ffi_type_of t)
  end.

(** The table [RETVAL] of [symcall_lua]: the member of [retval] that
    receives the result; [None] is the null pointer of [T_VOID]. *)
Definition RETVAL (t : datatype_t) : option member :=
  match t with
  | T_VOID => None
  | T_VOID_PTR => Some m_p
  | T_CHAR_PTR => Some m_p
  | T_CHAR => Some m_c
  | T_SCHAR => Some m_sc
  | T_UCHAR => Some m_uc
  | T_SHORT => Some m_s
  | T_USHORT => Some m_us
  | T_INT8 => Some m_i8
  | T_UINT8 => Some m_u8
  | T_INT16 => Some m_i16
  | T_UINT16 => Some m_u16
  | T_INT => Some m_i
  | T_UINT => Some m_ui
  | T_INT32 => Some m_i32
  | T_UINT32 => Some m_u32
  | T_INT64 => Some m_i64
  | T_UINT64 => Some m_u64
  | T_LONG => Some m_l
  | T_ULONG => Some m_ul
  | T_LONG_LONG => Some m_ll
  | T_ULONG_LONG => Some m_ull
  | T_FLOAT => Some m_f
  | T_DOUBLE => Some m_d
  | T_SIZE_T => Some m_sz
  | T_SSIZE_T => Some m_ssz
  end.

(** [CHECK_CASE(_, FIELD, luaL_checkinteger)]:
    [args[i].FIELD = (typeof(args[i].FIELD))luaL_checkinteger(L, index)]. *)
Definition CHECK_CASE_integer (ci : namewhat) (st : stack) (index : Z)
    (FIELD : member) : result callval_u :=
  n <- luaL_checkinteger E ci st index ;;
  let T := member_type (platform E) FIELD in
  Ok (store_member T (cast T n)).

(** [CHECK_CASE(T_FLOAT, f, luaL_checknumber)] *)
Definition CHECK_CASE_float (ci : namewhat) (st : stack) (index : Z)
  : result callval_u :=
  d <- luaL_checknumber E ci st index ;;
  Ok (CV_float (double_to_float d)).

(** [CHECK_CASE(T_DOUBLE, d, luaL_checknumber)] *)
Definition CHECK_CASE_double (ci : namewhat) (st : stack) (index : Z)
  : result callval_u :=
  d <- luaL_checknumber E ci st index ;;
  Ok (CV_double d).

(** The pointer member: [args[i].p = (void * )x]. *)
Definition store_pointer (x : Z) : callval_u :=
  let T := member_type (platform E) m_p in store_member T (cast T x).

(** The body of the argument switch for a known enumerator; [i] is the
    0-based position, [index = 2 + i] its stack index. *)
Definition check_argument_case (ci : namewhat) (st : stack) (i : Z)
    (t : datatype_t) : result callval_u :=
  let index := 2 + i in
  match t with
  | T_VOID => Raise (Err_void_argument (i + 1))
  | T_VOID_PTR =>
      match lua_type st index with
      | LUA_TNIL | LUA_TNONE => Ok (CV_bits 0)
      | LUA_TLIGHTUSERDATA | LUA_TUSERDATA =>
          match value_at st index with
          | Some v => Ok (store_pointer (lua_topointer v))
          | None => Ok (store_pointer 0)
          end
      | ty => Raise (Err_void_ptr_argument (i + 1) (lua_typename ty))
      end
  | T_CHAR_PTR =>
      match lua_type st index with
      | LUA_TNIL | LUA_TNONE => Ok (CV_bits 0)
      | LUA_TSTRING =>
          match value_at st index with
          | Some (LString s) => Ok (store_pointer (lua_string_ptr E s))
          | _ => Ok (store_pointer 0)
          end
      | ty => Raise (Err_char_ptr_argument (i + 1) (lua_typename ty))
      end
  | T_CHAR => CHECK_CASE_integer ci st index m_c
  | T_SCHAR => CHECK_CASE_integer ci st index m_sc
  | T_UCHAR => CHECK_CASE_integer ci st index m_uc
  | T_SHORT => CHECK_CASE_integer ci st index m_s
  | T_USHORT => CHECK_CASE_integer ci st index m_us
  | T_INT8 => CHECK_CASE_integer ci st index m_i8
  | T_UINT8 => CHECK_CASE_integer ci st index m_u8
  | T_INT16 => CHECK_CASE_integer ci st index m_i16
  | T_UINT16 => CHECK_CASE_integer ci st index m_u16
  | T_INT => CHECK_CASE_integer ci st index m_i
  | T_UINT => CHECK_CASE_integer ci st index m_ui
  | T_INT32 => CHECK_CASE_integer ci st index m_i32
  | T_UINT32 => CHECK_CASE_integer ci st index m_u32
  | T_INT64 => CHECK_CASE_integer ci st index m_i64
  | T_UINT64 => CHECK_CASE_integer ci st index m_u64
  | T_LONG => CHECK_CASE_integer ci st index m_l
  | T_ULONG => CHECK_CASE_integer ci st index m_ul
  | T_LONG_LONG => CHECK_CASE_integer ci st index m_ll
  | T_ULONG_LONG => CHECK_CASE_integer ci st index m_ull
  | T_FLOAT => CHECK_CASE_float ci st index
  | T_DOUBLE => CHECK_CASE_double ci st index
  | T_SIZE_T => CHECK_CASE_integer ci st index m_sz
  | T_SSIZE_T => CHECK_CASE_integer ci st index m_ssz
  end.

(** Reading [a[i]] from an array of [FFI_MAX_ARGS] slots of which the
    slots of [written] hold a value. *)
Definition array_read {A} (written : list A) (i : Z) : result A :=
  if (i <? 0) || (FFI_MAX_ARGS <=? i) then Crash Out_of_bounds
  else match nth_error written (Z.to_nat i) with
       | Some x => Ok x
       | None => Crash Uninitialized_read
       end.

(** One turn of the argument loop of [symcall_lua]:
    [switch (sym->arg_types[i])], which fills [args[i]]. *)
Definition check_argument (ci : namewhat) (sym : syminfo_t) (st : stack)
    (i : Z) : result callval_u :=
  raw <- array_read (arg_types sym) i ;;
  match datatype_of_enum raw with
  | None => error_with_name (name sym) Err_unsupported_argument
  | Some t => check_argument_case ci st i t
  end.

(** [for (int i = 0; i < nargs; i++)], with [todo] turns left; the slots
    of [args] filled so far are carried along. *)
Fixpoint check_arguments (ci : namewhat) (sym : syminfo_t) (st : stack)
    (i : Z) (todo : nat) (args : list callval_u) : result (list callval_u) :=
  match todo with
  | O => Ok args
  | S todo' =>
      a <- check_argument ci sym st i ;;
      check_arguments ci sym st (i + 1) todo' (args ++ [a])
  end.

(** [PUSH_CASE(_, lua_pushinteger, FIELD)]: the member converts to
    [lua_Integer]. *)
Definition PUSH_CASE_integer (retval : callval_u) (FIELD : member) : stack :=
  [LInteger (cast lua_Integer (load_member (member_type (platform E) FIELD) retval))].

(** The switch that pushes the return value; [None] is the [default]
    label. *)
Definition push_retval (rt : option datatype_t) (retval : callval_u)
  : option stack :=
  match rt with
  | None => None
  | Some T_VOID => Some []
  | Some T_VOID_PTR =>
      let p := load_member (member_type (platform E) m_p) retval in
      Some [if p =? 0 then LNil else LLightUserdata p]
  | Some T_CHAR_PTR =>
      let p := load_member (member_type (platform E) m_p) retval in
      Some [if p =? 0 then LNil else LString (c_str (c_string_at E p))]
  | Some T_CHAR => Some (PUSH_CASE_integer retval m_c)
  | Some T_SCHAR => Some (PUSH_CASE_integer retval m_sc)
  | Some T_UCHAR => Some (PUSH_CASE_integer retval m_uc)
  | Some T_SHORT => Some (PUSH_CASE_integer retval m_s)
  | Some T_USHORT => Some (PUSH_CASE_integer retval m_us)
  | Some T_INT8 => Some (PUSH_CASE_integer retval m_i8)
  | Some T_UINT8 => Some (PUSH_CASE_integer retval m_u8)
  | Some T_INT16 => Some (PUSH_CASE_integer retval m_i16)
  | Some T_UINT16 => Some (PUSH_CASE_integer retval m_u16)
  | Some T_INT => Some (PUSH_CASE_integer retval m_i)
  | Some T_UINT => Some (PUSH_CASE_integer retval m_ui)
  | Some T_INT32 => Some (PUSH_CASE_integer retval m_i32)
  | Some T_UINT32 => Some (PUSH_CASE_integer retval m_u32)
  | Some T_INT64 => Some (PUSH_CASE_integer retval m_i64)
  | Some T_UINT64 => Some (PUSH_CASE_integer retval m_u64)
  | Some T_LONG => Some (PUSH_CASE_integer retval m_l)
  | Some T_ULONG => Some (PUSH_CASE_integer retval m_ul)
  | Some T_LONG_LONG => Some (PUSH_CASE_integer retval m_ll)
  | Some T_ULONG_LONG => Some (PUSH_CASE_integer retval m_ull)
  | Some T_FLOAT => Some [LNumber (float_to_double (load_float retval))]
  | Some T_DOUBLE => Some [LNumber (load_double retval)]
  | Some T_SIZE_T => Some (PUSH_CASE_integer retval m_sz)
  | Some T_SSIZE_T => Some (PUSH_CASE_integer retval m_ssz)
  end.

(** What precedes [ffi_call] in [symcall_lua]: the count check, the
    return-type check and the argument loop.  Yields [arg_values]. *)
Definition symcall_check (ci : namewhat) (sym : syminfo_t) (st : stack)
  : result (list callval_u) :=
  let nargs_ := lua_gettop st - 1 in
  ret_value <-
    (if (ret_type sym <? 0) || (T_LAST <=? ret_type sym)
     then Crash Out_of_bounds
     else Ok (match datatype_of_enum (ret_type sym) with
              | Some t => RETVAL t
              | None => None
              end)) ;;
  if negb (nargs sym =? cast (c_size_t (platform E)) nargs_) then
    error_with_name (name sym)
      (fun nm => Err_invalid_nargs nm (cast c_int (nargs sym)) nargs_)
  else if match ret_value with None => true | Some _ => false end
          && negb (ret_type sym =? enum_value T_VOID) then
    error_with_name (name sym) Err_unsupported_return
  else check_arguments ci sym st 0 (Z.to_nat nargs_) [].

(** [symcall_lua] (dlopen.c:223-418); [upvalue] is what
    [lua_touserdata(L, lua_upvalueindex(1))] points to. *)
Definition symcall_lua (ci : namewhat) (L : lua_State)
    (upvalue : option syminfo_t) (st : stack) : result stack * lua_State :=
  match upvalue with
  | None => (Crash Null_dereference, L)
  | Some sym =>
      match symcall_check ci sym st with
      | Raise e => (Raise e, L)
      | Crash f => (Crash f, L)
      | Ok arg_values =>
          let L1 := emit L (Ev_ffi_call (cif sym) (addr sym) arg_values) in
          let retval := sys_ffi_call E (cif sym) (addr sym) arg_values in
          match push_retval (datatype_of_enum (ret_type sym)) retval with
          | Some results => (Ok results, L1)
          | None => (error_with_name (name sym) Err_unsupported_return, L1)
          end
      end
  end.

(** The result of the declaration loop of [dlsym_lua]. *)
Inductive declared_args :=
| Args_ok (types : list Z) (ffi_types : list ffi_type)
| Args_void.     (* the early [return 2] on [T_VOID] *)

(** [for (size_t i = 0; i < sym->nargs; i++)] of [dlsym_lua]. *)
Fixpoint declare_arguments (ci : namewhat) (st : stack) (i : Z) (todo : nat)
    (types : list Z) (ffi_types : list ffi_type) : result declared_args :=
  match todo with
  | O => Ok (Args_ok types ffi_types)
  | S todo' =>
      tf <- check_ffitype ci st (4 + i) ;;
      if (i <? 0) || (FFI_MAX_ARGS <=? i) then Crash Out_of_bounds
      else if enum_value (fst tf) =? enum_value T_VOID then Ok Args_void
      else declare_arguments ci st (i + 1) todo'
             (types ++ [enum_value (fst tf)]) (ffi_types ++ [snd tf])
  end.

Definition fail_with (b : lua_value) (msg : string) : stack :=
  [b; LString msg].

(** [dlsym_lua] (dlopen.c:420-494).  The function does not look at
    [dso->handle] before it calls [dlsym]: reached through a function value
    that was fetched before the library was closed, it resolves the name
    against the null handle.  [symbols_tail] is the last entry of [symbols]
    as long as [dso_close] has not cut a chain of two or more entries; from
    then on the chain that starts at [symbols_head] does not reach what is
    linked behind [symbols_tail], and no function follows it, the handle
    being null. *)
Definition dlsym_lua (ci : namewhat) (L : lua_State) (st : stack)
  : result stack * lua_State :=
  let nargs_ := lua_gettop st - 1 in
  match luaL_checkudata ci L st 1 with
  | Raise e => (Raise e, L)
  | Crash f => (Crash f, L)
  | Ok (p, dso) =>
    if (nargs_ <? 2) || (nargs_ >? FFI_MAX_ARGS + 2) then
      (Ok (fail_with (LBoolean false)
             "number of arguments at least 2 and at most 34"), L)
    else
      match (rt <- check_ffitype ci st 2 ;;
             nm <- luaL_checklstring E ci st 3 ;;
             da <- declare_arguments ci st 0 (Z.to_nat (nargs_ - 2)) [] [] ;;
             Ok (rt, nm, da)) with
      | Raise e => (Raise e, L)
      | Crash f => (Crash f, L)
      | Ok (_, _, Args_void) =>
          (Ok (fail_with (LBoolean false)
                 "void cannot be used as argument type"), L)
      | Ok (rt, nm, Args_ok types ffi_types) =>
        if negb (strdup_ok E (c_str nm)) then
          (Ok (fail_with (LBoolean false)
                 "failed to allocate memory for symbol name"), L)
        else
          let L1 := emit L (Ev_dlsym (handle dso) (c_str nm)) in
          let a := sys_dlsym E (handle dso) (c_str nm) in
          if a =? 0 then
            (Ok (fail_with (LBoolean false)
                   ("failed to find symbol '" ++ c_str nm ++ "': "
                    ++ sys_dlerror E)), L1)
          else
            let c := {| cif_nargs := nargs_ - 2; cif_rtype := snd rt;
                        cif_arg_types := ffi_types |} in
            let L2 := emit L1 (Ev_ffi_prep_cif c) in
            let status := sys_ffi_prep_cif E (nargs_ - 2) (snd rt) ffi_types in
            match status with
            | FFI_OK =>
                let '(r, L3) := luaL_ref L2 in
                let sym := {| ref := r; addr := a;
                              len := Z.of_nat (String.length nm);
                              name := Some (c_str nm);
                              ret_type := enum_value (fst rt);
                              ret_ffi_type := snd rt;
                              nargs := nargs_ - 2;
                              arg_types := types;
                              arg_ffi_types := ffi_types;
                              cif := c |} in
                (* [sym->next = NULL]; the entry becomes [symbols_head]
                   when there is none and is linked behind [symbols_tail]
                   otherwise.  No test of [dso->handle] precedes this. *)
                (Ok [LBoolean true],
                 set_udata L3 p
                   {| handle := handle dso; path := path dso;
                      symbols := symbols dso ++ [sym] |})
            | _ =>
                (Ok (fail_with (LBoolean false)
                       ("failed to prepare FFI call interface for symbol '"
                        ++ c_str nm ++ "' (" ++ ffi_status_message status
                        ++ ")")), L2)
            end
      end
  end.

(** The body of the release loop of [dso_close] for one entry:
    [free(sym->name)], [luaL_unref], [sym->ref = LUA_NOREF],
    [sym->next = NULL]. *)
Definition release (s : syminfo_t) : syminfo_t :=
  {| ref := LUA_NOREF; addr := addr s; len := len s; name := None;
     ret_type := ret_type s; ret_ffi_type := ret_ffi_type s;
     nargs := nargs s; arg_types := arg_types s;
     arg_ffi_types := arg_ffi_types s; cif := cif s |}.

(** The chain left at [symbols_head] once every [next] is null. *)
Definition release_chain (l : list syminfo_t) : list syminfo_t :=
  match l with
  | [] => []
  | s :: _ => [release s]
  end.

(** [dso_close(L, dso)] (dlopen.c:496-521) for the [dso_t] at address [p]:
    the value that [dlclose] returned, or 0 when the library was closed
    already. *)
Definition dso_close (L : lua_State) (p : Z) (dso : dso_t) : Z * lua_State :=
  if negb (handle dso =? 0) then
    let dso' := {| handle := 0; path := None;
                   symbols := release_chain (symbols dso) |} in
    (sys_dlclose E (handle dso),
     emit (set_udata L p dso') (Ev_dlclose (handle dso)))
  else (0, L).

(** [dlclose_lua] (dlopen.c:523-535) *)
Definition dlclose_lua (ci : namewhat) (L : lua_State) (st : stack)
  : result stack * lua_State :=
  match luaL_checkudata ci L st 1 with
  | Raise e => (Raise e, L)
  | Crash f => (Crash f, L)
  | Ok (p, dso) =>
      let '(rc, L1) := dso_close L p dso in
      if rc =? 0 then (Ok [LBoolean true], L1)
      else (Ok (fail_with (LBoolean false)
                  ("failed to close module: " ++ sys_dlerror E)), L1)
  end.

(** [gc_lua] (dlopen.c:572-577) *)
Definition gc_lua (ci : namewhat) (L : lua_State) (st : stack)
  : result stack * lua_State :=
  match luaL_checkudata ci L st 1 with
  | Raise e => (Raise e, L)
  | Crash f => (Crash f, L)
  | Ok (p, dso) => let '(_, L1) := dso_close L p dso in (Ok [], L1)
  end.

(** The traversal of [index_lua]:
    [for (sym = dso->symbols_head; sym; sym = sym->next)] with the test
    [len == sym->len && strncmp(method, sym->name, len) == 0]. *)
Fixpoint traverse_symbols (method : string) (syms : list syminfo_t)
  : result (option syminfo_t) :=
  match syms with
  | [] => Ok None
  | sym :: next =>
      if Z.of_nat (String.length method) =? len sym then
        match name sym with
        | None => Crash Use_after_free
        | Some nm =>
            if strncmp method nm (String.length method) =? 0
            then Ok (Some sym)
            else traverse_symbols method next
        end
      else traverse_symbols method next
  end.

(** [lua_rawgeti(L, LUA_REGISTRYINDEX, sym->ref)] followed by
    [lua_pushcclosure(L, symcall_lua, 1)]: the registry holds the entry
    under the reference [luaL_ref] gave, and nothing under [LUA_NOREF]. *)
Definition symcall_closure (sym : syminfo_t) : lua_value :=
  LFunction (CF_symcall (if ref sym =? LUA_NOREF then None else Some sym)).

(** [index_lua] (dlopen.c:537-570) *)
Definition index_lua (ci : namewhat) (L : lua_State) (st : stack)
  : result stack * lua_State :=
  match (ud <- luaL_checkudata ci L st 1 ;;
         method <- luaL_checklstring E ci st 2 ;;
         Ok (ud, method)) with
  | Raise e => (Raise e, L)
  | Crash f => (Crash f, L)
  | Ok ((p, dso), method) =>
      if handle dso =? 0 then (Raise Err_module_closed, L)
      else if strncmp method "dlsym" (String.length method) =? 0 then
        (Ok [LFunction CF_dlsym], L)
      else if strncmp method "dlclose" (String.length method) =? 0 then
        (Ok [LFunction CF_dlclose], L)
      else
        match traverse_symbols method (symbols dso) with
        | Crash f => (Crash f, L)
        | Raise e => (Raise e, L)
        | Ok (Some sym) => (Ok [symcall_closure sym], L)
        | Ok None =>
            (Raise (Err_unknown_field (c_str method)), L)
        end
  end.

(** [new_lua] (dlopen.c:586-619); the userdata joins [udata] when it
    receives the metatable. *)
Definition new_lua (ci : namewhat) (L : lua_State) (st : stack)
  : result stack * lua_State :=
  match luaL_checklstring E ci st 1 with
  | Raise e => (Raise e, L)
  | Crash f => (Crash f, L)
  | Ok file =>
      if negb (strdup_ok E (c_str file)) then
        (Ok (fail_with LNil "failed to allocate memory for path"), L)
      else
        let L1 := emit L (Ev_dlopen (c_str file)) in
        let h := sys_dlopen E (c_str file) in
        if h =? 0 then
          (Ok (fail_with LNil
                 ("failed to open module '" ++ c_str file ++ "': "
                  ++ sys_dlerror E)), L1)
        else
          let p := fresh (dom (udata L1)) in
          (Ok [LUserdata p],
           set_udata L1 p
             {| handle := h; path := Some (c_str file); symbols := [] |})
  end.

(** ** How Lua reaches the module *)

(** Calling a function value with the arguments [st]. *)
Definition lua_call (L : lua_State) (nw : namewhat) (f : lua_value)
    (st : stack) : result stack * lua_State :=
  match f with
  | LFunction CF_dlsym => dlsym_lua nw L st
  | LFunction CF_dlclose => dlclose_lua nw L st
  | LFunction (CF_symcall upvalue) => symcall_lua nw L upvalue st
  | v => (Raise (Err_not_callable v), L)
  end.

(** [self[key]] for a library handle: the [__index] metamethod. *)
Definition lua_index (L : lua_State) (self : lua_value) (key : string)
  : result stack * lua_State :=
  index_lua NW_other L [self; LString key].

(** An operation performed through a handle: the function is fetched from
    the handle by name and called with the handle as first argument.
    [NW_method] is [self:key(args)], [NW_other] is [self.key(self, args)]. *)
Definition lua_invoke (L : lua_State) (nw : namewhat) (self : lua_value)
    (key : string) (args : stack) : result stack * lua_State :=
  match lua_index L self key with
  | (Ok (f :: _), L1) => lua_call L1 nw f (self :: args)
  | (Ok [], L1) => (Raise (Err_not_callable LNil), L1)
  | (Raise e, L1) => (Raise e, L1)
  | (Crash f, L1) => (Crash f, L1)
  end.

End Dlopen.

(** ** Vocabulary of the properties *)

(** [LUAI_MAXSTACK]: Lua never hands a C function more values. *)
Definition LUAI_MAXSTACK : Z := 1000000.

(** The name of a type tag in the declaration protocol. *)
Definition type_name (t : datatype_t) : string :=
  match t with
  | T_VOID => "void" | T_VOID_PTR => "void*" | T_CHAR_PTR => "char*"
  | T_CHAR => "char" | T_SCHAR => "signed char" | T_UCHAR => "unsigned char"
  | T_SHORT => "short" | T_USHORT => "unsigned short"
  | T_INT8 => "int8" | T_UINT8 => "uint8"
  | T_INT16 => "int16" | T_UINT16 => "uint16"
  | T_INT => "int" | T_UINT => "unsigned int"
  | T_INT32 => "int32" | T_UINT32 => "uint32"
  | T_INT64 => "int64" | T_UINT64 => "uint64"
  | T_LONG => "long" | T_ULONG => "unsigned long"
  | T_LONG_LONG => "long long" | T_ULONG_LONG => "unsigned long long"
  | T_FLOAT => "float" | T_DOUBLE => "double"
  | T_SIZE_T => "size_t" | T_SSIZE_T => "ssize_t"
  end.

(** The Lua value [v] names the tag [t]. *)
Definition names_tag (v : lua_value) (t : datatype_t) : Prop :=
  match v with
  | LString s => c_str s = type_name t
  | _ => False
  end.

(** The three kinds of tag. *)
Definition is_integer_tag (t : datatype_t) : bool :=
  match t with
  | T_VOID | T_VOID_PTR | T_CHAR_PTR | T_FLOAT | T_DOUBLE => false
  | _ => true
  end.

(** A caller value that converts to the native representation of the tag. *)
Definition coercible (E : env) (t : datatype_t) (v : lua_value) : bool :=
  match t with
  | T_VOID => false
  | T_VOID_PTR =>
      match v with
      | LNil | LLightUserdata _ | LUserdata _ => true
      | _ => false
      end
  | T_CHAR_PTR =>
      match v with
      | LNil | LString _ => true
      | _ => false
      end
  | T_FLOAT | T_DOUBLE =>
      match lua_tonumberx E v with Some _ => true | None => false end
  | _ =>
      match lua_tointegerx E v with Some _ => true | None => false end
  end.

(** What an argument type error blames: the position it names and the kind
    of value it asks for. *)
Inductive category := Cat_pointer | Cat_string | Cat_number.

Definition expected_category (t : datatype_t) : category :=
  match t with
  | T_VOID_PTR => Cat_pointer
  | T_CHAR_PTR => Cat_string
  | _ => Cat_number
  end.

Definition blames (e : lua_error) : option (Z * category) :=
  match e with
  | Err_void_ptr_argument pos _ => Some (pos, Cat_pointer)
  | Err_char_ptr_argument pos _ => Some (pos, Cat_string)
  | Err_bad_argument arg (TypeExpected LUA_TNUMBER) => Some (arg, Cat_number)
  | Err_bad_argument arg NoIntegerRepresentation => Some (arg, Cat_number)
  | _ => None
  end.

(** The position that the error names when the argument at the 0-based
    place [i] of a symbol (the 1-indexed position [i + 1]) is refused: the
    module's own messages, for the pointer tags, name [i + 1]; for the
    numeric tags [luaL_checkinteger] and [luaL_checknumber] are given the
    stack index [i + 2] and [luaL_argerror] names it, less one when the
    function was called as a method. *)
Definition reported_position (ci : namewhat) (t : datatype_t) (i : nat) : Z :=
  match ci, expected_category t with
  | NW_other, Cat_number => Z.of_nat i + 2
  | _, _ => Z.of_nat i + 1
  end.

(** A binary64 number whose value is a binary32 number: it is
    [m' * 2^e'] for a mantissa and an exponent of the binary32 format. *)
Definition float_representable (d : spec_float) : Prop :=
  match d with
  | S754_finite _ m e =>
      bounded 53 1024 m e = true /\
      exists m' e', bounded 24 128 m' e' = true /\
                    Zpos m = Zpos m' * 2 ^ (e' - e)
  | _ => True
  end.

(** A caller value that the native type of the tag holds exactly: an
    integer within the range of the member that stores it, a number that
    the floating-point member holds.  Pointers, strings and [void] are not
    scalars. *)
Definition representable (a : abi) (t : datatype_t) (v : lua_value) : Prop :=
  match t, v with
  | T_FLOAT, LNumber d => float_representable d
  | T_DOUBLE, LNumber d => True
  | _, LInteger n =>
      match RETVAL t with
      | Some m =>
          is_integer_tag t = true /\
          in_range (member_type a m) n /\ in_range lua_Integer n
      | None => False
      end
  | _, _ => False
  end.

(** An entry as [dlsym_lua] builds it for the Lua string [n]. *)
Definition declared_name (s : syminfo_t) (n : string) : Prop :=
  len s = Z.of_nat (String.length n) /\ name s = Some (c_str n).

(** An entry that has not been released. *)
Definition live (s : syminfo_t) : Prop :=
  ref s <> LUA_NOREF /\ exists n, declared_name s n.


(** The invariant of stored entries. *)
Definition valid_argument_tag (z : Z) : Prop :=
  exists t, datatype_of_enum z = Some t /\ t <> T_VOID.

Definition wf_sym (s : syminfo_t) : Prop :=
  0 <= nargs s <= FFI_MAX_ARGS
  /\ Z.of_nat (length (arg_types s)) = nargs s
  /\ Forall valid_argument_tag (arg_types s)
  /\ exists t, datatype_of_enum (ret_type s) = Some t.

Definition wf_dso (d : dso_t) : Prop :=
  Forall wf_sym (symbols d) /\ (handle d <> 0 -> Forall live (symbols d)).

Definition wf_state (L : lua_State) : Prop :=
  forall p d, udata L !! p = Some d -> wf_dso d.

(** An outcome of [symcall_lua] that is neither an access outside the
    written part of an array nor one of the two guard branches of its
    argument switch. *)
Definition guarded {A} (r : result A) : Prop :=
  match r with
  | Crash Out_of_bounds => False
  | Crash Uninitialized_read => False
  | Raise (Err_void_argument _) => False
  | Raise (Err_unsupported_argument _) => False
  | _ => True
  end.

(** The state after [luaopen_dlopen], and the operations of the module. *)
Definition initial_state : lua_State :=
  {| udata := ∅; next_ref := 1; trace := [] |}.

Inductive operation :=
| Op_new | Op_dlsym | Op_dlclose | Op_gc | Op_index
| Op_symcall (upvalue : option syminfo_t).

Definition run (E : env) (op : operation) (ci : namewhat) (L : lua_State)
    (st : stack) : result stack * lua_State :=
  match op with
  | Op_new => new_lua E ci L st
  | Op_dlsym => dlsym_lua E ci L st
  | Op_dlclose => dlclose_lua E ci L st
  | Op_gc => gc_lua E ci L st
  | Op_index => index_lua E ci L st
  | Op_symcall up => symcall_lua E ci L up st
  end.

Inductive reachable (E : env) : lua_State -> Prop :=
| reach_initial : reachable E initial_state
| reach_step L op ci st :
    reachable E L -> reachable E (snd (run E op ci L st)).

(** ** A concrete world: an LP64 platform and a library that exports every
    name but ["missing"]; each native function adds its [int] arguments. *)

Definition lp64 : abi :=
  {| long_size := W64; size_t_size := W64; char_signed := true |}.

Definition sum_arguments (avalue : list callval_u) : Z :=
  fold_right (fun u acc => load_member c_int u + acc) 0 avalue.

Definition demo_env : env := {|
  platform := lp64;
  lua_str2number := fun _ => None;
  lua_number2str := fun _ => "0";
  lua_string_ptr := fun _ => 4096;
  c_string_at := fun p => if p =? 4096 then "hello" else "";
  strdup_ok := fun _ => true;
  sys_dlopen := fun _ => 1000;
  sys_dlsym := fun _ nm => if String.eqb nm "missing" then 0 else 2000;
  sys_dlclose := fun _ => 0;
  sys_dlerror := "undefined symbol";
  sys_ffi_prep_cif := fun _ _ _ => FFI_OK;
  sys_ffi_call := fun _ _ avalue => store_member c_int (sum_arguments avalue)
|}.

(** [lib = dlopen("libdemo.so")] *)
Definition demo_open : lua_State :=
  snd (new_lua demo_env NW_other initial_state [LString "libdemo.so"]).

Definition demo_lib : lua_value := LUserdata 0.

(** [lib:dlsym("int", "add", "int", "int")] *)
Definition demo_add : lua_State :=
  snd (lua_invoke demo_env demo_open NW_method demo_lib "dlsym"
         [LString "int"; LString "add"; LString "int"; LString "int"]).


(** [lib:dlclose()] *)
Definition demo_closed : lua_State :=
  snd (lua_invoke demo_env demo_add NW_method demo_lib "dlclose" []).


(** The entry of [add] in [demo_add]. *)
Definition demo_add_sym : syminfo_t :=
  {| ref := 1; addr := 2000; len := 3; name := Some "add";
     ret_type := 12; ret_ffi_type := ffi_type_sint; nargs := 2;
     arg_types := [12; 12];
     arg_ffi_types := [ffi_type_sint; ffi_type_sint];
     cif := {| cif_nargs := 2; cif_rtype := ffi_type_sint;
               cif_arg_types := [ffi_type_sint; ffi_type_sint] |} |}.

(** An entry declared as [char * getenv(char * )]. *)
Definition demo_getenv_sym : syminfo_t :=
  {| ref := 2; addr := 2000; len := 6; name := Some "getenv";
     ret_type := 2; ret_ffi_type := ffi_type_pointer; nargs := 1;
     arg_types := [2];
     arg_ffi_types := [ffi_type_pointer];
     cif := {| cif_nargs := 1; cif_rtype := ffi_type_pointer;
               cif_arg_types := [ffi_type_pointer] |} |}.

(** The library object of [demo_add]. *)
Definition demo_add_dso : dso_t :=
  {| handle := 1000; path := Some "libdemo.so"; symbols := [demo_add_sym] |}.


(** ** The rest of the module and the vocabulary of its properties *)

Section Tostring.
(** The text that [%p] produces for a pointer: the C library decides. *)
Variable pointer_text : Z -> string.

(** [%s] of [lua_pushfstring]: a null pointer is printed as "(null)". *)
Definition format_s (s : option string) : string :=
  match s with
  | Some x => x
  | None => "(null)"
  end.

(** [tostring_lua] (dlopen.c:579-584).  The block is taken with
    [lua_touserdata], without a check: a value that is no userdata gives a
    null pointer, and a block that is not a library is read as if it were
    one. *)
Definition tostring_lua (L : lua_State) (st : stack)
  : result stack * lua_State :=
  match value_at st 1 with
  | Some (LUserdata p) =>
      match udata L !! p with
      | Some dso =>
          (Ok [LString (MODULE_MT ++ ": " ++ pointer_text (handle dso)
                        ++ " (" ++ format_s (path dso) ++ ")")], L)
      | None => (Crash Uninitialized_read, L)
      end
  | Some (LLightUserdata _) => (Crash Uninitialized_read, L)
  | _ => (Crash Null_dereference, L)
  end.

End Tostring.

(** How [index_lua] compares a key of [len] bytes with a method name:
    [strncmp(method, name, len) == 0].  A key without NUL matches when it is
    a prefix of the name; a key with a NUL is read up to the NUL and matches
    when that much is the whole name. *)
Definition key_matches (q m : string) : bool :=
  if nul_free q then String.prefix q m else String.eqb (c_str q) m.

(** The entry answers the key [q]: it was declared under a name of the
    length of [q] whose C string is the C string of [q]. *)
Definition answers (q : string) (s : syminfo_t) : bool :=
  (len s =? Z.of_nat (String.length q))
  && match name s with
     | Some nm => String.eqb nm (c_str q)
     | None => false
     end.

(** The entry that a successful [dlsym_lua] appends for the return tag
    [rt], the name [nm] and the argument tags [tags], under the reference
    [r] and the address [a]. *)
Definition new_entry (E : env) (r a : Z) (rt : datatype_t) (nm : string)
    (tags : list datatype_t) : syminfo_t :=
  {| ref := r; addr := a;
     len := Z.of_nat (String.length nm);
     name := Some (c_str nm);
     ret_type := enum_value rt;
     ret_ffi_type := ffi_type_of E rt;
     nargs := Z.of_nat (length tags);
     arg_types := map enum_value tags;
     arg_ffi_types := map (ffi_type_of E) tags;
     cif := {| cif_nargs := Z.of_nat (length tags);
               cif_rtype := ffi_type_of E rt;
               cif_arg_types := map (ffi_type_of E) tags |} |}.

(** The call interface of an entry describes its tags, libffi accepted it,
    and the address is not null. *)
Definition consistent_sym (E : env) (s : syminfo_t) : Prop :=
  addr s <> 0
  /\ cif s = {| cif_nargs := nargs s; cif_rtype := ret_ffi_type s;
                cif_arg_types := arg_ffi_types s |}
  /\ (exists rt, ret_type s = enum_value rt /\ ret_ffi_type s = ffi_type_of E rt)
  /\ (exists tags, arg_types s = map enum_value tags
                   /\ arg_ffi_types s = map (ffi_type_of E) tags
                   /\ nargs s = Z.of_nat (length tags))
  /\ sys_ffi_prep_cif E (nargs s) (ret_ffi_type s) (arg_ffi_types s) = FFI_OK.

(** A library is open with its path, or closed without it. *)
Definition lifecycle_dso (d : dso_t) : Prop :=
  (handle d <> 0 /\ path d <> None) \/ (handle d = 0 /\ path d = None).







(** The width and signedness that libffi gives its integer and pointer
    descriptors on the platform. *)
Definition ffi_type_ctype (a : abi) (f : ffi_type) : option ctype :=
  match f with
  | ffi_type_void | ffi_type_float | ffi_type_double => None
  | ffi_type_pointer =>
      Some {| bits := wbits (size_t_size a); is_signed := false |}
  | ffi_type_schar | ffi_type_sint8 => Some {| bits := 8; is_signed := true |}
  | ffi_type_uchar | ffi_type_uint8 => Some {| bits := 8; is_signed := false |}
  | ffi_type_sshort | ffi_type_sint16 =>
      Some {| bits := 16; is_signed := true |}
  | ffi_type_ushort | ffi_type_uint16 =>
      Some {| bits := 16; is_signed := false |}
  | ffi_type_sint | ffi_type_sint32 => Some {| bits := 32; is_signed := true |}
  | ffi_type_uint | ffi_type_uint32 => Some {| bits := 32; is_signed := false |}
  | ffi_type_slong => Some {| bits := wbits (long_size a); is_signed := true |}
  | ffi_type_ulong => Some {| bits := wbits (long_size a); is_signed := false |}
  | ffi_type_sint64 => Some {| bits := 64; is_signed := true |}
  | ffi_type_uint64 => Some {| bits := 64; is_signed := false |}
  end.

(** A declared argument tag: a type name other than [void]. *)
Definition names_argument (v : lua_value) (t : datatype_t) : Prop :=
  names_tag v t /\ t <> T_VOID.

(** The message of the first test of [dlsym_lua]. *)
Definition bound_message : string :=
  "number of arguments at least 2 and at most 34".

(** What holds of every library between two operations. *)
Definition sound_dso (E : env) (d : dso_t) : Prop :=
  lifecycle_dso d /\ Forall (consistent_sym E) (symbols d).

Definition sound_state (E : env) (L : lua_State) : Prop :=
  forall p d, udata L !! p = Some d -> sound_dso E d.


(** A second world: [dlopen] fails for ["libnone.so"], [dlclose] reports
    an error, and libffi refuses every interface of more than two
    arguments. *)
Definition harsh_env : env := {|
  platform := lp64;
  lua_str2number := fun _ => None;
  lua_number2str := fun _ => "0";
  lua_string_ptr := fun _ => 4096;
  c_string_at := fun _ => "";
  strdup_ok := fun _ => true;
  sys_dlopen := fun f => if String.eqb f "libnone.so" then 0 else 1000;
  sys_dlsym := fun _ nm => if String.eqb nm "missing" then 0 else 2000;
  sys_dlclose := fun _ => -1;
  sys_dlerror := "shared object cannot be closed";
  sys_ffi_prep_cif := fun n _ _ => if n <=? 2 then FFI_OK else FFI_BAD_TYPEDEF;
  sys_ffi_call := fun _ _ _ => CV_bits 0
|}.

(** [lib = dlopen("libdemo.so")] in that world. *)
Definition harsh_open : lua_State :=
  snd (new_lua harsh_env NW_other initial_state [LString "libdemo.so"]).

Definition demo_open_dso : dso_t :=
  {| handle := 1000; path := Some "libdemo.so"; symbols := [] |}.

(** ** C strings: properties *)

Lemma uchar_inj c1 c2 : uchar c1 = uchar c2 -> c1 = c2.
Proof.
  unfold uchar. intros H. apply N2Z.inj in H.
  rewrite <- (ascii_N_embedding c1), <- (ascii_N_embedding c2), H.
  reflexivity.
Qed.

Lemma c_str_nul_free s : nul_free s = true -> c_str s = s.
Proof.
  induction s as [|c r IH]; simpl; [reflexivity|].
  intros H. apply andb_prop in H as [Hc Hr].
  destruct (uchar c =? 0); [discriminate|]. rewrite IH; auto.
Qed.

Lemma nul_free_c_str s : nul_free (c_str s) = true.
Proof.
  induction s as [|c r IH]; simpl; [reflexivity|].
  destruct (uchar c =? 0) eqn:Hc; simpl; [reflexivity|].
  rewrite Hc. simpl. exact IH.
Qed.

Lemma c_str_length s : (String.length (c_str s) <= String.length s)%nat.
Proof.
  induction s as [|c r IH]; simpl; [lia|].
  destruct (uchar c =? 0); simpl; lia.
Qed.

(** [strncmp] reads its second argument as a C string. *)
Lemma strncmp_c_str_r s1 s2 n : strncmp s1 s2 n = strncmp s1 (c_str s2) n.
Proof.
  revert s1 s2. induction n as [|n IH]; intros s1 s2; simpl; [reflexivity|].
  destruct s2 as [|c r]; simpl; [reflexivity|].
  destruct (uchar c =? 0) eqn:Hc; simpl.
  - apply Z.eqb_eq in Hc. rewrite Hc. change (uchar NUL) with 0.
    destruct (uchar (char_at s1) =? 0) eqn:H1; simpl; [reflexivity|].
    reflexivity.
  - destruct (uchar (char_at s1) =? uchar c); simpl; [|reflexivity].
    destruct (uchar (char_at s1) =? 0); [reflexivity|]. apply IH.
Qed.


(** ** Floating point: a binary32 value survives the two conversions *)

Lemma iter_pos_eq {A} (f : A -> A) p x : SpecFloat.iter_pos f p x = Pos.iter f x p.
Proof.
  revert x. induction p as [p IH|p IH|]; intros x; simpl.
  - rewrite !IH. rewrite <- !Pos.iter_swap. reflexivity.
  - rewrite !IH. reflexivity.
  - reflexivity.
Qed.

Lemma digits2_iter_xO m p :
  Zpos (digits2_pos (Pos.iter xO m p)) = Zpos (digits2_pos m) + Zpos p.
Proof.
  induction p as [|p IH] using Pos.peano_ind.
  - simpl. lia.
  - rewrite Pos.iter_succ. simpl. lia.
Qed.

Lemma Zpos_iter_xO m p : Zpos (Pos.iter xO m p) = Zpos m * 2 ^ Zpos p.
Proof.
  induction p as [|p IH] using Pos.peano_ind.
  - simpl. lia.
  - rewrite Pos.iter_succ, Pos2Z.inj_succ, Z.pow_succ_r by lia.
    rewrite Pos2Z.inj_xO, IH. lia.
Qed.

Lemma shr_iter_xO m p :
  SpecFloat.iter_pos shr_1 p (Build_shr_record (Zpos (Pos.iter xO m p)) false false)
  = Build_shr_record (Zpos m) false false.
Proof.
  rewrite iter_pos_eq. revert m.
  induction p as [|p IH] using Pos.peano_ind; intros m.
  - reflexivity.
  - rewrite (Pos.iter_succ_r p _ xO), (Pos.iter_succ p _ shr_1), IH.
    reflexivity.
Qed.

(** Rounding a number that is canonical in the format leaves it as it is. *)
Lemma binary_round_aux_canonical prec emax s m e :
  bounded prec emax m e = true ->
  binary_round_aux prec emax s (Zpos m) e loc_Exact = S754_finite s m e.
Proof.
  intros Hb. unfold bounded in Hb. apply andb_prop in Hb as [Hc He].
  unfold canonical_mantissa in Hc. apply Z.eqb_eq in Hc.
  unfold binary_round_aux, shr_fexp. simpl Zdigits2. rewrite Hc, Z.sub_diag.
  simpl. rewrite Hc, Z.sub_diag. simpl. rewrite He. reflexivity.
Qed.

Lemma scaled_mantissa m m' k :
  Zpos m = Zpos m' * 2 ^ k ->
  (k = 0 /\ m = m') \/ exists p, k = Zpos p /\ m = Pos.iter xO m' p.
Proof.
  intros H. destruct k as [|p|p].
  - left. split; [reflexivity|]. simpl in H. lia.
  - right. exists p. split; [reflexivity|].
    rewrite <- Zpos_iter_xO in H. congruence.
  - exfalso. rewrite Z.pow_neg_r in H; lia.
Qed.

Lemma float_round_trip d :
  float_representable d -> float_to_double (double_to_float d) = d.
Proof.
  destruct d as [s|s| |s m e]; simpl; try reflexivity.
  intros [Hd (m' & e' & Hf & Hm)].
  assert (Hcf := Hf). assert (Hcd := Hd).
  unfold bounded in Hcf, Hcd.
  apply andb_prop in Hcf as [Hcf _]. apply andb_prop in Hcd as [Hcd _].
  unfold canonical_mantissa in Hcf, Hcd.
  apply Z.eqb_eq in Hcf. apply Z.eqb_eq in Hcd.
  destruct (scaled_mantissa _ _ _ Hm) as [[Hk ->]|(p & Hk & ->)].
  - assert (e' = e) by lia. subst e'.
    unfold binary_round, shl_align. rewrite Hcf, Z.sub_diag.
    rewrite binary_round_aux_canonical by assumption. simpl.
    unfold binary_round, shl_align. rewrite Hcd, Z.sub_diag.
    apply binary_round_aux_canonical. assumption.
  - assert (He : e' = e + Zpos p) by lia.
    assert (Hdig := digits2_iter_xO m' p).
    unfold binary_round at 1. unfold shl_align.
    replace (fexp 24 128 (Zpos (digits2_pos (Pos.iter xO m' p)) + e)) with e'
      by (rewrite Hdig, <- Hcf; f_equal; lia).
    rewrite Hk.
    unfold binary_round_aux, shr_fexp. simpl Zdigits2.
    replace (fexp 24 128 (Zpos (digits2_pos (Pos.iter xO m' p)) + e) - e)
      with (Zpos p) by (rewrite Hdig; replace (Zpos (digits2_pos m') + Zpos p + e) with (Zpos (digits2_pos m') + e') by lia; rewrite Hcf; lia).
    cbn [shr shr_record_of_loc]. rewrite shr_iter_xO.
    cbn [shr_m loc_of_shr_record round_nearest_even Zdigits2].
    rewrite <- He. rewrite Hcf, Z.sub_diag. cbn [shr shr_record_of_loc shr_m].
    apply andb_prop in Hf as [_ Hf]. rewrite Hf.
    simpl float_to_double.
    unfold binary_round, shl_align.
    replace (fexp 53 1024 (Zpos (digits2_pos m') + e')) with e
      by (rewrite <- Hcd, Hdig; f_equal; lia).
    replace (e - e') with (Zneg p) by lia.
    apply binary_round_aux_canonical. assumption.
Qed.

(** ** Integer casts *)

Lemma cast_in_range T z : 0 < bits T -> in_range T z -> cast T z = z.
Proof.
  intros Hb. unfold in_range, cast.
  assert (H2 : 2 ^ bits T = 2 * 2 ^ (bits T - 1)).
  { rewrite <- Z.pow_succ_r by lia. f_equal. lia. }
  assert (Hp : 0 < 2 ^ (bits T - 1)) by (apply Z.pow_pos_nonneg; lia).
  destruct (is_signed T); simpl.
  - intros [Hlo Hhi]. destruct (Z_lt_le_dec z 0) as [Hn|Hn].
    + replace (z mod 2 ^ bits T) with (z + 2 ^ bits T)
        by (apply Z.mod_unique with (-1); lia).
      destruct (2 ^ (bits T - 1) <=? z + 2 ^ bits T) eqn:Hc; [lia|].
      apply Z.leb_gt in Hc. lia.
    + rewrite Z.mod_small by lia.
      destruct (2 ^ (bits T - 1) <=? z) eqn:Hc; [|reflexivity].
      apply Z.leb_le in Hc. lia.
  - intros Hr. apply Z.mod_small. lia.
Qed.

Lemma load_store_member T v :
  load_member T (store_member T v) = cast T v.
Proof.
  unfold load_member, store_member, cast. rewrite Zmod_mod. reflexivity.
Qed.

(** ** Closed handles *)

Lemma index_lua_closed E ci L p d key rest :
  udata L !! p = Some d -> handle d = 0 ->
  index_lua E ci L (LUserdata p :: LString key :: rest)
  = (Raise Err_module_closed, L).
Proof.
  intros Hp Hh. unfold index_lua, luaL_checkudata, luaL_checklstring.
  simpl. rewrite Hp. simpl. rewrite Hh. reflexivity.
Qed.

Lemma lua_invoke_closed E L nw p d key args :
  udata L !! p = Some d -> handle d = 0 ->
  lua_invoke E L nw (LUserdata p) key args = (Raise Err_module_closed, L).
Proof.
  intros Hp Hh. unfold lua_invoke, lua_index.
  rewrite (index_lua_closed E NW_other L p d key []) by assumption.
  reflexivity.
Qed.

Lemma dso_close_closed E L p d : handle d = 0 -> dso_close E L p d = (0, L).
Proof. intros Hh. unfold dso_close. rewrite Hh. reflexivity. Qed.

(** Closing sets the handle to null, whatever [dlclose] answers. *)
Lemma dso_close_closes E L p d :
  handle d <> 0 ->
  exists d', udata (snd (dso_close E L p d)) !! p = Some d' /\ handle d' = 0.
Proof.
  intros Hh. unfold dso_close. apply Z.eqb_neq in Hh. rewrite Hh. simpl.
  eexists. split; [apply lookup_insert_eq | reflexivity].
Qed.

(** C1, as amended: on a handle that [close] has already closed, the
    closing routine itself is a no-op that reports success ([dso_close]
    returns 0, [dlclose_lua] yields [true], the finalizer [gc_lua] yields
    nothing, and the state with its trace stays as it was), but a [close]
    requested through the handle is rejected by [index_lua] with "module is
    closed" before [dlclose_lua] is reached. *)
Theorem C1_close_of_closed_library E ci L p d rest :
  udata L !! p = Some d -> handle d = 0 ->
  dso_close E L p d = (0, L)
  /\ dlclose_lua E ci L (LUserdata p :: rest) = (Ok [LBoolean true], L)
  /\ gc_lua E ci L (LUserdata p :: rest) = (Ok [], L)
  /\ forall nw args,
       lua_invoke E L nw (LUserdata p) "dlclose" args
       = (Raise Err_module_closed, L).
Proof.
  intros Hp Hh. split; [apply dso_close_closed, Hh|].
  split; [|split].
  - unfold dlclose_lua, luaL_checkudata. simpl. rewrite Hp.
    rewrite dso_close_closed by assumption. reflexivity.
  - unfold gc_lua, luaL_checkudata. simpl. rewrite Hp.
    rewrite dso_close_closed by assumption. reflexivity.
  - intros nw args. eapply lua_invoke_closed; eassumption.
Qed.

Lemma demo_closed_lookup :
  udata demo_closed !! 0
  = Some {| handle := 0; path := None; symbols := [release demo_add_sym] |}.
Proof. vm_compute. reflexivity. Qed.

Lemma C1_close_of_closed_library_witness :
  dso_close demo_env demo_closed 0
    {| handle := 0; path := None; symbols := [release demo_add_sym] |}
  = (0, demo_closed)
  /\ dlclose_lua demo_env NW_method demo_closed [demo_lib]
     = (Ok [LBoolean true], demo_closed)
  /\ gc_lua demo_env NW_method demo_closed [demo_lib] = (Ok [], demo_closed)
  /\ forall nw args,
       lua_invoke demo_env demo_closed nw (LUserdata 0) "dlclose" args
       = (Raise Err_module_closed, demo_closed).
Proof.
  apply (C1_close_of_closed_library demo_env _ demo_closed 0 _ []).
  - exact demo_closed_lookup.
  - reflexivity.
Defined.

(** C1 as stated fails: [lib:dlclose()] succeeds on the open library, and
    the same call on the handle it has closed raises "module is closed"
    instead of reporting success. *)
Lemma C1_second_close_is_rejected :
  fst (lua_invoke demo_env demo_add NW_method demo_lib "dlclose" [])
  = Ok [LBoolean true]
  /\ snd (lua_invoke demo_env demo_add NW_method demo_lib "dlclose" [])
     = demo_closed
  /\ fst (lua_invoke demo_env demo_closed NW_method demo_lib "dlclose" [])
     = Raise Err_module_closed
  /\ fst (lua_invoke demo_env demo_closed NW_method demo_lib "dlclose" [])
     <> Ok [LBoolean true].
Proof.
  split; [vm_compute; reflexivity|]. split; [reflexivity|].
  split; [vm_compute; reflexivity|]. vm_compute. discriminate.
Qed.




(** ** Lookup of a declared symbol *)

Lemma prefix_refl s : String.prefix s s = true.
Proof.
  induction s as [|c s IH]; simpl; [reflexivity|].
  destruct (ascii_dec c c); [exact IH | congruence].
Qed.

Lemma prefix_short q s :
  String.prefix q s = true -> (String.length s <= String.length q)%nat ->
  s = q.
Proof.
  revert s. induction q as [|c q IH]; intros s Hp Hl.
  - destruct s; [reflexivity | simpl in Hl; lia].
  - destruct s as [|c' s]; simpl in Hp; [discriminate|].
    destruct (ascii_dec c c') as [->|]; [|discriminate].
    f_equal. apply IH; [exact Hp | simpl in Hl; lia].
Qed.



Lemma find_app_first {A} (f : A -> bool) l later x :
  List.find f l = Some x -> List.find f (l ++ later) = Some x.
Proof.
  induction l as [|a l IH]; simpl; [discriminate|].
  destruct (f a); [trivial | exact IH].
Qed.


Lemma demo_add_lookup : udata demo_add !! 0 = Some demo_add_dso.
Proof. vm_compute. reflexivity. Qed.

Lemma demo_add_sym_live : live demo_add_sym.
Proof.
  split; [discriminate|]. exists "add". split; reflexivity.
Qed.



(** ** Declarations *)

Lemma lua_gettop_cons v st : lua_gettop (v :: st) = 1 + lua_gettop st.
Proof. unfold lua_gettop. simpl length. lia. Qed.

Lemma value_at_cons v st idx :
  1 <= idx -> value_at (v :: st) (1 + idx) = value_at st idx.
Proof.
  intros H. unfold value_at.
  destruct (1 <=? 1 + idx) eqn:H1; [|apply Z.leb_gt in H1; lia].
  destruct (1 <=? idx) eqn:H2; [|apply Z.leb_gt in H2; lia].
  replace (Z.to_nat (1 + idx - 1)) with (S (Z.to_nat (idx - 1))) by lia.
  reflexivity.
Qed.

Lemma value_at_skip (done : stack) x rest :
  value_at (done ++ x :: rest)%list (1 + Z.of_nat (length done)) = Some x.
Proof.
  unfold value_at.
  destruct (1 <=? 1 + Z.of_nat (length done)) eqn:H1;
    [|apply Z.leb_gt in H1; lia].
  replace (Z.to_nat (1 + Z.of_nat (length done) - 1)) with (length done) by lia.
  rewrite nth_error_app2 by lia. rewrite Nat.sub_diag. reflexivity.
Qed.

Lemma find_option_c_str lst s i :
  find_option lst s i = find_option lst (c_str s) i.
Proof.
  revert i. induction lst as [|n lst IH]; intros i; simpl; [reflexivity|].
  unfold strcmp. rewrite strncmp_c_str_r, IH. reflexivity.
Qed.

Lemma enum_of_datatype t : datatype_of_enum (enum_value t) = Some t.
Proof. destruct t; reflexivity. Qed.

Lemma enum_value_void t : t <> T_VOID -> (enum_value t =? 0) = false.
Proof. destruct t; intros H; try reflexivity. congruence. Qed.

(** A string that names a tag is accepted by [check_ffitype]. *)
Lemma check_ffitype_names E ci st idx v t :
  value_at st idx = Some v -> names_tag v t ->
  check_ffitype E ci st idx = Ok (t, ffi_type_of E t).
Proof.
  intros Hv Hn. destruct v; try contradiction. simpl in Hn.
  unfold check_ffitype, luaL_checkoption, luaL_checklstring.
  rewrite Hv. cbn [lua_tolstring bind]. rewrite find_option_c_str, Hn.
  destruct t; reflexivity.
Qed.

(** The declaration loop stops at the first [void] tag. *)
Lemma declare_arguments_void E ci hd pre v post :
  forall done todo types ffis,
    length hd = 3%nat ->
    (length done + length pre < 32)%nat ->
    (length pre < todo)%nat ->
    Forall (fun x => exists t, names_tag x t /\ t <> T_VOID) pre ->
    names_tag v T_VOID ->
    declare_arguments E ci (hd ++ done ++ pre ++ v :: post)%list
      (Z.of_nat (length done)) todo types ffis
    = Ok Args_void.
Proof.
  induction pre as [|x pre IH]; intros done todo types ffis Hhd Hlen Htodo Hpre Hv.
  - destruct todo as [|todo]; [simpl in Htodo; lia|].
    simpl declare_arguments.
    rewrite (check_ffitype_names E ci _ _ v T_VOID); [| |exact Hv].
    + cbn [bind fst snd].
      destruct ((Z.of_nat (length done) <? 0)
                || (FFI_MAX_ARGS <=? Z.of_nat (length done))) eqn:Hb;
        [|rewrite Z.eqb_refl; reflexivity].
      apply orb_prop in Hb as [Hb|Hb];
        [apply Z.ltb_lt in Hb | apply Z.leb_le in Hb];
        unfold FFI_MAX_ARGS in *; simpl in Hlen; lia.
    + rewrite app_assoc.
      replace (4 + Z.of_nat (length done))
        with (1 + Z.of_nat (length (hd ++ done)%list))
        by (rewrite length_app, Hhd; lia).
      apply value_at_skip.
  - destruct todo as [|todo]; [simpl in Htodo; lia|].
    apply Forall_cons in Hpre as [(t & Ht & Hne) Hpre].
    simpl declare_arguments.
    rewrite (check_ffitype_names E ci _ _ x t); [| |exact Ht].
    + cbn [bind fst snd].
      destruct ((Z.of_nat (length done) <? 0)
                || (FFI_MAX_ARGS <=? Z.of_nat (length done))) eqn:Hb.
      { apply orb_prop in Hb as [Hb|Hb];
          [apply Z.ltb_lt in Hb | apply Z.leb_le in Hb];
          unfold FFI_MAX_ARGS in *; simpl in Hlen; lia. }
      rewrite (enum_value_void t Hne).
      specialize (IH (done ++ [x])%list todo
                     (types ++ [enum_value t])%list (ffis ++ [ffi_type_of E t])%list).
      rewrite length_app in IH. simpl length in IH.
      replace (Z.of_nat (length done) + 1)
        with (Z.of_nat (length done + 1)) by lia.
      rewrite <- app_assoc in IH. simpl app in IH.
      apply IH; try assumption; simpl in *; lia.
    + rewrite app_assoc.
      replace (4 + Z.of_nat (length done))
        with (1 + Z.of_nat (length (hd ++ done)%list))
        by (rewrite length_app, Hhd; lia).
      apply (value_at_skip (hd ++ done)%list x (pre ++ v :: post)%list).
Qed.

Lemma index_lua_dlsym E ci L p d :
  udata L !! p = Some d -> handle d <> 0 ->
  index_lua E ci L [LUserdata p; LString "dlsym"]
  = (Ok [LFunction CF_dlsym], L).
Proof.
  intros Hp Hh. unfold index_lua, luaL_checkudata, luaL_checklstring.
  simpl. rewrite Hp. simpl. apply Z.eqb_neq in Hh. rewrite Hh. reflexivity.
Qed.

Lemma dlsym_lua_too_many E ci L p d ret nm tags :
  udata L !! p = Some d -> (32 < length tags)%nat ->
  dlsym_lua E ci L (LUserdata p :: ret :: nm :: tags)
  = (Ok [LBoolean false;
         LString "number of arguments at least 2 and at most 34"], L).
Proof.
  intros Hp Hlen. unfold dlsym_lua, luaL_checkudata.
  rewrite !lua_gettop_cons. change (value_at _ 1) with (Some (LUserdata p)).
  cbv beta iota. rewrite Hp.
  assert (Hc : (1 + (1 + (1 + lua_gettop tags)) - 1 >? FFI_MAX_ARGS + 2) = true).
  { unfold lua_gettop, FFI_MAX_ARGS. apply Z.gtb_lt. lia. }
  rewrite Hc, orb_true_r. reflexivity.
Qed.

(** C6: a declaration with more than 32 argument tags on an open library,
    made through the handle or by calling [dlsym_lua] directly, yields
    [false] and the message of the bound; the state is unchanged, so the
    library holds as many entries as before. *)
Theorem C6_too_many_arguments E ci L p d ret nm tags :
  udata L !! p = Some d -> handle d <> 0 -> (32 < length tags)%nat ->
  dlsym_lua E ci L (LUserdata p :: ret :: nm :: tags)
  = (Ok [LBoolean false;
         LString "number of arguments at least 2 and at most 34"], L)
  /\ lua_invoke E L ci (LUserdata p) "dlsym" (ret :: nm :: tags)
     = (Ok [LBoolean false;
            LString "number of arguments at least 2 and at most 34"], L)
  /\ (length <$> (symbols <$>
        udata (snd (dlsym_lua E ci L (LUserdata p :: ret :: nm :: tags))) !! p))
     = Some (length (symbols d)).
Proof.
  intros Hp Hh Hlen.
  pose proof (dlsym_lua_too_many E ci L p d ret nm tags Hp Hlen) as H.
  split; [exact H|]. split.
  - unfold lua_invoke, lua_index.
    rewrite (index_lua_dlsym E NW_other L p d Hp Hh). exact H.
  - rewrite H. simpl. rewrite Hp. reflexivity.
Qed.

Lemma demo_open_lookup :
  udata demo_open !! 0
  = Some {| handle := 1000; path := Some "libdemo.so"; symbols := [] |}.
Proof. vm_compute. reflexivity. Qed.

Lemma C6_too_many_arguments_witness :
  let st := LUserdata 0 :: LString "int" :: LString "sum"
            :: repeat (LString "int") 33 in
  dlsym_lua demo_env NW_method demo_open st
  = (Ok [LBoolean false;
         LString "number of arguments at least 2 and at most 34"], demo_open)
  /\ lua_invoke demo_env demo_open NW_method (LUserdata 0) "dlsym" (tail st)
     = (Ok [LBoolean false;
            LString "number of arguments at least 2 and at most 34"],
        demo_open)
  /\ (length <$> (symbols <$>
        udata (snd (dlsym_lua demo_env NW_method demo_open st)) !! 0))
     = Some 0%nat.
Proof.
  apply (C6_too_many_arguments demo_env NW_method demo_open 0
           {| handle := 1000; path := Some "libdemo.so"; symbols := [] |}
           (LString "int") (LString "sum") (repeat (LString "int") 33)).
  - exact demo_open_lookup.
  - discriminate.
  - simpl. lia.
Defined.

(** C7, as amended: a declaration of at most 32 argument tags, with a
    valid return tag, a text name and valid tags before its first [void]
    tag, yields [false] and "void cannot be used as argument type"; the
    state and its trace are unchanged, so [dlsym] was not called. *)
Theorem C7_void_argument E ci L p d ret rt nm pre v post :
  udata L !! p = Some d ->
  (length (pre ++ v :: post)%list <= 32)%nat ->
  names_tag ret rt ->
  Forall (fun x => exists t, names_tag x t /\ t <> T_VOID) pre ->
  names_tag v T_VOID ->
  dlsym_lua E ci L (LUserdata p :: ret :: LString nm :: pre ++ v :: post)%list
  = (Ok [LBoolean false; LString "void cannot be used as argument type"], L)
  /\ trace (snd (dlsym_lua E ci L
                   (LUserdata p :: ret :: LString nm :: pre ++ v :: post)%list))
     = trace L.
Proof.
  intros Hp Hlen Hret Hpre Hv.
  assert (H : dlsym_lua E ci L
                (LUserdata p :: ret :: LString nm :: pre ++ v :: post)%list
              = (Ok [LBoolean false;
                     LString "void cannot be used as argument type"], L)).
  { unfold dlsym_lua, luaL_checkudata.
    rewrite !lua_gettop_cons. change (value_at _ 1) with (Some (LUserdata p)).
    cbv beta iota. rewrite Hp.
    set (n := lua_gettop (pre ++ v :: post)%list).
    assert (Hn : n = Z.of_nat (length (pre ++ v :: post)%list)) by reflexivity.
    assert (Hc : ((1 + (1 + (1 + n)) - 1 <? 2)
                  || (1 + (1 + (1 + n)) - 1 >? FFI_MAX_ARGS + 2)) = false).
    { apply orb_false_intro; [apply Z.ltb_ge | rewrite Z.gtb_ltb; apply Z.ltb_ge];
        unfold FFI_MAX_ARGS; lia. }
    rewrite Hc.
    rewrite (check_ffitype_names E ci
               (LUserdata p :: ret :: LString nm :: pre ++ v :: post)%list
               2 ret rt eq_refl Hret).
    unfold luaL_checklstring. change (value_at _ 3) with (Some (LString nm)).
    cbn [lua_tolstring bind].
    replace (Z.to_nat (1 + (1 + (1 + n)) - 1 - 2))
      with (length (pre ++ v :: post)%list) by lia.
    pose proof (declare_arguments_void E ci [LUserdata p; ret; LString nm]
                  pre v post [] (length (pre ++ v :: post)%list) [] []) as Hd.
    change (Z.of_nat (length [])) with 0 in Hd.
    change ([LUserdata p; ret; LString nm] ++ [] ++ pre ++ v :: post)%list
      with (LUserdata p :: ret :: LString nm :: pre ++ v :: post)%list in Hd.
    rewrite Hd; try assumption; try reflexivity.
    - rewrite length_app in Hlen. simpl in *. lia.
    - rewrite length_app. simpl. lia. }
  rewrite H. split; reflexivity.
Qed.

Lemma C7_void_argument_witness :
  dlsym_lua demo_env NW_method demo_open
    (LUserdata 0 :: LString "int" :: LString "f"
     :: [LString "int"] ++ LString "void" :: [LString "double"])%list
  = (Ok [LBoolean false; LString "void cannot be used as argument type"],
     demo_open)
  /\ trace (snd (dlsym_lua demo_env NW_method demo_open
              (LUserdata 0 :: LString "int" :: LString "f"
               :: [LString "int"] ++ LString "void" :: [LString "double"])%list))
     = trace demo_open.
Proof.
  apply (C7_void_argument demo_env NW_method demo_open 0
           {| handle := 1000; path := Some "libdemo.so"; symbols := [] |}
           (LString "int") T_INT "f" [LString "int"] (LString "void")
           [LString "double"]).
  - exact demo_open_lookup.
  - simpl. lia.
  - reflexivity.
  - constructor; [|constructor]. exists T_INT. split; [reflexivity|discriminate].
  - reflexivity.
Defined.

(** C7 as stated fails: a declaration of 33 argument tags, each of them
    [void], is turned down by the bound on the number of arguments, not by
    the [void] check. *)
Lemma C7_bound_precedes_void_check :
  In (LString "void") (repeat (LString "void") 33)
  /\ fst (lua_invoke demo_env demo_open NW_method demo_lib "dlsym"
            (LString "int" :: LString "f" :: repeat (LString "void") 33))
     = Ok [LBoolean false;
           LString "number of arguments at least 2 and at most 34"]
  /\ fst (lua_invoke demo_env demo_open NW_method demo_lib "dlsym"
            (LString "int" :: LString "f" :: repeat (LString "void") 33))
     <> Ok [LBoolean false; LString "void cannot be used as argument type"].
Proof.
  split; [left; reflexivity|].
  split; [vm_compute; reflexivity | vm_compute; discriminate].
Qed.

(** ** Invocation *)

Lemma datatype_of_enum_inv z t :
  datatype_of_enum z = Some t -> z = enum_value t.
Proof.
  unfold datatype_of_enum. destruct (0 <=? z) eqn:Hz; [|discriminate].
  apply Z.leb_le in Hz. rewrite <- (Z2Nat.id z Hz).
  generalize (Z.to_nat z). intros n. rewrite Nat2Z.id.
  do 26 (destruct n as [|n]; [intros [= <-]; reflexivity|]).
  destruct n; discriminate.
Qed.

Lemma RETVAL_void t : RETVAL t = None -> t = T_VOID.
Proof. destruct t; (reflexivity || discriminate). Qed.

(** The two checks that precede the argument loop pass for a well-formed
    entry called with as many arguments as it declares. *)
Lemma symcall_check_loop E ci sym st :
  wf_sym sym -> lua_gettop st - 1 = nargs sym ->
  symcall_check E ci sym st
  = check_arguments E ci sym st 0 (Z.to_nat (nargs sym)) [].
Proof.
  intros (Hn & _ & _ & t & Ht) Hc. unfold symcall_check.
  pose proof (datatype_of_enum_inv _ _ Ht) as Hr.
  assert (Hb : ((ret_type sym <? 0) || (T_LAST <=? ret_type sym)) = false).
  { rewrite Hr. destruct t; reflexivity. }
  rewrite Hb, Ht. cbn [bind]. rewrite Hc.
  rewrite cast_in_range.
  - rewrite Z.eqb_refl. cbn [negb].
    destruct (RETVAL t) eqn:HR; cbn [andb]; [reflexivity|].
    apply RETVAL_void in HR. subst t. rewrite Hr. reflexivity.
  - simpl. destruct (size_t_size (platform E)); simpl; lia.
  - unfold in_range, c_size_t, FFI_MAX_ARGS in *. simpl.
    destruct (size_t_size (platform E)); simpl; lia.
Qed.

Lemma symcall_check_count E ci sym st :
  wf_sym sym -> lua_gettop st <= LUAI_MAXSTACK ->
  lua_gettop st - 1 <> nargs sym ->
  symcall_check E ci sym st
  = error_with_name (name sym)
      (fun nm => Err_invalid_nargs nm (nargs sym) (lua_gettop st - 1)).
Proof.
  intros (Hn & _ & _ & t & Ht) Hmax Hc. unfold symcall_check.
  pose proof (datatype_of_enum_inv _ _ Ht) as Hr.
  assert (Hb : ((ret_type sym <? 0) || (T_LAST <=? ret_type sym)) = false).
  { rewrite Hr. destruct t; reflexivity. }
  rewrite Hb. cbn [bind].
  assert (Htop : 0 <= lua_gettop st) by (unfold lua_gettop; lia).
  assert (Hne : (nargs sym =? cast (c_size_t (platform E)) (lua_gettop st - 1))
                = false).
  { apply Z.eqb_neq. unfold FFI_MAX_ARGS, LUAI_MAXSTACK in *.
    destruct (Z.eq_dec (lua_gettop st) 0) as [H0|H0].
    - rewrite H0. unfold c_size_t.
      destruct (size_t_size (platform E));
        [change (cast _ (0 - 1)) with 4294967295
        |change (cast _ (0 - 1)) with 18446744073709551615]; lia.
    - rewrite cast_in_range; [lia | |].
      + simpl. destruct (size_t_size (platform E)); simpl; lia.
      + unfold in_range, c_size_t. simpl.
        destruct (size_t_size (platform E)); simpl; lia. }
  rewrite Hne. cbn [negb].
  rewrite (cast_in_range c_int); [reflexivity | simpl; lia |].
  unfold in_range, FFI_MAX_ARGS in *. simpl. lia.
Qed.

(** C8: a declared symbol called with a number of arguments other than
    the number of its declared argument tags raises "invalid number of
    arguments", with the declared and the supplied count; the state and its
    trace are unchanged, so [ffi_call] did not run. *)
Theorem C8_argument_count_mismatch E ci L sym nm self args :
  wf_sym sym -> name sym = Some nm ->
  lua_gettop (self :: args) <= LUAI_MAXSTACK ->
  Z.of_nat (length args) <> nargs sym ->
  symcall_lua E ci L (Some sym) (self :: args)
  = (Raise (Err_invalid_nargs nm (nargs sym) (Z.of_nat (length args))), L)
  /\ trace (snd (symcall_lua E ci L (Some sym) (self :: args))) = trace L.
Proof.
  intros Hwf Hnm Hmax Hc. unfold symcall_lua.
  rewrite (symcall_check_count E ci sym (self :: args) Hwf Hmax).
  - rewrite Hnm. cbn [error_with_name].
    rewrite lua_gettop_cons. unfold lua_gettop.
    replace (1 + Z.of_nat (length args) - 1) with (Z.of_nat (length args)) by lia.
    split; reflexivity.
  - rewrite lua_gettop_cons. unfold lua_gettop. lia.
Qed.

Lemma demo_add_sym_wf : wf_sym demo_add_sym.
Proof.
  repeat split; try (unfold FFI_MAX_ARGS; simpl; lia).
  - repeat constructor; exists T_INT; split; (reflexivity || discriminate).
  - exists T_INT. reflexivity.
Qed.

Lemma C8_argument_count_mismatch_witness :
  symcall_lua demo_env NW_method demo_add (Some demo_add_sym)
    [demo_lib; LInteger 2]
  = (Raise (Err_invalid_nargs "add" 2 1), demo_add)
  /\ trace (snd (symcall_lua demo_env NW_method demo_add (Some demo_add_sym)
                   [demo_lib; LInteger 2]))
     = trace demo_add.
Proof.
  apply (C8_argument_count_mismatch demo_env NW_method demo_add demo_add_sym
           "add" demo_lib [LInteger 2]).
  - exact demo_add_sym_wf.
  - reflexivity.
  - vm_compute. discriminate.
  - simpl. discriminate.
Defined.

(** C9: when the checks of [symcall_lua] pass for a symbol declared to
    return [char * ], the native function is called once and the pointer it
    returns decides the result: a null pointer yields [nil], which is not
    the empty string, and any other pointer yields the text copied from
    that address up to its terminator. *)
Theorem C9_c_string_return E ci L sym st avalue :
  ret_type sym = enum_value T_CHAR_PTR ->
  symcall_check E ci sym st = Ok avalue ->
  let p := load_member (member_type (platform E) m_p)
             (sys_ffi_call E (cif sym) (addr sym) avalue) in
  (p = 0 -> fst (symcall_lua E ci L (Some sym) st) = Ok [LNil])
  /\ (p <> 0 ->
      fst (symcall_lua E ci L (Some sym) st)
      = Ok [LString (c_str (c_string_at E p))])
  /\ LNil <> LString ""
  /\ trace (snd (symcall_lua E ci L (Some sym) st))
     = (trace L ++ [Ev_ffi_call (cif sym) (addr sym) avalue])%list.
Proof.
  intros Hret Hcheck p. unfold symcall_lua. rewrite Hcheck, Hret.
  change (datatype_of_enum (enum_value T_CHAR_PTR)) with (Some T_CHAR_PTR).
  cbn [push_retval fst snd]. fold p.
  repeat split.
  - intros ->. reflexivity.
  - intros Hp. apply Z.eqb_neq in Hp. rewrite Hp. reflexivity.
  - discriminate.
Qed.

Lemma C9_c_string_return_witness :
  let p := load_member (member_type (platform demo_env) m_p)
             (sys_ffi_call demo_env (cif demo_getenv_sym)
                (addr demo_getenv_sym) [CV_bits 4096]) in
  (p = 0 ->
   fst (symcall_lua demo_env NW_method demo_open (Some demo_getenv_sym)
          [demo_lib; LString "HOME"]) = Ok [LNil])
  /\ (p <> 0 ->
      fst (symcall_lua demo_env NW_method demo_open (Some demo_getenv_sym)
             [demo_lib; LString "HOME"])
      = Ok [LString (c_str (c_string_at demo_env p))])
  /\ LNil <> LString ""
  /\ trace (snd (symcall_lua demo_env NW_method demo_open
                   (Some demo_getenv_sym) [demo_lib; LString "HOME"]))
     = (trace demo_open
        ++ [Ev_ffi_call (cif demo_getenv_sym) (addr demo_getenv_sym)
              [CV_bits 4096]])%list.
Proof.
  apply (C9_c_string_return demo_env NW_method demo_open demo_getenv_sym
           [demo_lib; LString "HOME"] [CV_bits 4096]).
  - reflexivity.
  - vm_compute. reflexivity.
Defined.

(** In the concrete world the call above returns the address 4096, where
    the text "hello" lies, and a call with [nil] returns the null pointer. *)
Example getenv_returns_text :
  fst (symcall_lua demo_env NW_method demo_open (Some demo_getenv_sym)
         [demo_lib; LString "HOME"]) = Ok [LString "hello"]
  /\ fst (symcall_lua demo_env NW_method demo_open (Some demo_getenv_sym)
            [demo_lib; LNil]) = Ok [LNil].
Proof. split; vm_compute; reflexivity. Qed.

(** ** Marshalling *)

Lemma integer_round_trip T n :
  0 < bits T -> in_range T n -> in_range lua_Integer n ->
  cast lua_Integer (load_member T (store_member T (cast T n))) = n.
Proof.
  intros Hb Hr Hl. rewrite load_store_member.
  rewrite !(cast_in_range T n Hb Hr). apply cast_in_range; [simpl; lia | exact Hl].
Qed.

Lemma member_bits_pos a m :
  m <> m_f -> m <> m_d -> 0 < bits (member_type a m).
Proof.
  destruct m; intros Hf Hd; try congruence; simpl;
    try destruct (long_size a); try destruct (size_t_size a); simpl; lia.
Qed.

(** [CHECK_CASE] with [luaL_checkinteger] followed by [PUSH_CASE] with
    [lua_pushinteger], on the same member. *)
Lemma integer_case_round_trip E ci st index m n :
  m <> m_f -> m <> m_d ->
  value_at st index = Some (LInteger n) ->
  in_range (member_type (platform E) m) n -> in_range lua_Integer n ->
  exists slot,
    CHECK_CASE_integer E ci st index m = Ok slot
    /\ PUSH_CASE_integer E slot m = [LInteger n].
Proof.
  intros Hf Hd Hv Hr Hl. unfold CHECK_CASE_integer, luaL_checkinteger.
  rewrite Hv. cbn [lua_tointegerx bind]. eexists. split; [reflexivity|].
  unfold PUSH_CASE_integer. rewrite integer_round_trip; auto.
  apply member_bits_pos; assumption.
Qed.

(** C5: for every type tag and every caller value that the native type of
    the tag holds exactly (an integer within the range of the member, a
    number with a binary32 value for [float], any number for [double]),
    the argument switch stores the value in the member of the tag, and the
    return switch, reading that member, pushes back the same value. *)
Theorem C5_marshal_round_trip E ci st i t v :
  value_at st (2 + i) = Some v -> representable (platform E) t v ->
  exists slot,
    check_argument_case E ci st i t = Ok slot
    /\ push_retval E (Some t) slot = Some [v].
Proof.
  intros Hv Hrep.
  destruct v; try (destruct t; contradiction).
  - (* an integer *)
    unfold representable in Hrep.
    destruct (RETVAL t) as [m|] eqn:HR; [|destruct t; contradiction].
    assert (Hrep' : is_integer_tag t = true
                    /\ in_range (member_type (platform E) m) n
                    /\ in_range lua_Integer n)
      by (destruct t; (exact Hrep || discriminate HR)).
    clear Hrep. destruct Hrep' as (Hint & Hr & Hl).
    destruct t; try discriminate Hint; simpl in HR; injection HR as <-;
      cbn [check_argument_case push_retval];
      match type of Hr with
      | in_range (member_type _ ?m) _ =>
          destruct (integer_case_round_trip E ci st (2 + i) m n
                      ltac:(discriminate) ltac:(discriminate) Hv Hr Hl)
            as (slot & Hc & Hp)
      end;
      exists slot; (split; [exact Hc | rewrite Hp; reflexivity]).
  - (* a float *)
    destruct t; try contradiction.
    + cbn [check_argument_case]. unfold CHECK_CASE_float, luaL_checknumber.
      rewrite Hv. cbn [lua_tonumberx bind]. eexists. split; [reflexivity|].
      cbn [push_retval load_float]. simpl in Hrep.
      rewrite (float_round_trip d Hrep). reflexivity.
    + cbn [check_argument_case]. unfold CHECK_CASE_double, luaL_checknumber.
      rewrite Hv. cbn [lua_tonumberx bind]. eexists. split; reflexivity.
Qed.

Lemma C5_marshal_round_trip_witness :
  exists slot,
    check_argument_case demo_env NW_method
      [demo_lib; LNumber (S754_finite false 6755399441055744 (-52))] 0 T_FLOAT
    = Ok slot
    /\ push_retval demo_env (Some T_FLOAT) slot
       = Some [LNumber (S754_finite false 6755399441055744 (-52))].
Proof.
  apply (C5_marshal_round_trip demo_env NW_method
           [demo_lib; LNumber (S754_finite false 6755399441055744 (-52))]
           0 T_FLOAT).
  - reflexivity.
  - simpl. split; [reflexivity|].
    exists 12582912%positive, (-23). split; reflexivity.
Defined.

(** The extremes of some members, and a value out of range that wraps. *)
Example round_trip_extremes :
  (check_argument_case demo_env NW_method [demo_lib; LInteger 255] 0 T_UINT8
   = Ok (CV_bits 255)
   /\ push_retval demo_env (Some T_UINT8) (CV_bits 255) = Some [LInteger 255])
  /\ (check_argument_case demo_env NW_method [demo_lib; LInteger (-128)] 0 T_INT8
      = Ok (CV_bits 128)
      /\ push_retval demo_env (Some T_INT8) (CV_bits 128)
         = Some [LInteger (-128)])
  /\ (check_argument_case demo_env NW_method [demo_lib; LInteger 256] 0 T_UINT8
      = Ok (CV_bits 0)
      /\ push_retval demo_env (Some T_UINT8) (CV_bits 0) = Some [LInteger 0]).
Proof. repeat split; vm_compute; reflexivity. Qed.

(** ** Argument checks *)

Lemma value_at_argument self (args : stack) j :
  value_at (self :: args) (2 + Z.of_nat j) = nth_error args j.
Proof.
  unfold value_at.
  destruct (1 <=? 2 + Z.of_nat j) eqn:H; [|apply Z.leb_gt in H; lia].
  replace (Z.to_nat (2 + Z.of_nat j - 1)) with (S j) by lia. reflexivity.
Qed.

Lemma array_read_nth {A} (l : list A) j x :
  (j < 32)%nat -> nth_error l j = Some x -> array_read l (Z.of_nat j) = Ok x.
Proof.
  intros Hj Hx. unfold array_read, FFI_MAX_ARGS.
  destruct ((Z.of_nat j <? 0) || (32 <=? Z.of_nat j)) eqn:Hb.
  - apply orb_prop in Hb as [Hb|Hb];
      [apply Z.ltb_lt in Hb | apply Z.leb_le in Hb]; lia.
  - rewrite Nat2Z.id, Hx. reflexivity.
Qed.

Lemma coercible_integer E t v :
  is_integer_tag t = true ->
  coercible E t v
  = match lua_tointegerx E v with Some _ => true | None => false end.
Proof. destruct t; intros H; try discriminate H; reflexivity. Qed.

Lemma check_argument_case_integer E ci st i t :
  is_integer_tag t = true ->
  exists m, check_argument_case E ci st i t
            = CHECK_CASE_integer E ci st (2 + i) m.
Proof.
  destruct t; intros H; try discriminate H; eexists; reflexivity.
Qed.

(** A value that converts is stored. *)
Lemma check_argument_case_coercible E ci st i t v :
  value_at st (2 + i) = Some v -> coercible E t v = true ->
  exists a, check_argument_case E ci st i t = Ok a.
Proof.
  intros Hv Hc. destruct (is_integer_tag t) eqn:Hint.
  - destruct (check_argument_case_integer E ci st i t Hint) as [m ->].
    rewrite coercible_integer in Hc by assumption.
    unfold CHECK_CASE_integer, luaL_checkinteger. rewrite Hv.
    destruct (lua_tointegerx E v); [|discriminate]. eexists. reflexivity.
  - destruct t; try discriminate Hint; try discriminate Hc;
      cbn [check_argument_case].
    + unfold lua_type. rewrite Hv.
      destruct v; try discriminate Hc; eexists; reflexivity.
    + unfold lua_type. rewrite Hv.
      destruct v; try discriminate Hc; eexists; reflexivity.
    + unfold CHECK_CASE_float, luaL_checknumber. rewrite Hv.
      simpl in Hc. destruct (lua_tonumberx E v); [|discriminate].
      eexists. reflexivity.
    + unfold CHECK_CASE_double, luaL_checknumber. rewrite Hv.
      simpl in Hc. destruct (lua_tonumberx E v); [|discriminate].
      eexists. reflexivity.
Qed.

Lemma blames_argerror ci (i : nat) msg :
  msg = TypeExpected LUA_TNUMBER \/ msg = NoIntegerRepresentation ->
  blames (luaL_argerror ci (2 + Z.of_nat i) msg)
  = Some (match ci with
          | NW_method => Z.of_nat i + 1
          | NW_other => Z.of_nat i + 2
          end, Cat_number).
Proof.
  intros Hm. unfold luaL_argerror. destruct ci.
  - destruct (2 + Z.of_nat i - 1 =? 0) eqn:H0; [apply Z.eqb_eq in H0; lia|].
    replace (2 + Z.of_nat i - 1) with (Z.of_nat i + 1) by lia.
    destruct Hm as [-> | ->]; reflexivity.
  - replace (2 + Z.of_nat i) with (Z.of_nat i + 2) by lia.
    destruct Hm as [-> | ->]; reflexivity.
Qed.

(** A value that does not convert raises the error of its tag. *)
Lemma check_argument_case_refused E ci st (i : nat) t v :
  t <> T_VOID ->
  value_at st (2 + Z.of_nat i) = Some v -> coercible E t v = false ->
  exists e, check_argument_case E ci st (Z.of_nat i) t = Raise e
            /\ blames e = Some (reported_position ci t i, expected_category t).
Proof.
  intros Hvoid Hv Hc. destruct (is_integer_tag t) eqn:Hint.
  - destruct (check_argument_case_integer E ci st (Z.of_nat i) t Hint) as [m ->].
    rewrite coercible_integer in Hc by assumption.
    unfold CHECK_CASE_integer, luaL_checkinteger. rewrite Hv.
    destruct (lua_tointegerx E v); [discriminate|].
    assert (Hcat : expected_category t = Cat_number)
      by (destruct t; (reflexivity || discriminate Hint)).
    unfold reported_position. rewrite Hcat.
    destruct (lua_tonumberx E v); eexists; (split; [reflexivity|]);
      rewrite blames_argerror by auto; destruct ci; reflexivity.
  - destruct t; try discriminate Hint; try congruence;
      cbn [check_argument_case].
    + unfold lua_type. rewrite Hv.
      destruct v; try discriminate Hc; eexists;
        (split; [reflexivity | destruct ci; reflexivity]).
    + unfold lua_type. rewrite Hv.
      destruct v; try discriminate Hc; eexists;
        (split; [reflexivity | destruct ci; reflexivity]).
    + unfold CHECK_CASE_float, luaL_checknumber. rewrite Hv.
      simpl in Hc. destruct (lua_tonumberx E v); [discriminate|].
      eexists. split; [reflexivity|].
      rewrite blames_argerror by auto. destruct ci; reflexivity.
    + unfold CHECK_CASE_double, luaL_checknumber. rewrite Hv.
      simpl in Hc. destruct (lua_tonumberx E v); [discriminate|].
      eexists. split; [reflexivity|].
      rewrite blames_argerror by auto. destruct ci; reflexivity.
Qed.

Lemma valid_tag_at sym j z :
  wf_sym sym -> nth_error (arg_types sym) j = Some z ->
  exists t, z = enum_value t /\ t <> T_VOID.
Proof.
  intros (_ & _ & Hall & _) Hz.
  rewrite Forall_forall in Hall.
  destruct (Hall z) as (t & Ht & Hne).
  { apply list_elem_of_In. eapply nth_error_In. exact Hz. }
  exists t. split; [apply datatype_of_enum_inv, Ht | exact Hne].
Qed.

(** The argument loop stops at the first value that does not convert. *)
Lemma check_arguments_first_refused E ci sym self args i t v :
  wf_sym sym -> Z.of_nat (length args) = nargs sym ->
  nth_error (arg_types sym) i = Some (enum_value t) ->
  nth_error args i = Some v ->
  coercible E t v = false ->
  (forall j tj vj, (j < i)%nat ->
     nth_error (arg_types sym) j = Some (enum_value tj) ->
     nth_error args j = Some vj -> coercible E tj vj = true) ->
  forall todo k acc, (k <= i)%nat -> (i < k + todo)%nat ->
    exists e,
      check_arguments E ci sym (self :: args) (Z.of_nat k) todo acc = Raise e
      /\ blames e = Some (reported_position ci t i, expected_category t).
Proof.
  intros Hwf Hlen Ht Hv Hc Hbefore.
  assert (Hi : (i < 32)%nat).
  { assert (i < length args)%nat by (apply nth_error_Some; congruence).
    destruct Hwf as (Hn & _). unfold FFI_MAX_ARGS in Hn. lia. }
  induction todo as [|todo IH]; intros k acc Hk Htodo; [lia|].
  cbn [check_arguments]. unfold check_argument.
  destruct (Nat.eq_dec k i) as [->|Hne].
  - rewrite (array_read_nth _ i _ Hi Ht). cbn [bind].
    rewrite enum_of_datatype.
    destruct (valid_tag_at sym i _ Hwf Ht) as (t' & Ht' & Hvoid).
    assert (t' = t).
    { apply (f_equal datatype_of_enum) in Ht'.
      rewrite !enum_of_datatype in Ht'. congruence. }
    subst t'.
    destruct (check_argument_case_refused E ci (self :: args) i t v Hvoid)
      as (e & He & Hb); [rewrite value_at_argument; exact Hv | exact Hc |].
    exists e. rewrite He. split; [reflexivity | exact Hb].
  - assert (Hki : (k < i)%nat) by lia.
    assert (Hka : (k < length args)%nat).
    { assert (i < length args)%nat by (apply nth_error_Some; congruence). lia. }
    destruct (nth_error args k) as [vk|] eqn:Hvk;
      [|apply nth_error_None in Hvk; lia].
    destruct (nth_error (arg_types sym) k) as [zk|] eqn:Hzk.
    2:{ apply nth_error_None in Hzk. destruct Hwf as (_ & Hl & _). lia. }
    destruct (valid_tag_at sym k zk Hwf Hzk) as (tk & -> & Hvoid).
    rewrite (array_read_nth _ k _ ltac:(lia) Hzk). cbn [bind].
    rewrite enum_of_datatype.
    destruct (check_argument_case_coercible E ci (self :: args)
                (Z.of_nat k) tk vk) as [a Ha].
    { rewrite value_at_argument. exact Hvk. }
    { exact (Hbefore k tk vk Hki Hzk Hvk). }
    rewrite Ha. cbn [bind].
    replace (Z.of_nat k + 1) with (Z.of_nat (S k)) by lia.
    apply IH; lia.
Qed.

(** C4, as amended: a declared symbol is called with the declared number
    of arguments, and the value at the 0-based place [i] (the 1-indexed
    position [i + 1]) is the first that does not convert to its tag.  Then
    the call raises an error that names the kind of value the tag asks
    for, and a position: [i + 1] for the pointer tags, whose message the
    module writes itself, and for the numeric tags the position that
    [luaL_argerror] derives from the stack index [i + 2], which is [i + 1]
    when the symbol was called as a method and [i + 2] otherwise.  The
    state is unchanged: the native function is not called. *)
Theorem C4_argument_type_error E ci L sym self args i t v :
  wf_sym sym -> Z.of_nat (length args) = nargs sym ->
  nth_error (arg_types sym) i = Some (enum_value t) ->
  nth_error args i = Some v ->
  coercible E t v = false ->
  (forall j tj vj, (j < i)%nat ->
     nth_error (arg_types sym) j = Some (enum_value tj) ->
     nth_error args j = Some vj -> coercible E tj vj = true) ->
  exists e,
    symcall_lua E ci L (Some sym) (self :: args) = (Raise e, L)
    /\ blames e = Some (reported_position ci t i, expected_category t).
Proof.
  intros Hwf Hlen Ht Hv Hc Hbefore. unfold symcall_lua.
  rewrite symcall_check_loop; [|exact Hwf|].
  2:{ rewrite lua_gettop_cons. unfold lua_gettop. lia. }
  destruct (check_arguments_first_refused E ci sym self args i t v
              Hwf Hlen Ht Hv Hc Hbefore (Z.to_nat (nargs sym)) 0%nat [])
    as (e & He & Hb); [lia | |].
  { assert (i < length args)%nat by (apply nth_error_Some; congruence). lia. }
  change (Z.of_nat 0) with 0 in He. rewrite He.
  exists e. split; [reflexivity | exact Hb].
Qed.

Lemma C4_argument_type_error_witness :
  exists e,
    symcall_lua demo_env NW_method demo_add (Some demo_add_sym)
      [demo_lib; LInteger 2; LString "x"] = (Raise e, demo_add)
    /\ blames e = Some (reported_position NW_method T_INT 1,
                        expected_category T_INT).
Proof.
  apply (C4_argument_type_error demo_env NW_method demo_add demo_add_sym
           demo_lib [LInteger 2; LString "x"] 1 T_INT (LString "x")).
  - exact demo_add_sym_wf.
  - reflexivity.
  - reflexivity.
  - reflexivity.
  - reflexivity.
  - intros j tj vj Hj Htj Hvj.
    destruct j as [|j]; [|lia]. simpl in Htj, Hvj.
    injection Hvj as <-. destruct tj; try discriminate Htj. reflexivity.
Defined.

(** C4 as stated fails: [lib.add(lib, "x", 3)] hands a text to the first
    [int] argument of [add]; the error names position 2, the stack index of
    the value, not the position 1 of the argument. *)
Lemma C4_position_counts_self :
  coercible demo_env T_INT (LString "x") = false
  /\ fst (lua_invoke demo_env demo_add NW_other demo_lib "add"
            [LString "x"; LInteger 3])
     = Raise (Err_bad_argument 2 (TypeExpected LUA_TNUMBER))
  /\ blames (Err_bad_argument 2 (TypeExpected LUA_TNUMBER))
     = Some (2, Cat_number)
  /\ 2 <> 1.
Proof.
  split; [reflexivity|]. split; [vm_compute; reflexivity|].
  split; [reflexivity | discriminate].
Qed.

(** ** The invariant of stored entries *)

Lemma bind_ok_inv {A B} (r : result A) (k : A -> result B) b :
  bind r k = Ok b -> exists a, r = Ok a /\ k a = Ok b.
Proof. destruct r; simpl; intros H; try discriminate. eauto. Qed.

Lemma wf_state_emit L ev : wf_state L -> wf_state (emit L ev).
Proof. intros H p d Hp. exact (H p d Hp). Qed.

Lemma wf_state_set_udata L p d :
  wf_state L -> wf_dso d -> wf_state (set_udata L p d).
Proof.
  intros HL Hd q d' Hq. unfold set_udata in Hq. simpl in Hq.
  destruct (decide (p = q)) as [->|Hne].
  - rewrite lookup_insert_eq in Hq. injection Hq as <-. exact Hd.
  - rewrite lookup_insert_ne in Hq by exact Hne. exact (HL q d' Hq).
Qed.

Lemma luaL_checkudata_lookup ci L st arg p d :
  luaL_checkudata ci L st arg = Ok (p, d) -> udata L !! p = Some d.
Proof.
  unfold luaL_checkudata. destruct (value_at st arg) as [v|]; [|discriminate].
  destruct v; try discriminate.
  destruct (udata L !! p0) eqn:Hl; [|discriminate].
  intros [= <- <-]. exact Hl.
Qed.

Lemma wf_sym_release s : wf_sym s -> wf_sym (release s).
Proof. intros H. exact H. Qed.

Lemma wf_dso_closed l :
  Forall wf_sym l ->
  wf_dso {| handle := 0; path := None; symbols := release_chain l |}.
Proof.
  intros Hl. split; [|simpl; congruence]. simpl.
  destruct Hl as [|s l Hs _]; simpl; constructor;
    [apply wf_sym_release, Hs | constructor].
Qed.

Lemma dso_close_wf E L p d :
  wf_state L -> wf_dso d -> wf_state (snd (dso_close E L p d)).
Proof.
  intros HL [Hd _]. unfold dso_close.
  destruct (negb (handle d =? 0)); simpl; [|exact HL].
  apply wf_state_emit, wf_state_set_udata; [exact HL|].
  apply wf_dso_closed, Hd.
Qed.

(** The declaration loop records valid tags other than [void], one for
    each turn. *)
Lemma declare_arguments_ok E ci st :
  forall todo i types ffis types' ffis',
    declare_arguments E ci st i todo types ffis = Ok (Args_ok types' ffis') ->
    Forall valid_argument_tag types ->
    Forall valid_argument_tag types'
    /\ length types' = (length types + todo)%nat.
Proof.
  induction todo as [|todo IH]; intros i types ffis types' ffis' H Hall.
  - simpl in H. injection H as <- <-. split; [exact Hall | lia].
  - cbn [declare_arguments] in H.
    apply bind_ok_inv in H as ([t f] & _ & H). cbn [fst snd] in H.
    destruct ((i <? 0) || (FFI_MAX_ARGS <=? i)); [discriminate|].
    destruct (enum_value t =? enum_value T_VOID) eqn:Hv; [discriminate|].
    apply IH in H.
    + destruct H as [H1 H2]. split; [exact H1|].
      rewrite H2, length_app. simpl. lia.
    + apply Forall_app. split; [exact Hall|]. constructor; [|constructor].
      exists t. split; [apply enum_of_datatype|].
      intros ->. rewrite Z.eqb_refl in Hv. discriminate.
Qed.

Lemma dlsym_lua_wf E ci L st :
  wf_state L -> wf_state (snd (dlsym_lua E ci L st)).
Proof.
  intros HL. unfold dlsym_lua.
  destruct (luaL_checkudata ci L st 1) as [[p dso]|e|f] eqn:Hud;
    try exact HL.
  apply luaL_checkudata_lookup in Hud. pose proof (HL p dso Hud) as [Hwf Hlive].
  destruct ((lua_gettop st - 1 <? 2) || (lua_gettop st - 1 >? FFI_MAX_ARGS + 2))
    eqn:Hguard; [exact HL|].
  apply orb_false_elim in Hguard as [Hlo Hhi].
  apply Z.ltb_ge in Hlo. rewrite Z.gtb_ltb in Hhi. apply Z.ltb_ge in Hhi.
  match goal with
  | |- context [match ?c with Ok _ => _ | Raise _ => _ | Crash _ => _ end] =>
      destruct c as [[[rt nm] da]|e|f] eqn:Hchk; try exact HL
  end.
  destruct da as [types ffis|]; [|exact HL].
  apply bind_ok_inv in Hchk as (rt' & _ & Hchk).
  apply bind_ok_inv in Hchk as (nm' & _ & Hchk).
  apply bind_ok_inv in Hchk as (da' & Hloop & Hchk).
  injection Hchk as -> -> ->.
  apply declare_arguments_ok in Hloop as [Htags Hcount]; [|constructor].
  destruct (negb (strdup_ok E (c_str nm))); [exact HL|].
  destruct (sys_dlsym E (handle dso) (c_str nm) =? 0);
    [apply wf_state_emit, HL|].
  destruct (sys_ffi_prep_cif E (lua_gettop st - 1 - 2) (snd rt) ffis);
    try (apply wf_state_emit, wf_state_emit, HL).
  unfold luaL_ref. cbn beta iota.
  cbn [snd]. apply wf_state_set_udata.
  { intros q d' Hq. exact (HL q d' Hq). }
  split; cbn [symbols handle].
  - apply Forall_app. split; [exact Hwf|]. constructor; [|constructor].
    unfold wf_sym. cbn [nargs arg_types ret_type].
    unfold FFI_MAX_ARGS in *. simpl length in Hcount.
    repeat split; try lia; [exact Htags|].
    exists (fst rt). apply enum_of_datatype.
  - intros Hopen. apply Forall_app. split; [exact (Hlive Hopen)|].
    constructor; [|constructor]. split; [discriminate|].
    exists nm. split; reflexivity.
Qed.

Lemma dlclose_lua_wf E ci L st :
  wf_state L -> wf_state (snd (dlclose_lua E ci L st)).
Proof.
  intros HL. unfold dlclose_lua.
  destruct (luaL_checkudata ci L st 1) as [[p dso]|e|f] eqn:Hud;
    try exact HL.
  apply luaL_checkudata_lookup in Hud.
  pose proof (dso_close_wf E L p dso HL (HL p dso Hud)) as H.
  destruct (dso_close E L p dso) as [rc L1]. simpl in H.
  destruct (rc =? 0); exact H.
Qed.

Lemma gc_lua_wf E ci L st :
  wf_state L -> wf_state (snd (gc_lua E ci L st)).
Proof.
  intros HL. unfold gc_lua.
  destruct (luaL_checkudata ci L st 1) as [[p dso]|e|f] eqn:Hud;
    try exact HL.
  apply luaL_checkudata_lookup in Hud.
  pose proof (dso_close_wf E L p dso HL (HL p dso Hud)) as H.
  destruct (dso_close E L p dso) as [rc L1]. exact H.
Qed.

Lemma index_lua_state E ci L st : snd (index_lua E ci L st) = L.
Proof.
  unfold index_lua.
  match goal with
  | |- context [match ?c with Ok _ => _ | Raise _ => _ | Crash _ => _ end] =>
      destruct c as [[[p dso] method]|e|f]; try reflexivity
  end.
  destruct (handle dso =? 0); [reflexivity|].
  destruct (strncmp method "dlsym" (String.length method) =? 0);
    [reflexivity|].
  destruct (strncmp method "dlclose" (String.length method) =? 0);
    [reflexivity|].
  destruct (traverse_symbols method (symbols dso)) as [[s|]|e|f]; reflexivity.
Qed.

Lemma symcall_lua_udata E ci L up st :
  udata (snd (symcall_lua E ci L up st)) = udata L.
Proof.
  unfold symcall_lua. destruct up as [sym|]; [|reflexivity].
  destruct (symcall_check E ci sym st); try reflexivity.
  destruct (push_retval E _ _); reflexivity.
Qed.

Lemma new_lua_wf E ci L st :
  wf_state L -> wf_state (snd (new_lua E ci L st)).
Proof.
  intros HL. unfold new_lua.
  destruct (luaL_checklstring E ci st 1) as [file|e|f]; try exact HL.
  destruct (negb (strdup_ok E (c_str file))); [exact HL|].
  destruct (sys_dlopen E (c_str file) =? 0); [apply wf_state_emit, HL|].
  cbn [snd]. apply wf_state_set_udata; [apply wf_state_emit, HL|].
  split; simpl; constructor.
Qed.

(** Every operation of the module keeps the invariant. *)
Lemma run_wf E op ci L st : wf_state L -> wf_state (snd (run E op ci L st)).
Proof.
  intros HL. destruct op; simpl.
  - apply new_lua_wf, HL.
  - apply dlsym_lua_wf, HL.
  - apply dlclose_lua_wf, HL.
  - apply gc_lua_wf, HL.
  - rewrite index_lua_state. exact HL.
  - intros p d Hp. rewrite symcall_lua_udata in Hp. exact (HL p d Hp).
Qed.

Lemma reachable_wf E L : reachable E L -> wf_state L.
Proof.
  induction 1 as [|L op ci st _ IH].
  - intros p d Hp. unfold initial_state in Hp. simpl in Hp.
    rewrite lookup_empty in Hp. discriminate.
  - apply run_wf, IH.
Qed.

(** The argument switch on a valid tag other than [void]. *)
Lemma check_argument_case_guarded E ci st i t :
  t <> T_VOID -> guarded (check_argument_case E ci st i t).
Proof.
  intros Hvoid. destruct (is_integer_tag t) eqn:Hint.
  - destruct (check_argument_case_integer E ci st i t Hint) as [m ->].
    unfold CHECK_CASE_integer, luaL_checkinteger, luaL_argerror.
    destruct (value_at st (2 + i)) as [v|]; [|destruct ci; simpl;
      try destruct (2 + i - 1 =? 0); exact I].
    destruct (lua_tointegerx E v); [exact I|].
    destruct (lua_tonumberx E v); destruct ci; simpl;
      try destruct (2 + i - 1 =? 0); exact I.
  - destruct t; try discriminate Hint; try congruence;
      cbn [check_argument_case].
    + destruct (lua_type st (2 + i)); try exact I;
        destruct (value_at st (2 + i)); exact I.
    + destruct (lua_type st (2 + i)); try exact I;
        destruct (value_at st (2 + i)) as [[]|]; exact I.
    + unfold CHECK_CASE_float, luaL_checknumber, luaL_argerror.
      destruct (value_at st (2 + i)) as [v|]; [destruct (lua_tonumberx E v)|];
        try exact I; destruct ci; simpl;
        try destruct (2 + i - 1 =? 0); exact I.
    + unfold CHECK_CASE_double, luaL_checknumber, luaL_argerror.
      destruct (value_at st (2 + i)) as [v|]; [destruct (lua_tonumberx E v)|];
        try exact I; destruct ci; simpl;
        try destruct (2 + i - 1 =? 0); exact I.
Qed.

(** The argument loop of a well-formed entry stays within the arrays. *)
Lemma check_arguments_guarded E ci sym st :
  wf_sym sym ->
  forall todo k acc, (k + todo <= Z.to_nat (nargs sym))%nat ->
    guarded (check_arguments E ci sym st (Z.of_nat k) todo acc).
Proof.
  intros Hwf. induction todo as [|todo IH]; intros k acc Hk; [exact I|].
  cbn [check_arguments]. unfold check_argument.
  assert (Hk32 : (k < 32)%nat).
  { destruct Hwf as (Hn & _). unfold FFI_MAX_ARGS in Hn. lia. }
  destruct (nth_error (arg_types sym) k) as [z|] eqn:Hz.
  2:{ apply nth_error_None in Hz. destruct Hwf as (_ & Hl & _). lia. }
  destruct (valid_tag_at sym k z Hwf Hz) as (t & -> & Hvoid).
  rewrite (array_read_nth _ k _ Hk32 Hz). cbn [bind].
  rewrite enum_of_datatype.
  pose proof (check_argument_case_guarded E ci st (Z.of_nat k) t Hvoid) as Hg.
  destruct (check_argument_case E ci st (Z.of_nat k) t) as [a|e|f];
    cbn [bind]; [|exact Hg|exact Hg].
  replace (Z.of_nat k + 1) with (Z.of_nat (S k)) by lia.
  apply IH. lia.
Qed.

Lemma symcall_lua_guarded E ci L sym st :
  wf_sym sym -> lua_gettop st <= LUAI_MAXSTACK ->
  guarded (fst (symcall_lua E ci L (Some sym) st)).
Proof.
  intros Hwf Hmax. unfold symcall_lua.
  destruct (Z.eq_dec (lua_gettop st - 1) (nargs sym)) as [Heq|Hne].
  - rewrite (symcall_check_loop E ci sym st Hwf Heq).
    pose proof (check_arguments_guarded E ci sym st Hwf
                  (Z.to_nat (nargs sym)) 0%nat [] ltac:(lia)) as Hg.
    change (Z.of_nat 0) with 0 in Hg.
    destruct (check_arguments E ci sym st 0 (Z.to_nat (nargs sym)) [])
      as [avalue|e|f]; [|exact Hg|exact Hg].
    destruct Hwf as (_ & _ & _ & t & Ht). rewrite Ht.
    destruct t; exact I.
  - rewrite (symcall_check_count E ci sym st Hwf Hmax Hne).
    destruct (name sym); exact I.
Qed.

(** In a reachable state the entries of an open library are live: the
    hypothesis of the lookup theorem holds there. *)
Lemma reachable_open_live E L p d :
  reachable E L -> udata L !! p = Some d -> handle d <> 0 ->
  Forall live (symbols d).
Proof.
  intros HR Hp Hopen. destruct (reachable_wf E L HR p d Hp) as [_ H].
  exact (H Hopen).
Qed.

(** C10: in every state reached from the initial one by the operations of
    the module, every entry stored in a library declares at most 32
    arguments, and each of its first [nargs] argument slots holds a valid
    tag other than [void].  Hence a call of the entry, with any arguments
    Lua can pass, never reads or writes an array out of bounds and never
    takes the [T_VOID] or the [default] branch of its argument switch. *)
Theorem C10_stored_symbols_invariant E L p d s :
  reachable E L -> udata L !! p = Some d -> In s (symbols d) ->
  nargs s <= FFI_MAX_ARGS
  /\ (forall i, 0 <= i < nargs s ->
        exists t, array_read (arg_types s) i = Ok (enum_value t)
                  /\ t <> T_VOID)
  /\ (forall ci L' st, lua_gettop st <= LUAI_MAXSTACK ->
        guarded (fst (symcall_lua E ci L' (Some s) st))).
Proof.
  intros HR Hp Hin.
  destruct (reachable_wf E L HR p d Hp) as [Hall _].
  rewrite Forall_forall in Hall.
  assert (Hwf : wf_sym s) by (apply Hall, list_elem_of_In, Hin).
  split; [apply Hwf|]. split.
  - intros i Hi. destruct Hwf as (Hn & Hl & Htags & Hret).
    destruct (nth_error (arg_types s) (Z.to_nat i)) as [z|] eqn:Hz.
    2:{ apply nth_error_None in Hz. lia. }
    destruct (valid_tag_at s (Z.to_nat i) z
                (conj Hn (conj Hl (conj Htags Hret))) Hz) as (t & -> & Hvoid).
    exists t. split; [|exact Hvoid].
    rewrite <- (Z2Nat.id i) at 1 by lia.
    apply array_read_nth; [unfold FFI_MAX_ARGS in Hn; lia | exact Hz].
  - intros ci L' st Hmax. apply symcall_lua_guarded; assumption.
Qed.

Lemma demo_add_reachable : reachable demo_env demo_add.
Proof.
  assert (H : demo_add
              = snd (run demo_env Op_dlsym NW_method
                       (snd (run demo_env Op_new NW_other initial_state
                               [LString "libdemo.so"]))
                       [demo_lib; LString "int"; LString "add";
                        LString "int"; LString "int"]))
    by (vm_compute; reflexivity).
  rewrite H. apply reach_step, reach_step, reach_initial.
Defined.

Lemma C10_stored_symbols_invariant_witness :
  nargs demo_add_sym <= FFI_MAX_ARGS
  /\ (forall i, 0 <= i < nargs demo_add_sym ->
        exists t, array_read (arg_types demo_add_sym) i = Ok (enum_value t)
                  /\ t <> T_VOID)
  /\ (forall ci L' st, lua_gettop st <= LUAI_MAXSTACK ->
        guarded (fst (symcall_lua demo_env ci L' (Some demo_add_sym) st))).
Proof.
  apply (C10_stored_symbols_invariant demo_env demo_add 0 demo_add_dso
           demo_add_sym).
  - exact demo_add_reachable.
  - exact demo_add_lookup.
  - left. reflexivity.
Defined.

(** ** Remarks on the limits of the properties above *)

(** The guard of closed libraries sits in [index_lua] only.  A function
    value fetched from the handle before the close is not looked up again:
    called afterwards, [dlsym_lua] resolves the name against the null
    handle, and the call closure of [add] still runs [ffi_call]; neither
    call is rejected. *)
Example stale_function_values :
  trace (snd (dlsym_lua demo_env NW_other demo_closed
                [demo_lib; LString "int"; LString "puts"]))
  = (trace demo_closed
     ++ [Ev_dlsym 0 "puts";
         Ev_ffi_prep_cif {| cif_nargs := 0; cif_rtype := ffi_type_sint;
                            cif_arg_types := [] |}])%list
  /\ symcall_lua demo_env NW_other demo_closed (Some demo_add_sym)
       [demo_lib; LInteger 2; LInteger 3]
     = (Ok [LInteger 5],
        emit demo_closed
          (Ev_ffi_call (cif demo_add_sym) 2000 [CV_bits 2; CV_bits 3])).
Proof. split; vm_compute; reflexivity. Qed.

(** The method names are compared over the length of the key, so every
    prefix of [dlsym], the empty key included, yields [dlsym_lua], and the
    other prefixes of [dlclose] yield [dlclose_lua]; an entry declared
    under such a name is not found. *)
Example method_names_match_prefixes :
  fst (index_lua demo_env NW_other demo_add [demo_lib; LString "dl"])
  = Ok [LFunction CF_dlsym]
  /\ fst (index_lua demo_env NW_other demo_add [demo_lib; LString ""])
     = Ok [LFunction CF_dlsym]
  /\ fst (index_lua demo_env NW_other demo_add [demo_lib; LString "dlc"])
     = Ok [LFunction CF_dlclose]
  /\ fst (index_lua demo_env NW_other demo_add [demo_lib; LString "dlsyms"])
     = Raise (Err_unknown_field "dlsyms").
Proof. repeat split; vm_compute; reflexivity. Qed.

(** A name declared twice: the list holds both entries and the lookup
    yields the first. *)
Example second_declaration_is_shadowed :
  let L2 := snd (lua_invoke demo_env demo_add NW_method demo_lib "dlsym"
                   [LString "double"; LString "add"]) in
  (length <$> (symbols <$> udata L2 !! 0)) = Some 2%nat
  /\ fst (index_lua demo_env NW_other L2 [demo_lib; LString "add"])
     = Ok [LFunction (CF_symcall (Some demo_add_sym))].
Proof. split; vm_compute; reflexivity. Qed.

(** Pointers are not scalars: [nil] and a non-null light userdata come back
    as they went in, a null light userdata comes back as [nil], and a full
    userdata comes back as a light userdata of the same address. *)
Example pointer_values :
  let there v := check_argument_case demo_env NW_method [demo_lib; v] 0
                   T_VOID_PTR in
  let back r := match r with
                | Ok slot => push_retval demo_env (Some T_VOID_PTR) slot
                | _ => None
                end in
  back (there LNil) = Some [LNil]
  /\ back (there (LLightUserdata 4096)) = Some [LLightUserdata 4096]
  /\ back (there (LLightUserdata 0)) = Some [LNil]
  /\ back (there (LUserdata 4096)) = Some [LLightUserdata 4096].
Proof. repeat split; vm_compute; reflexivity. Qed.

(** The scenario of the specification: [int add(int, int)] declared and
    called with 2 and 3. *)
Example add_two_and_three :
  fst (lua_invoke demo_env demo_add NW_method demo_lib "add"
         [LInteger 2; LInteger 3]) = Ok [LInteger 5]
  /\ fst (lua_invoke demo_env demo_open NW_method demo_lib "dlsym"
            [LString "int"; LString "missing"])
     = Ok [LBoolean false;
           LString "failed to find symbol 'missing': undefined symbol"].
Proof. split; vm_compute; reflexivity. Qed.

(** ** Keys of any shape *)

Lemma strncmp_key q m :
  nul_free m = true ->
  (strncmp q m (String.length q) =? 0) = key_matches q m.
Proof.
  revert m. induction q as [|c q IH]; intros m Hm.
  - destruct m; reflexivity.
  - unfold key_matches. cbn [String.length strncmp char_at advance nul_free c_str].
    destruct (uchar c =? 0) eqn:Hc; cbn [negb andb].
    + apply Z.eqb_eq in Hc. rewrite Hc.
      destruct m as [|c' m]; cbn [char_at advance]; [reflexivity|].
      simpl in Hm. apply andb_prop in Hm as [Hc' _].
      apply negb_true_iff, Z.eqb_neq in Hc'.
      destruct (0 =? uchar c') eqn:H0; [apply Z.eqb_eq in H0; lia|].
      cbn [negb]. simpl String.eqb. apply Z.eqb_neq. lia.
    + apply Z.eqb_neq in Hc.
      destruct m as [|c' m]; cbn [char_at advance].
      * change (uchar NUL) with 0.
        destruct (uchar c =? 0) eqn:H0; [apply Z.eqb_eq in H0; lia|].
        cbn [negb]. replace (uchar c - 0 =? 0) with false
          by (symmetry; apply Z.eqb_neq; lia).
        destruct (nul_free q); reflexivity.
      * simpl in Hm. apply andb_prop in Hm as [_ Hm].
        destruct (uchar c =? uchar c') eqn:Hcc; cbn [negb].
        -- apply Z.eqb_eq, uchar_inj in Hcc. subst c'.
           destruct (uchar c =? 0) eqn:H0; [apply Z.eqb_eq in H0; lia|].
           rewrite (IH m Hm). unfold key_matches.
           destruct (nul_free q).
           ++ simpl. destruct (ascii_dec c c); [reflexivity|congruence].
           ++ simpl. rewrite Ascii.eqb_refl. reflexivity.
        -- apply Z.eqb_neq in Hcc.
           replace (uchar c - uchar c' =? 0) with false
             by (symmetry; apply Z.eqb_neq; lia).
           assert (Hne : c <> c') by congruence.
           destruct (nul_free q); simpl.
           ++ destruct (ascii_dec c c'); [congruence|reflexivity].
           ++ apply Ascii.eqb_neq in Hne. rewrite Hne. reflexivity.
Qed.

Lemma prefix_is_eqb q s :
  (String.length s <= String.length q)%nat ->
  String.prefix q s = String.eqb s q.
Proof.
  intros Hl. destruct (String.prefix q s) eqn:Hp.
  - apply prefix_short in Hp; [|exact Hl]. subst. symmetry. apply String.eqb_refl.
  - destruct (String.eqb s q) eqn:He; [|reflexivity].
    apply String.eqb_eq in He. subst. rewrite prefix_refl in Hp. discriminate.
Qed.

Lemma entry_test q s nm :
  live s -> name s = Some nm ->
  (Z.of_nat (String.length q) =? len s)
  && (strncmp q nm (String.length q) =? 0) = answers q s.
Proof.
  intros [_ (n & Hlen & Hname)] Hnm. unfold answers.
  rewrite Hnm. rewrite Hname in Hnm. injection Hnm as <-.
  rewrite (Z.eqb_sym (len s)).
  destruct (Z.of_nat (String.length q) =? len s) eqn:Hl; simpl; [|reflexivity].
  apply Z.eqb_eq in Hl.
  rewrite strncmp_key by apply nul_free_c_str. unfold key_matches.
  destruct (nul_free q) eqn:Hq.
  - rewrite (c_str_nul_free q Hq). apply prefix_is_eqb.
    pose proof (c_str_length n). lia.
  - apply String.eqb_sym.
Qed.

Lemma traverse_symbols_answers q syms :
  Forall live syms ->
  traverse_symbols q syms = Ok (List.find (answers q) syms).
Proof.
  induction 1 as [|s syms Hs _ IH]; simpl; [reflexivity|].
  assert (Hs' := Hs). destruct Hs' as [_ (n & _ & Hname)].
  pose proof (entry_test q s (c_str n) Hs Hname) as Ht.
  rewrite Hname.
  destruct (Z.of_nat (String.length q) =? len s); simpl in Ht.
  - rewrite Ht. destruct (answers q s); [reflexivity | exact IH].
  - rewrite <- Ht. exact IH.
Qed.

(** X1: what an open library yields for any text key.  A key that
    [strncmp] over the length of the key equates with [dlsym] yields
    [dlsym_lua], one it equates with [dlclose] yields [dlclose_lua]; any
    other key yields the call closure of the first entry whose recorded
    length is the length of the key and whose name is the key read as a C
    string, or raises "unknown field".  The state is never changed. *)
Theorem index_lua_resolves E ci L p d q :
  udata L !! p = Some d -> handle d <> 0 -> Forall live (symbols d) ->
  index_lua E ci L [LUserdata p; LString q]
  = (if key_matches q "dlsym" then Ok [LFunction CF_dlsym]
     else if key_matches q "dlclose" then Ok [LFunction CF_dlclose]
     else match List.find (answers q) (symbols d) with
          | Some s => Ok [LFunction (CF_symcall (Some s))]
          | None => Raise (Err_unknown_field (c_str q))
          end, L).
Proof.
  intros Hp Hh Hlive.
  unfold index_lua, luaL_checkudata, luaL_checklstring. simpl.
  rewrite Hp. simpl. apply Z.eqb_neq in Hh. rewrite Hh.
  rewrite (strncmp_key q "dlsym" eq_refl).
  destruct (key_matches q "dlsym"); [reflexivity|].
  rewrite (strncmp_key q "dlclose" eq_refl).
  destruct (key_matches q "dlclose"); [reflexivity|].
  rewrite (traverse_symbols_answers q _ Hlive).
  destruct (List.find (answers q) (symbols d)) as [s|] eqn:Hf; [|reflexivity].
  apply find_some in Hf as [Hin _].
  rewrite Forall_forall in Hlive. destruct (Hlive s) as [Hr _].
  { apply list_elem_of_In. exact Hin. }
  unfold symcall_closure. apply Z.eqb_neq in Hr. rewrite Hr. reflexivity.
Qed.

Lemma index_lua_resolves_witness :
  index_lua demo_env NW_other demo_add
    [LUserdata 0; LString (String "a" (String "d" (String "d" (String NUL "x"))))]
  = (if key_matches (String "a" (String "d" (String "d" (String NUL "x")))) "dlsym"
     then Ok [LFunction CF_dlsym]
     else if key_matches (String "a" (String "d" (String "d" (String NUL "x"))))
               "dlclose"
     then Ok [LFunction CF_dlclose]
     else match List.find
                  (answers (String "a" (String "d" (String "d" (String NUL "x")))))
                  (symbols demo_add_dso) with
          | Some s => Ok [LFunction (CF_symcall (Some s))]
          | None => Raise (Err_unknown_field
                             (c_str (String "a" (String "d" (String "d"
                                       (String NUL "x"))))))
          end, demo_add).
Proof.
  apply (index_lua_resolves demo_env NW_other demo_add 0 demo_add_dso).
  - exact demo_add_lookup.
  - discriminate.
  - constructor; [exact demo_add_sym_live | constructor].
Defined.

(** ** Declarations that reach the loader *)

Lemma declare_arguments_valid E ci hd vtags tags :
  Forall2 names_argument vtags tags ->
  forall done types ffis,
    length hd = 3%nat ->
    (length done + length vtags <= 32)%nat ->
    declare_arguments E ci (hd ++ done ++ vtags)%list
      (Z.of_nat (length done)) (length vtags) types ffis
    = Ok (Args_ok (types ++ map enum_value tags)%list
                  (ffis ++ map (ffi_type_of E) tags)%list).
Proof.
  induction 1 as [|v t vtags tags [Hv Hne] _ IH];
    intros done types ffis Hhd Hlen.
  - simpl. rewrite !app_nil_r. reflexivity.
  - simpl length. simpl declare_arguments.
    rewrite (check_ffitype_names E ci _ _ v t); [| |exact Hv].
    + cbn [bind fst snd].
      destruct ((Z.of_nat (length done) <? 0)
                || (FFI_MAX_ARGS <=? Z.of_nat (length done))) eqn:Hb.
      { apply orb_prop in Hb as [Hb|Hb];
          [apply Z.ltb_lt in Hb | apply Z.leb_le in Hb];
          unfold FFI_MAX_ARGS in *; simpl in Hlen; lia. }
      rewrite (enum_value_void t Hne).
      specialize (IH (done ++ [v])%list (types ++ [enum_value t])%list
                     (ffis ++ [ffi_type_of E t])%list Hhd).
      rewrite length_app in IH. simpl length in IH.
      replace (Z.of_nat (length done) + 1)
        with (Z.of_nat (length done + 1)) by lia.
      rewrite <- !app_assoc in IH. simpl app in IH.
      rewrite IH by (simpl in Hlen; lia). reflexivity.
    + rewrite app_assoc.
      replace (4 + Z.of_nat (length done))
        with (1 + Z.of_nat (length (hd ++ done)%list))
        by (rewrite length_app, Hhd; lia).
      apply (value_at_skip (hd ++ done)%list v vtags).
Qed.

(** A declaration with valid tags passes the checks of [dlsym_lua]; what
    is left is the sequence [strdup], [dlsym], [ffi_prep_cif]. *)
Lemma dlsym_lua_valid E ci L p d ret rt nm vtags tags :
  udata L !! p = Some d ->
  (length vtags <= 32)%nat ->
  names_tag ret rt ->
  Forall2 names_argument vtags tags ->
  dlsym_lua E ci L (LUserdata p :: ret :: LString nm :: vtags)
  = if negb (strdup_ok E (c_str nm)) then
      (Ok [LBoolean false;
           LString "failed to allocate memory for symbol name"], L)
    else
      let L1 := emit L (Ev_dlsym (handle d) (c_str nm)) in
      let a := sys_dlsym E (handle d) (c_str nm) in
      if a =? 0 then
        (Ok [LBoolean false;
             LString ("failed to find symbol '" ++ c_str nm ++ "': "
                      ++ sys_dlerror E)], L1)
      else
        let c := {| cif_nargs := Z.of_nat (length tags);
                    cif_rtype := ffi_type_of E rt;
                    cif_arg_types := map (ffi_type_of E) tags |} in
        let L2 := emit L1 (Ev_ffi_prep_cif c) in
        let status := sys_ffi_prep_cif E (Z.of_nat (length tags))
                        (ffi_type_of E rt) (map (ffi_type_of E) tags) in
        match status with
        | FFI_OK =>
            (Ok [LBoolean true],
             set_udata (snd (luaL_ref L2)) p
               {| handle := handle d; path := path d;
                  symbols := (symbols d
                              ++ [new_entry E (Zpos (next_ref L))
                                    a rt nm tags])%list |})
        | _ =>
            (Ok [LBoolean false;
                 LString ("failed to prepare FFI call interface for symbol '"
                          ++ c_str nm ++ "' (" ++ ffi_status_message status
                          ++ ")")], L2)
        end.
Proof.
  intros Hp Hlen Hret Htags.
  pose proof (Forall2_length _ _ _ Htags) as Hl.
  unfold dlsym_lua, luaL_checkudata.
  rewrite !lua_gettop_cons. change (value_at _ 1) with (Some (LUserdata p)).
  cbv beta iota. rewrite Hp.
  set (n := lua_gettop vtags).
  assert (Hn : n = Z.of_nat (length vtags)) by reflexivity.
  assert (Hc : ((1 + (1 + (1 + n)) - 1 <? 2)
                || (1 + (1 + (1 + n)) - 1 >? FFI_MAX_ARGS + 2)) = false).
  { apply orb_false_intro; [apply Z.ltb_ge | rewrite Z.gtb_ltb; apply Z.ltb_ge];
      unfold FFI_MAX_ARGS; lia. }
  rewrite Hc.
  rewrite (check_ffitype_names E ci
             (LUserdata p :: ret :: LString nm :: vtags) 2 ret rt eq_refl Hret).
  unfold luaL_checklstring. change (value_at _ 3) with (Some (LString nm)).
  cbn [lua_tolstring bind].
  replace (Z.to_nat (1 + (1 + (1 + n)) - 1 - 2)) with (length vtags) by lia.
  pose proof (declare_arguments_valid E ci [LUserdata p; ret; LString nm]
                vtags tags Htags [] [] [] eq_refl) as Hd.
  change (Z.of_nat (length [])) with 0 in Hd.
  change ([LUserdata p; ret; LString nm] ++ [] ++ vtags)%list
    with (LUserdata p :: ret :: LString nm :: vtags) in Hd.
  rewrite Hd by (simpl; lia). cbn [bind app fst snd].
  replace (1 + (1 + (1 + n)) - 1 - 2) with (Z.of_nat (length tags)) by lia.
  reflexivity.
Qed.

(** X2: a declaration that passes every check and that the loader and
    libffi accept returns [true] and appends exactly one entry at the end
    of the list of its library: the entry records the resolved address,
    the name as a C string with the length of the Lua string, the tags in
    order and the call interface of those tags.  Entries already there,
    the handle, the path and every other library stay as they were;
    [dlsym] and [ffi_prep_cif] are each called once, in this order. *)
Theorem dlsym_lua_appends E ci L p d ret rt nm vtags tags :
  udata L !! p = Some d -> Forall live (symbols d) ->
  (length vtags <= 32)%nat ->
  names_tag ret rt -> Forall2 names_argument vtags tags ->
  strdup_ok E (c_str nm) = true ->
  sys_dlsym E (handle d) (c_str nm) <> 0 ->
  sys_ffi_prep_cif E (Z.of_nat (length tags)) (ffi_type_of E rt)
    (map (ffi_type_of E) tags) = FFI_OK ->
  let r := dlsym_lua E ci L (LUserdata p :: ret :: LString nm :: vtags) in
  fst r = Ok [LBoolean true]
  /\ udata (snd r) !! p
     = Some {| handle := handle d; path := path d;
               symbols := (symbols d
                           ++ [new_entry E (Zpos (next_ref L))
                                 (sys_dlsym E (handle d) (c_str nm))
                                 rt nm tags])%list |}
  /\ (forall q, q <> p -> udata (snd r) !! q = udata L !! q)
  /\ trace (snd r)
     = (trace L
        ++ [Ev_dlsym (handle d) (c_str nm);
            Ev_ffi_prep_cif (cif (new_entry E 0 0 rt nm tags))])%list.
Proof.
  intros Hp Hlive Hlen Hret Htags Hdup Hsym Hprep r. subst r.
  rewrite (dlsym_lua_valid E ci L p d ret rt nm vtags tags Hp Hlen Hret Htags).
  rewrite Hdup. cbn [negb]. cbv zeta.
  apply Z.eqb_neq in Hsym. rewrite Hsym, Hprep.
  cbn [fst snd].
  split; [reflexivity|]. split; [|split].
  - apply lookup_insert_eq.
  - intros q Hq. simpl. apply lookup_insert_ne. congruence.
  - simpl. rewrite <- app_assoc. reflexivity.
Qed.

Lemma dlsym_lua_appends_witness :
  let r := dlsym_lua demo_env NW_method demo_open
             (LUserdata 0 :: LString "int" :: LString "add"
              :: [LString "int"; LString "int"]) in
  fst r = Ok [LBoolean true]
  /\ udata (snd r) !! 0
     = Some {| handle := handle demo_open_dso; path := path demo_open_dso;
               symbols := (symbols demo_open_dso
                           ++ [new_entry demo_env (Zpos (next_ref demo_open))
                                 (sys_dlsym demo_env (handle demo_open_dso)
                                    (c_str "add"))
                                 T_INT "add" [T_INT; T_INT]])%list |}
  /\ (forall q, q <> 0 -> udata (snd r) !! q = udata demo_open !! q)
  /\ trace (snd r)
     = (trace demo_open
        ++ [Ev_dlsym (handle demo_open_dso) (c_str "add");
            Ev_ffi_prep_cif
              (cif (new_entry demo_env 0 0 T_INT "add" [T_INT; T_INT]))])%list.
Proof.
  apply (dlsym_lua_appends demo_env NW_method demo_open 0 demo_open_dso
           (LString "int") T_INT "add" [LString "int"; LString "int"]
           [T_INT; T_INT]).
  - exact demo_open_lookup.
  - constructor.
  - simpl. lia.
  - reflexivity.
  - repeat constructor; discriminate.
  - reflexivity.
  - discriminate.
  - reflexivity.
Defined.

(** X3: when the library has no entry point of the declared name, the
    declaration returns [false] with the text of [dlerror]; the list of
    entries is unchanged, [dlsym] was called once and [ffi_prep_cif] not at
    all. *)
Theorem dlsym_lua_unresolved E ci L p d ret rt nm vtags tags :
  udata L !! p = Some d ->
  (length vtags <= 32)%nat ->
  names_tag ret rt -> Forall2 names_argument vtags tags ->
  strdup_ok E (c_str nm) = true ->
  sys_dlsym E (handle d) (c_str nm) = 0 ->
  let r := dlsym_lua E ci L (LUserdata p :: ret :: LString nm :: vtags) in
  fst r = Ok [LBoolean false;
              LString ("failed to find symbol '" ++ c_str nm ++ "': "
                       ++ sys_dlerror E)]
  /\ udata (snd r) = udata L
  /\ trace (snd r) = (trace L ++ [Ev_dlsym (handle d) (c_str nm)])%list.
Proof.
  intros Hp Hlen Hret Htags Hdup Hsym r. subst r.
  rewrite (dlsym_lua_valid E ci L p d ret rt nm vtags tags Hp Hlen Hret Htags).
  rewrite Hdup. cbn [negb]. cbv zeta. rewrite Hsym.
  repeat split.
Qed.

Lemma dlsym_lua_unresolved_witness :
  let r := dlsym_lua demo_env NW_method demo_open
             (LUserdata 0 :: LString "int" :: LString "missing" :: []) in
  fst r = Ok [LBoolean false;
              LString ("failed to find symbol '" ++ c_str "missing" ++ "': "
                       ++ sys_dlerror demo_env)]
  /\ udata (snd r) = udata demo_open
  /\ trace (snd r)
     = (trace demo_open
        ++ [Ev_dlsym (handle demo_open_dso) (c_str "missing")])%list.
Proof.
  apply (dlsym_lua_unresolved demo_env NW_method demo_open 0 demo_open_dso
           (LString "int") T_INT "missing" [] []).
  - exact demo_open_lookup.
  - simpl. lia.
  - reflexivity.
  - constructor.
  - reflexivity.
  - reflexivity.
Defined.

(** X4: when libffi refuses the call interface, the declaration returns
    [false] with the name of the status; the list of entries is unchanged
    although [dlsym] had resolved the name. *)
Theorem dlsym_lua_interface_refused E ci L p d ret rt nm vtags tags :
  udata L !! p = Some d ->
  (length vtags <= 32)%nat ->
  names_tag ret rt -> Forall2 names_argument vtags tags ->
  strdup_ok E (c_str nm) = true ->
  sys_dlsym E (handle d) (c_str nm) <> 0 ->
  sys_ffi_prep_cif E (Z.of_nat (length tags)) (ffi_type_of E rt)
    (map (ffi_type_of E) tags) <> FFI_OK ->
  let status := sys_ffi_prep_cif E (Z.of_nat (length tags)) (ffi_type_of E rt)
                  (map (ffi_type_of E) tags) in
  let r := dlsym_lua E ci L (LUserdata p :: ret :: LString nm :: vtags) in
  fst r = Ok [LBoolean false;
              LString ("failed to prepare FFI call interface for symbol '"
                       ++ c_str nm ++ "' (" ++ ffi_status_message status
                       ++ ")")]
  /\ udata (snd r) = udata L
  /\ trace (snd r)
     = (trace L
        ++ [Ev_dlsym (handle d) (c_str nm);
            Ev_ffi_prep_cif (cif (new_entry E 0 0 rt nm tags))])%list.
Proof.
  intros Hp Hlen Hret Htags Hdup Hsym Hprep status r. subst r status.
  rewrite (dlsym_lua_valid E ci L p d ret rt nm vtags tags Hp Hlen Hret Htags).
  rewrite Hdup. cbn [negb]. cbv zeta.
  apply Z.eqb_neq in Hsym. rewrite Hsym.
  destruct (sys_ffi_prep_cif E (Z.of_nat (length tags)) (ffi_type_of E rt)
              (map (ffi_type_of E) tags)); try congruence;
    (split; [reflexivity|]; split; [reflexivity|];
     simpl; rewrite <- app_assoc; reflexivity).
Qed.

Lemma harsh_open_lookup : udata harsh_open !! 0 = Some demo_open_dso.
Proof. vm_compute. reflexivity. Qed.

Lemma dlsym_lua_interface_refused_witness :
  let status := sys_ffi_prep_cif harsh_env (Z.of_nat (length [T_INT; T_INT; T_INT]))
                  (ffi_type_of harsh_env T_INT)
                  (map (ffi_type_of harsh_env) [T_INT; T_INT; T_INT]) in
  let r := dlsym_lua harsh_env NW_method harsh_open
             (LUserdata 0 :: LString "int" :: LString "sum3"
              :: [LString "int"; LString "int"; LString "int"]) in
  fst r = Ok [LBoolean false;
              LString ("failed to prepare FFI call interface for symbol '"
                       ++ c_str "sum3" ++ "' (" ++ ffi_status_message status
                       ++ ")")]
  /\ udata (snd r) = udata harsh_open
  /\ trace (snd r)
     = (trace harsh_open
        ++ [Ev_dlsym (handle demo_open_dso) (c_str "sum3");
            Ev_ffi_prep_cif
              (cif (new_entry harsh_env 0 0 T_INT "sum3"
                      [T_INT; T_INT; T_INT]))])%list.
Proof.
  apply (dlsym_lua_interface_refused harsh_env NW_method harsh_open 0
           demo_open_dso (LString "int") T_INT "sum3"
           [LString "int"; LString "int"; LString "int"]
           [T_INT; T_INT; T_INT]).
  - exact harsh_open_lookup.
  - simpl. lia.
  - reflexivity.
  - repeat constructor; discriminate.
  - reflexivity.
  - discriminate.
  - discriminate.
Defined.

Lemma luaL_checkudata_value ci L st arg p d :
  luaL_checkudata ci L st arg = Ok (p, d) ->
  value_at st arg = Some (LUserdata p) /\ udata L !! p = Some d.
Proof.
  unfold luaL_checkudata. destruct (value_at st arg) as [v|]; [|discriminate].
  destruct v; try discriminate.
  destruct (udata L !! p0) eqn:Hl; [|discriminate].
  intros [= <- <-]. split; [reflexivity | exact Hl].
Qed.

(** X5: a declaration is all or nothing.  On a library whose entries are
    all live (an open library, or one that never had an entry), whatever
    follows the library in the call, either [dlsym_lua] returns [true] and
    the library has gained exactly one entry, live as the others, at the
    end of its list, or it does not return [true] (it returns [false] with
    a message, or raises) and no library has changed. *)
Theorem dlsym_lua_all_or_nothing E ci L p d rest :
  udata L !! p = Some d -> Forall live (symbols d) ->
  let r := dlsym_lua E ci L (LUserdata p :: rest) in
  (fst r = Ok [LBoolean true]
   /\ exists s,
        Forall live (symbols d ++ [s])%list
        /\ udata (snd r)
           = <[p := {| handle := handle d; path := path d;
                       symbols := (symbols d ++ [s])%list |}]> (udata L))
  \/ (fst r <> Ok [LBoolean true] /\ udata (snd r) = udata L).
Proof.
  intros Hp Hlive. cbv zeta. unfold dlsym_lua.
  destruct (luaL_checkudata ci L (LUserdata p :: rest) 1)
    as [[p' dso]|e|f] eqn:Hud;
    try (right; split; [discriminate | reflexivity]).
  apply luaL_checkudata_value in Hud as [Hv Hp'].
  injection Hv as <-. rewrite Hp in Hp'. injection Hp' as <-.
  destruct ((lua_gettop (LUserdata p :: rest) - 1 <? 2)
            || (lua_gettop (LUserdata p :: rest) - 1 >? FFI_MAX_ARGS + 2));
    [right; split; [discriminate | reflexivity]|].
  match goal with
  | |- context [match ?c with Ok _ => _ | Raise _ => _ | Crash _ => _ end] =>
      destruct c as [[[rt nm] da]|e|f];
        try (right; split; [discriminate | reflexivity])
  end.
  destruct da as [types ffis|];
    [|right; split; [discriminate | reflexivity]].
  destruct (negb (strdup_ok E (c_str nm)));
    [right; split; [discriminate | reflexivity]|].
  destruct (sys_dlsym E (handle d) (c_str nm) =? 0);
    [right; split; [discriminate | reflexivity]|].
  destruct (sys_ffi_prep_cif E (lua_gettop (LUserdata p :: rest) - 1 - 2)
              (snd rt) ffis);
    try (right; split; [discriminate | reflexivity]).
  unfold luaL_ref. cbn beta iota.
  left. split; [reflexivity|].
  eexists. split; [|reflexivity].
  apply Forall_app. split; [exact Hlive|]. constructor; [|constructor].
  split; [discriminate|]. exists nm. split; reflexivity.
Qed.

Lemma dlsym_lua_all_or_nothing_witness :
  let r := dlsym_lua demo_env NW_method demo_add
             (LUserdata 0
              :: [LString "int"; LString "sub"; LString "int"; LString "int"])
  in
  (fst r = Ok [LBoolean true]
   /\ exists s,
        Forall live (symbols demo_add_dso ++ [s])%list
        /\ udata (snd r)
           = <[0 := {| handle := handle demo_add_dso;
                       path := path demo_add_dso;
                       symbols := (symbols demo_add_dso ++ [s])%list |}]>
               (udata demo_add))
  \/ (fst r <> Ok [LBoolean true] /\ udata (snd r) = udata demo_add).
Proof.
  apply (dlsym_lua_all_or_nothing demo_env NW_method demo_add 0 demo_add_dso
           [LString "int"; LString "sub"; LString "int"; LString "int"]).
  - exact demo_add_lookup.
  - constructor; [exact demo_add_sym_live | constructor].
Defined.

(** ** Type names and the bound on the number of arguments *)

Lemma strncmp_S s1 s2 n :
  strncmp s1 s2 (S n)
  = if negb (uchar (char_at s1) =? uchar (char_at s2))
    then uchar (char_at s1) - uchar (char_at s2)
    else if uchar (char_at s1) =? 0 then 0
         else strncmp (advance s1) (advance s2) n.
Proof. reflexivity. Qed.

Lemma strcmp_eqb n s :
  nul_free n = true -> (strcmp n s =? 0) = String.eqb n (c_str s).
Proof.
  unfold strcmp. revert s. induction n as [|c n IH]; intros s Hn.
  - cbn [String.length]. rewrite strncmp_S. cbn [char_at].
    change (uchar NUL) with 0.
    destruct s as [|c' s]; cbn [char_at c_str]; [reflexivity|].
    destruct (uchar c' =? 0) eqn:Hc'.
    + apply Z.eqb_eq in Hc'. rewrite Hc'. reflexivity.
    + apply Z.eqb_neq in Hc'.
      replace (0 =? uchar c') with false by (symmetry; apply Z.eqb_neq; lia).
      cbn [negb]. simpl String.eqb. apply Z.eqb_neq. lia.
  - simpl in Hn. apply andb_prop in Hn as [Hc Hn].
    apply negb_true_iff in Hc.
    cbn [String.length]. rewrite strncmp_S. cbn [char_at advance].
    destruct s as [|c' s]; cbn [char_at advance c_str].
    + change (uchar NUL) with 0. rewrite Hc. cbn [negb]. simpl String.eqb.
      apply Z.eqb_neq. apply Z.eqb_neq in Hc. lia.
    + destruct (uchar c =? uchar c') eqn:Hcc; cbn [negb].
      * apply Z.eqb_eq, uchar_inj in Hcc. subst c'. rewrite Hc.
        rewrite (IH s Hn). simpl String.eqb. rewrite Ascii.eqb_refl.
        reflexivity.
      * apply Z.eqb_neq in Hcc.
        replace (uchar c - uchar c' =? 0) with false
          by (symmetry; apply Z.eqb_neq; lia).
        destruct (uchar c' =? 0); simpl String.eqb; [reflexivity|].
        assert (Hne : c <> c') by congruence.
        apply Ascii.eqb_neq in Hne. rewrite Hne. reflexivity.
Qed.

(** The index that [luaL_checkoption] finds in [type_names] is the
    enumerator of the tag of that name; it finds none for any other text. *)
Lemma find_option_type_names x :
  nul_free x = true ->
  match find_option type_names x 0 with
  | Some i => exists t, datatype_of_enum i = Some t /\ x = type_name t
  | None => forall t, x <> type_name t
  end.
Proof.
  intros Hx. unfold type_names. cbn [find_option].
  rewrite !strcmp_eqb by reflexivity. rewrite (c_str_nul_free x Hx).
  repeat match goal with
  | |- context [String.eqb ?n x] =>
      let H := fresh "H" in
      destruct (String.eqb n x) eqn:H;
        [apply String.eqb_eq in H; eexists; split;
           [reflexivity | symmetry; exact H]|]
  end.
  intros t ->. destruct t; simpl in *; discriminate.
Qed.

(** X6: [check_ffitype] accepts a text exactly when, read as a C string,
    it is one of the 26 type names, and then yields the tag of that name
    with its libffi descriptor; for any other text it raises "invalid
    option". *)
Theorem check_ffitype_accepts_type_names E ci st idx s :
  value_at st idx = Some (LString s) ->
  (forall t f, check_ffitype E ci st idx = Ok (t, f)
               <-> c_str s = type_name t /\ f = ffi_type_of E t)
  /\ ((forall t, c_str s <> type_name t) ->
      check_ffitype E ci st idx
      = Raise (luaL_argerror ci idx (InvalidOption (c_str s)))).
Proof.
  intros Hv.
  pose proof (find_option_type_names (c_str s) (nul_free_c_str s)) as Hfind.
  assert (Hchk : check_ffitype E ci st idx
                 = match find_option type_names (c_str s) 0 with
                   | Some i =>
                       match datatype_of_enum i with
                       | None => Raise Err_missing_case
                       | Some t => Ok (t, ffi_type_of E t)
                       end
                   | None =>
                       Raise (luaL_argerror ci idx (InvalidOption (c_str s)))
                   end).
  { unfold check_ffitype, luaL_checkoption, luaL_checklstring.
    rewrite Hv. cbn [lua_tolstring bind]. rewrite find_option_c_str.
    destruct (find_option type_names (c_str s) 0); reflexivity. }
  split.
  - intros t f. split.
    + rewrite Hchk. destruct (find_option type_names (c_str s) 0) as [i|];
        [|discriminate].
      destruct Hfind as (t' & Ht' & Hx). rewrite Ht'.
      intros [= <- <-]. split; [exact Hx | reflexivity].
    + intros [Hn ->]. apply (check_ffitype_names E ci st idx (LString s) t Hv Hn).
  - intros Hnone. rewrite Hchk.
    destruct (find_option type_names (c_str s) 0) as [i|]; [|reflexivity].
    destruct Hfind as (t' & _ & Hx). destruct (Hnone t' Hx).
Qed.

Lemma check_ffitype_accepts_type_names_witness :
  (forall t f, check_ffitype demo_env NW_method
                 [demo_lib; LString "integer"] 2 = Ok (t, f)
               <-> c_str "integer" = type_name t /\ f = ffi_type_of demo_env t)
  /\ ((forall t, c_str "integer" <> type_name t) ->
      check_ffitype demo_env NW_method [demo_lib; LString "integer"] 2
      = Raise (luaL_argerror NW_method 2 (InvalidOption (c_str "integer")))).
Proof.
  apply (check_ffitype_accepts_type_names demo_env NW_method
           [demo_lib; LString "integer"] 2 "integer").
  reflexivity.
Defined.

(** X7: called on a library, [dlsym_lua] returns the message of the bound
    exactly when fewer than 2 or more than 34 values follow the library
    (a return tag, a name and at most 32 argument tags are 2 to 34 values),
    and then the state is unchanged. *)
Theorem dlsym_lua_bound E ci L p d rest :
  udata L !! p = Some d ->
  (fst (dlsym_lua E ci L (LUserdata p :: rest))
   = Ok [LBoolean false; LString bound_message]
   <-> (length rest < 2 \/ 34 < length rest)%nat)
  /\ ((length rest < 2 \/ 34 < length rest)%nat ->
      snd (dlsym_lua E ci L (LUserdata p :: rest)) = L).
Proof.
  intros Hp.
  assert (Hout : (length rest < 2 \/ 34 < length rest)%nat ->
                 dlsym_lua E ci L (LUserdata p :: rest)
                 = (Ok [LBoolean false; LString bound_message], L)).
  { intros Hlen. unfold dlsym_lua, luaL_checkudata.
    rewrite lua_gettop_cons. change (value_at _ 1) with (Some (LUserdata p)).
    cbv beta iota. rewrite Hp.
    assert (Hc : ((1 + lua_gettop rest - 1 <? 2)
                  || (1 + lua_gettop rest - 1 >? FFI_MAX_ARGS + 2)) = true).
    { unfold lua_gettop, FFI_MAX_ARGS. apply orb_true_iff.
      destruct Hlen; [left; apply Z.ltb_lt | right; apply Z.gtb_lt]; lia. }
    rewrite Hc. reflexivity. }
  split; [|intros Hlen; rewrite (Hout Hlen); reflexivity].
  split; [|intros Hlen; rewrite (Hout Hlen); reflexivity].
  destruct (Nat.lt_ge_cases (length rest) 2) as [|Hlo]; [auto|].
  destruct (Nat.lt_ge_cases 34 (length rest)) as [|Hhi]; [auto|].
  intros H. exfalso. revert H.
  unfold dlsym_lua, luaL_checkudata.
  rewrite lua_gettop_cons. change (value_at _ 1) with (Some (LUserdata p)).
  cbv beta iota. rewrite Hp.
  assert (Hc : ((1 + lua_gettop rest - 1 <? 2)
                || (1 + lua_gettop rest - 1 >? FFI_MAX_ARGS + 2)) = false).
  { unfold lua_gettop, FFI_MAX_ARGS. apply orb_false_intro;
      [apply Z.ltb_ge | rewrite Z.gtb_ltb; apply Z.ltb_ge]; lia. }
  rewrite Hc.
  match goal with
  | |- context [match ?c with Ok _ => _ | Raise _ => _ | Crash _ => _ end] =>
      destruct c as [[[rt nm] da]|e|f]; try discriminate
  end.
  destruct da as [types ffis|]; [|discriminate].
  destruct (negb (strdup_ok E (c_str nm))); [discriminate|].
  destruct (sys_dlsym E (handle d) (c_str nm) =? 0); [discriminate|].
  destruct (sys_ffi_prep_cif E _ (snd rt) ffis); discriminate.
Qed.

Lemma dlsym_lua_bound_witness :
  (fst (dlsym_lua demo_env NW_method demo_open (LUserdata 0 :: [LString "int"]))
   = Ok [LBoolean false; LString bound_message]
   <-> (length [LString "int"] < 2 \/ 34 < length [LString "int"])%nat)
  /\ ((length [LString "int"] < 2 \/ 34 < length [LString "int"])%nat ->
      snd (dlsym_lua demo_env NW_method demo_open
             (LUserdata 0 :: [LString "int"])) = demo_open).
Proof.
  apply (dlsym_lua_bound demo_env NW_method demo_open 0 demo_open_dso).
  exact demo_open_lookup.
Defined.

(** ** Opening and closing *)

(** X8: [new_lua] on a text path calls [dlopen] once, on the path read as
    a C string.  When [dlopen] fails it returns [nil] and a message with
    the text of [dlerror], and no library is added; when it succeeds it
    returns a userdata that was not in use, which holds the handle, the
    path and an empty list of entries, and the libraries already there are
    untouched.  Values after the path are ignored. *)
Theorem new_lua_opens E ci L file rest :
  strdup_ok E (c_str file) = true ->
  let h := sys_dlopen E (c_str file) in
  let r := new_lua E ci L (LString file :: rest) in
  trace (snd r) = (trace L ++ [Ev_dlopen (c_str file)])%list
  /\ (h = 0 ->
      fst r = Ok [LNil; LString ("failed to open module '" ++ c_str file
                                 ++ "': " ++ sys_dlerror E)]
      /\ udata (snd r) = udata L)
  /\ (h <> 0 ->
      exists p, udata L !! p = None
                /\ fst r = Ok [LUserdata p]
                /\ udata (snd r)
                   = <[p := {| handle := h; path := Some (c_str file);
                               symbols := [] |}]> (udata L)).
Proof.
  intros Hdup h r. subst h r. unfold new_lua, luaL_checklstring.
  change (value_at _ 1) with (Some (LString file)). cbn [lua_tolstring].
  rewrite Hdup. cbn [negb].
  destruct (sys_dlopen E (c_str file) =? 0) eqn:Hh.
  - apply Z.eqb_eq in Hh. split; [reflexivity|].
    split; [intros _; split; reflexivity | intros Hne; contradiction].
  - apply Z.eqb_neq in Hh. split; [reflexivity|].
    split; [intros H0; contradiction|]. intros _.
    exists (fresh (dom (udata (emit L (Ev_dlopen (c_str file)))))).
    split; [|split; reflexivity].
    apply not_elem_of_dom. apply (is_fresh (dom (udata L))).
Qed.

Lemma new_lua_opens_witness :
  let h := sys_dlopen harsh_env (c_str "libnone.so") in
  let r := new_lua harsh_env NW_other initial_state [LString "libnone.so"] in
  trace (snd r) = (trace initial_state ++ [Ev_dlopen (c_str "libnone.so")])%list
  /\ (h = 0 ->
      fst r = Ok [LNil; LString ("failed to open module '" ++ c_str "libnone.so"
                                 ++ "': " ++ sys_dlerror harsh_env)]
      /\ udata (snd r) = udata initial_state)
  /\ (h <> 0 ->
      exists p, udata initial_state !! p = None
                /\ fst r = Ok [LUserdata p]
                /\ udata (snd r)
                   = <[p := {| handle := h; path := Some (c_str "libnone.so");
                               symbols := [] |}]> (udata initial_state)).
Proof.
  apply (new_lua_opens harsh_env NW_other initial_state "libnone.so" []).
  reflexivity.
Defined.

Lemma index_lua_dlclose E ci L p d :
  udata L !! p = Some d -> handle d <> 0 ->
  index_lua E ci L [LUserdata p; LString "dlclose"]
  = (Ok [LFunction CF_dlclose], L).
Proof.
  intros Hp Hh. unfold index_lua, luaL_checkudata, luaL_checklstring.
  simpl. rewrite Hp. simpl. apply Z.eqb_neq in Hh. rewrite Hh. reflexivity.
Qed.

(** X9: [lib:dlclose()] on an open library calls [dlclose] once on its
    handle and closes the library whatever [dlclose] answers: the handle
    and the path become null and the entries are released.  The call
    returns [true] when [dlclose] returned 0 and [false] with the text of
    [dlerror] otherwise; in both cases every later request through the
    handle raises "module is closed".  Other libraries are untouched. *)
Theorem dlclose_closes E L nw p d args :
  udata L !! p = Some d -> handle d <> 0 ->
  let r := lua_invoke E L nw (LUserdata p) "dlclose" args in
  fst r = (if sys_dlclose E (handle d) =? 0 then Ok [LBoolean true]
           else Ok [LBoolean false;
                    LString ("failed to close module: " ++ sys_dlerror E)])
  /\ udata (snd r) !! p
     = Some {| handle := 0; path := None;
               symbols := release_chain (symbols d) |}
  /\ (forall q, q <> p -> udata (snd r) !! q = udata L !! q)
  /\ trace (snd r) = (trace L ++ [Ev_dlclose (handle d)])%list
  /\ (forall nw' key args',
        lua_invoke E (snd r) nw' (LUserdata p) key args'
        = (Raise Err_module_closed, snd r)).
Proof.
  intros Hp Hh r. subst r. unfold lua_invoke, lua_index.
  rewrite (index_lua_dlclose E NW_other L p d Hp Hh).
  unfold lua_call, dlclose_lua, luaL_checkudata.
  change (value_at _ 1) with (Some (LUserdata p)). cbv beta iota.
  rewrite Hp. unfold dso_close.
  assert (Hb : negb (handle d =? 0) = true)
    by (apply negb_true_iff, Z.eqb_neq, Hh).
  rewrite Hb.
  assert (Hl : udata (emit (set_udata L p
                 {| handle := 0; path := None;
                    symbols := release_chain (symbols d) |})
                 (Ev_dlclose (handle d))) !! p
               = Some {| handle := 0; path := None;
                         symbols := release_chain (symbols d) |})
    by apply lookup_insert_eq.
  destruct (sys_dlclose E (handle d) =? 0); cbn [fst snd];
    (split; [reflexivity|]; split; [exact Hl|]; split;
     [intros q Hq; simpl; apply lookup_insert_ne; congruence|];
     split; [reflexivity|];
     intros nw' key args'; eapply lua_invoke_closed; [exact Hl | reflexivity]).
Qed.

Lemma dlclose_closes_witness :
  let r := lua_invoke harsh_env harsh_open NW_method (LUserdata 0) "dlclose"
             [] in
  fst r = (if sys_dlclose harsh_env (handle demo_open_dso) =? 0
           then Ok [LBoolean true]
           else Ok [LBoolean false;
                    LString ("failed to close module: "
                             ++ sys_dlerror harsh_env)])
  /\ udata (snd r) !! 0
     = Some {| handle := 0; path := None;
               symbols := release_chain (symbols demo_open_dso) |}
  /\ (forall q, q <> 0 -> udata (snd r) !! q = udata harsh_open !! q)
  /\ trace (snd r)
     = (trace harsh_open ++ [Ev_dlclose (handle demo_open_dso)])%list
  /\ (forall nw' key args',
        lua_invoke harsh_env (snd r) nw' (LUserdata 0) key args'
        = (Raise Err_module_closed, snd r)).
Proof.
  apply (dlclose_closes harsh_env harsh_open NW_method 0 demo_open_dso []).
  - exact harsh_open_lookup.
  - discriminate.
Defined.

Lemma gc_lua_runs_dso_close E ci L p d rest :
  udata L !! p = Some d ->
  gc_lua E ci L (LUserdata p :: rest) = (Ok [], snd (dso_close E L p d)).
Proof.
  intros Hp. unfold gc_lua, luaL_checkudata.
  change (value_at _ 1) with (Some (LUserdata p)). cbv beta iota.
  rewrite Hp. destruct (dso_close E L p d). reflexivity.
Qed.

(** X10: the finalizer [gc_lua] of a library never raises and returns
    nothing.  It closes an open library, calling [dlclose] once and
    ignoring its answer, and does nothing for a closed one; run again on
    its own result it changes nothing, so a library that was closed by
    hand is not closed a second time when it is collected. *)
Theorem gc_lua_finalizes E ci L p d rest :
  udata L !! p = Some d ->
  let r := gc_lua E ci L (LUserdata p :: rest) in
  fst r = Ok []
  /\ (exists d', udata (snd r) !! p = Some d' /\ handle d' = 0)
  /\ trace (snd r)
     = (if handle d =? 0 then trace L
        else trace L ++ [Ev_dlclose (handle d)])%list
  /\ gc_lua E ci (snd r) (LUserdata p :: rest) = (Ok [], snd r).
Proof.
  intros Hp r. subst r. rewrite (gc_lua_runs_dso_close E ci L p d rest Hp).
  cbn [fst snd]. split; [reflexivity|].
  assert (Hclosed : exists d', udata (snd (dso_close E L p d)) !! p = Some d'
                               /\ handle d' = 0).
  { destruct (Z.eq_dec (handle d) 0) as [H0|Hne].
    - rewrite (dso_close_closed E L p d H0). exists d. split; assumption.
    - apply dso_close_closes, Hne. }
  split; [exact Hclosed|]. split.
  - unfold dso_close. destruct (handle d =? 0); reflexivity.
  - destruct Hclosed as (d' & Hp' & H0).
    rewrite (gc_lua_runs_dso_close E ci _ p d' rest Hp').
    rewrite (dso_close_closed E _ p d' H0). reflexivity.
Qed.

Lemma gc_lua_finalizes_witness :
  let r := gc_lua demo_env NW_other demo_add (LUserdata 0 :: []) in
  fst r = Ok []
  /\ (exists d', udata (snd r) !! 0 = Some d' /\ handle d' = 0)
  /\ trace (snd r)
     = (if handle demo_add_dso =? 0 then trace demo_add
        else trace demo_add ++ [Ev_dlclose (handle demo_add_dso)])%list
  /\ gc_lua demo_env NW_other (snd r) (LUserdata 0 :: []) = (Ok [], snd r).
Proof.
  apply (gc_lua_finalizes demo_env NW_other demo_add 0 demo_add_dso []).
  exact demo_add_lookup.
Defined.

(** ** Invariants of the libraries *)

Lemma check_ffitype_ok_inv E ci st idx tf :
  check_ffitype E ci st idx = Ok tf -> snd tf = ffi_type_of E (fst tf).
Proof.
  unfold check_ffitype. intros H.
  apply bind_ok_inv in H as (i & _ & H).
  destruct (datatype_of_enum i); [|discriminate].
  injection H as <-. reflexivity.
Qed.

(** The declaration loop records, turn by turn, the enumerator and the
    descriptor of one tag. *)
Lemma declare_arguments_shape E ci st :
  forall todo i types ffis types' ffis',
    declare_arguments E ci st i todo types ffis = Ok (Args_ok types' ffis') ->
    exists tags,
      length tags = todo
      /\ types' = (types ++ map enum_value tags)%list
      /\ ffis' = (ffis ++ map (ffi_type_of E) tags)%list.
Proof.
  induction todo as [|todo IH]; intros i types ffis types' ffis' H.
  - simpl in H. injection H as <- <-. exists []. simpl.
    rewrite !app_nil_r. auto.
  - cbn [declare_arguments] in H.
    apply bind_ok_inv in H as ([t f] & Hchk & H).
    apply check_ffitype_ok_inv in Hchk. cbn [fst snd] in *. subst f.
    destruct ((i <? 0) || (FFI_MAX_ARGS <=? i)); [discriminate|].
    destruct (enum_value t =? enum_value T_VOID); [discriminate|].
    apply IH in H as (tags & Hlen & -> & ->).
    exists (t :: tags). simpl. rewrite <- !app_assoc. simpl.
    split; [lia | split; reflexivity].
Qed.

Lemma sound_state_emit E L ev : sound_state E L -> sound_state E (emit L ev).
Proof. intros H p d Hp. exact (H p d Hp). Qed.

Lemma sound_state_set_udata E L p d :
  sound_state E L -> sound_dso E d -> sound_state E (set_udata L p d).
Proof.
  intros HL Hd q d' Hq. unfold set_udata in Hq. simpl in Hq.
  destruct (decide (p = q)) as [->|Hne].
  - rewrite lookup_insert_eq in Hq. injection Hq as <-. exact Hd.
  - rewrite lookup_insert_ne in Hq by exact Hne. exact (HL q d' Hq).
Qed.

Lemma sound_dso_closed E l :
  Forall (consistent_sym E) l ->
  sound_dso E {| handle := 0; path := None; symbols := release_chain l |}.
Proof.
  intros Hl. split; [right; split; reflexivity|]. simpl.
  destruct Hl as [|s l Hs _]; simpl; constructor; [exact Hs | constructor].
Qed.

Lemma dso_close_sound E L p d :
  sound_state E L -> sound_dso E d -> sound_state E (snd (dso_close E L p d)).
Proof.
  intros HL [_ Hd]. unfold dso_close.
  destruct (negb (handle d =? 0)); simpl; [|exact HL].
  apply sound_state_emit, sound_state_set_udata; [exact HL|].
  apply sound_dso_closed, Hd.
Qed.

Lemma dlsym_lua_sound E ci L st :
  sound_state E L -> sound_state E (snd (dlsym_lua E ci L st)).
Proof.
  intros HL. unfold dlsym_lua.
  destruct (luaL_checkudata ci L st 1) as [[p dso]|e|f] eqn:Hud;
    try exact HL.
  apply luaL_checkudata_lookup in Hud.
  pose proof (HL p dso Hud) as [Hlife Hcons].
  destruct ((lua_gettop st - 1 <? 2) || (lua_gettop st - 1 >? FFI_MAX_ARGS + 2))
    eqn:Hguard; [exact HL|].
  apply orb_false_elim in Hguard as [Hlo _]. apply Z.ltb_ge in Hlo.
  match goal with
  | |- context [match ?c with Ok _ => _ | Raise _ => _ | Crash _ => _ end] =>
      destruct c as [[[rt nm] da]|e|f] eqn:Hchk; try exact HL
  end.
  destruct da as [types ffis|]; [|exact HL].
  apply bind_ok_inv in Hchk as (rt' & Hrt & Hchk).
  apply bind_ok_inv in Hchk as (nm' & _ & Hchk).
  apply bind_ok_inv in Hchk as (da' & Hloop & Hchk).
  injection Hchk as -> -> ->.
  apply check_ffitype_ok_inv in Hrt.
  apply declare_arguments_shape in Hloop as (tags & Hlen & Hty & Hff).
  simpl in Hty, Hff. subst types ffis.
  destruct (negb (strdup_ok E (c_str nm))); [exact HL|].
  destruct (sys_dlsym E (handle dso) (c_str nm) =? 0) eqn:Ha;
    [apply sound_state_emit, HL|].
  destruct (sys_ffi_prep_cif E (lua_gettop st - 1 - 2) (snd rt)
              (map (ffi_type_of E) tags)) eqn:Hprep;
    try (apply sound_state_emit, sound_state_emit, HL).
  unfold luaL_ref. cbn beta iota.
  cbn [snd]. apply sound_state_set_udata.
  { intros q d' Hq. exact (HL q d' Hq). }
  split; [exact Hlife|]. cbn [symbols].
  apply Forall_app. split; [exact Hcons|]. constructor; [|constructor].
  unfold consistent_sym.
  cbn [addr cif nargs ret_type ret_ffi_type arg_types arg_ffi_types].
  split; [apply Z.eqb_neq, Ha|]. split; [reflexivity|].
  split; [exists (fst rt); split; [reflexivity | exact Hrt]|].
  split; [exists tags; repeat split; lia | exact Hprep].
Qed.

Lemma new_lua_sound E ci L st :
  sound_state E L -> sound_state E (snd (new_lua E ci L st)).
Proof.
  intros HL. unfold new_lua.
  destruct (luaL_checklstring E ci st 1) as [file|e|f]; try exact HL.
  destruct (negb (strdup_ok E (c_str file))); [exact HL|].
  destruct (sys_dlopen E (c_str file) =? 0) eqn:Hh;
    [apply sound_state_emit, HL|].
  cbn [snd]. apply sound_state_set_udata; [apply sound_state_emit, HL|].
  split; [|constructor]. left. simpl. split; [apply Z.eqb_neq, Hh | discriminate].
Qed.

Lemma run_sound E op ci L st :
  sound_state E L -> sound_state E (snd (run E op ci L st)).
Proof.
  intros HL. destruct op; simpl.
  - apply new_lua_sound, HL.
  - apply dlsym_lua_sound, HL.
  - unfold dlclose_lua.
    destruct (luaL_checkudata ci L st 1) as [[p dso]|e|f] eqn:Hud;
      try exact HL.
    apply luaL_checkudata_lookup in Hud.
    pose proof (dso_close_sound E L p dso HL (HL p dso Hud)) as H.
    destruct (dso_close E L p dso) as [rc L1]. simpl in H.
    destruct (rc =? 0); exact H.
  - unfold gc_lua.
    destruct (luaL_checkudata ci L st 1) as [[p dso]|e|f] eqn:Hud;
      try exact HL.
    apply luaL_checkudata_lookup in Hud.
    pose proof (dso_close_sound E L p dso HL (HL p dso Hud)) as H.
    destruct (dso_close E L p dso) as [rc L1]. exact H.
  - rewrite index_lua_state. exact HL.
  - intros p d Hp. rewrite symcall_lua_udata in Hp. exact (HL p d Hp).
Qed.

Lemma reachable_sound E L : reachable E L -> sound_state E L.
Proof.
  induction 1 as [|L op ci st _ IH].
  - intros p d Hp. unfold initial_state in Hp. simpl in Hp.
    rewrite lookup_empty in Hp. discriminate.
  - apply run_sound, IH.
Qed.

(** X11: in every reachable state, each entry of each library, open or
    closed, has a call interface that describes exactly its declared tags:
    the descriptors are those of the return tag and of the argument tags in
    order, the count is the number of argument tags, and libffi accepted
    this interface; its address is not null. *)
Theorem stored_call_interface_matches_tags E L p d s :
  reachable E L -> udata L !! p = Some d -> In s (symbols d) ->
  consistent_sym E s.
Proof.
  intros HR Hp Hin. destruct (reachable_sound E L HR p d Hp) as [_ Hall].
  rewrite Forall_forall in Hall. apply Hall, list_elem_of_In, Hin.
Qed.

Lemma stored_call_interface_matches_tags_witness :
  consistent_sym demo_env demo_add_sym.
Proof.
  apply (stored_call_interface_matches_tags demo_env demo_add 0 demo_add_dso
           demo_add_sym).
  - exact demo_add_reachable.
  - exact demo_add_lookup.
  - left. reflexivity.
Defined.

(** X12: in every reachable state a library is either open, with a handle
    and a path and all its entries live, or closed, with neither handle nor
    path; [tostring_lua] therefore never fails on a library: it yields
    "dlopen: <handle> (<path>)" for an open one and, for a closed one, the
    null pointer and "(null)", and it changes nothing. *)
Theorem tostring_lua_describes E pointer_text L p d rest :
  reachable E L -> udata L !! p = Some d ->
  (handle d <> 0 ->
   Forall live (symbols d)
   /\ exists file,
        path d = Some file
        /\ tostring_lua pointer_text L (LUserdata p :: rest)
           = (Ok [LString ("dlopen: " ++ pointer_text (handle d)
                           ++ " (" ++ file ++ ")")], L))
  /\ (handle d = 0 ->
      path d = None
      /\ tostring_lua pointer_text L (LUserdata p :: rest)
         = (Ok [LString ("dlopen: " ++ pointer_text 0 ++ " ((null))")], L)).
Proof.
  intros HR Hp.
  destruct (reachable_sound E L HR p d Hp) as [Hlife _].
  assert (Ht : tostring_lua pointer_text L (LUserdata p :: rest)
               = (Ok [LString (MODULE_MT ++ ": " ++ pointer_text (handle d)
                               ++ " (" ++ format_s (path d) ++ ")")], L)).
  { unfold tostring_lua. change (value_at _ 1) with (Some (LUserdata p)).
    cbv beta iota. rewrite Hp. reflexivity. }
  split.
  - intros Hopen. split; [exact (reachable_open_live E L p d HR Hp Hopen)|].
    destruct Hlife as [[_ Hpath]|[H0 _]]; [|contradiction].
    destruct (path d) as [file|] eqn:Hf; [|congruence].
    exists file. split; [reflexivity|]. rewrite Ht. reflexivity.
  - intros Hclosed.
    destruct Hlife as [[Hne _]|[_ Hpath]]; [contradiction|].
    split; [exact Hpath|]. rewrite Ht, Hpath, Hclosed. reflexivity.
Qed.

Lemma demo_closed_reachable : reachable demo_env demo_closed.
Proof.
  assert (H : demo_closed
              = snd (run demo_env Op_dlclose NW_method demo_add [demo_lib]))
    by (vm_compute; reflexivity).
  rewrite H. apply reach_step, demo_add_reachable.
Defined.

Lemma tostring_lua_describes_witness :
  let d := {| handle := 0; path := None;
              symbols := [release demo_add_sym] |} in
  let pointer_text := fun _ : Z => "0x0" in
  (handle d <> 0 ->
   Forall live (symbols d)
   /\ exists file,
        path d = Some file
        /\ tostring_lua pointer_text demo_closed (LUserdata 0 :: [])
           = (Ok [LString ("dlopen: " ++ pointer_text (handle d)
                           ++ " (" ++ file ++ ")")], demo_closed))
  /\ (handle d = 0 ->
      path d = None
      /\ tostring_lua pointer_text demo_closed (LUserdata 0 :: [])
         = (Ok [LString ("dlopen: " ++ pointer_text 0 ++ " ((null))")],
            demo_closed)).
Proof.
  apply (tostring_lua_describes demo_env (fun _ => "0x0") demo_closed 0
           {| handle := 0; path := None; symbols := [release demo_add_sym] |}
           []).
  - exact demo_closed_reachable.
  - exact demo_closed_lookup.
Defined.

(** ** The loader's resources *)













(** ** Integers outside the range of their tag *)

Lemma cast_spec T z :
  0 < bits T ->
  in_range T (cast T z) /\ exists k, cast T z = z + k * 2 ^ bits T.
Proof.
  intros Hb. unfold in_range, cast.
  assert (H2 : 2 ^ bits T = 2 * 2 ^ (bits T - 1)).
  { rewrite <- Z.pow_succ_r by lia. f_equal. lia. }
  assert (Hp : 0 < 2 ^ (bits T - 1)) by (apply Z.pow_pos_nonneg; lia).
  pose proof (Z.mod_pos_bound z (2 ^ bits T) ltac:(lia)) as Hu.
  pose proof (Z.div_mod z (2 ^ bits T) ltac:(lia)) as Hz.
  destruct (is_signed T); cbn [andb].
  - destruct (2 ^ (bits T - 1) <=? z mod 2 ^ bits T) eqn:Hc;
      [apply Z.leb_le in Hc | apply Z.leb_gt in Hc].
    + split; [lia|]. exists (- (z / 2 ^ bits T) - 1). lia.
    + split; [lia|]. exists (- (z / 2 ^ bits T)). lia.
  - split; [lia|]. exists (- (z / 2 ^ bits T)). lia.
Qed.

(** What [(lua_Integer)(T)n] is for an integer type of at most 64 bits. *)
Lemma marshal_wrap T n :
  0 < bits T <= 64 -> in_range lua_Integer n ->
  let r := cast lua_Integer (cast T n) in
  (r - n) mod 2 ^ bits T = 0
  /\ in_range lua_Integer r
  /\ (bits T < 64 \/ is_signed T = true -> in_range T r)
  /\ (r = n <-> in_range T n \/ bits T = 64).
Proof.
  intros [Hb Hb64] Hn r.
  destruct (cast_spec T n Hb) as [Hc [k Hk]].
  destruct (cast_spec lua_Integer (cast T n) ltac:(simpl; lia)) as [Hr [k' Hk']].
  fold r in Hr, Hk'.
  assert (H2 : 2 ^ bits T = 2 * 2 ^ (bits T - 1)).
  { rewrite <- Z.pow_succ_r by lia. f_equal. lia. }
  assert (Hp : 0 < 2 ^ (bits T - 1)) by (apply Z.pow_pos_nonneg; lia).
  assert (H64 : 2 ^ 64 = 2 ^ (64 - bits T) * 2 ^ bits T).
  { rewrite <- Z.pow_add_r by lia. f_equal. lia. }
  assert (Hsmall : bits T < 64 -> 2 ^ bits T <= 2 ^ 63)
    by (intros; apply Z.pow_le_mono_r; lia).
  assert (Hhalf : 2 ^ (bits T - 1) <= 2 ^ 63)
    by (apply Z.pow_le_mono_r; lia).
  change (bits lua_Integer) with 64 in Hk'.
  assert (Hnarrow : bits T < 64 \/ is_signed T = true -> r = cast T n).
  { intros Hs. apply cast_in_range; [simpl; lia|].
    unfold in_range in Hc |- *. simpl.
    destruct (is_signed T); [lia|].
    destruct Hs as [Hs|Hs]; [specialize (Hsmall Hs); lia | discriminate]. }
  split; [|split; [exact Hr|split]].
  - replace (r - n) with ((k + k' * 2 ^ (64 - bits T)) * 2 ^ bits T)
      by (rewrite Hk', Hk, H64; ring).
    apply Z_mod_mult.
  - intros Hs. rewrite (Hnarrow Hs). exact Hc.
  - destruct (Z_lt_le_dec (bits T) 64) as [Hlt|Hge].
    + rewrite (Hnarrow (or_introl Hlt)). split.
      * intros <-. left. exact Hc.
      * intros [Hin|H]; [apply cast_in_range; assumption | lia].
    + assert (Heq : bits T = 64) by lia. split; [auto|]. intros _.
      rewrite Heq in Hk. unfold in_range in Hr, Hn. simpl in Hr, Hn.
      assert (Hkk : k + k' = 0) by nia. nia.
Qed.

Lemma member_bits_le a m : bits (member_type a m) <= 64.
Proof.
  destruct m; simpl; try destruct (long_size a);
    try destruct (size_t_size a); simpl; lia.
Qed.

(** X14: an integer outside the range of its tag is not refused: for every
    integer tag and every Lua integer [n], the argument switch stores and
    the return switch pushes back the integer [r] that is congruent to [n]
    modulo 2^bits of the tag's type, within the range of that type (read as
    [lua_Integer] for the unsigned 64-bit types); [r] is [n] exactly when
    [n] is within the range of the type or the type has 64 bits. *)
Theorem integer_marshalling_wraps E ci st i t n :
  is_integer_tag t = true ->
  value_at st (2 + i) = Some (LInteger n) ->
  in_range lua_Integer n ->
  exists m slot r,
    RETVAL t = Some m
    /\ check_argument_case E ci st i t = Ok slot
    /\ push_retval E (Some t) slot = Some [LInteger r]
    /\ (r - n) mod 2 ^ bits (member_type (platform E) m) = 0
    /\ in_range lua_Integer r
    /\ (bits (member_type (platform E) m) < 64
        \/ is_signed (member_type (platform E) m) = true ->
        in_range (member_type (platform E) m) r)
    /\ (r = n <->
        in_range (member_type (platform E) m) n
        \/ bits (member_type (platform E) m) = 64).
Proof.
  intros Hint Hv Hn.
  assert (Hgen : forall m, m <> m_f -> m <> m_d ->
            exists slot r,
              CHECK_CASE_integer E ci st (2 + i) m = Ok slot
              /\ PUSH_CASE_integer E slot m = [LInteger r]
              /\ (r - n) mod 2 ^ bits (member_type (platform E) m) = 0
              /\ in_range lua_Integer r
              /\ (bits (member_type (platform E) m) < 64
                  \/ is_signed (member_type (platform E) m) = true ->
                  in_range (member_type (platform E) m) r)
              /\ (r = n <->
                  in_range (member_type (platform E) m) n
                  \/ bits (member_type (platform E) m) = 64)).
  { intros m Hf Hd.
    pose proof (member_bits_pos (platform E) m Hf Hd) as Hb.
    pose proof (member_bits_le (platform E) m) as Hle.
    unfold CHECK_CASE_integer, luaL_checkinteger. rewrite Hv.
    cbn [lua_tointegerx bind]. eexists. eexists.
    split; [reflexivity|]. unfold PUSH_CASE_integer.
    rewrite load_store_member.
    rewrite (cast_in_range _ (cast _ n) Hb)
      by (apply (cast_spec _ n Hb)).
    split; [reflexivity|].
    apply marshal_wrap; [lia | exact Hn]. }
  destruct t; try discriminate Hint;
    match goal with
    | |- context [RETVAL ?t] =>
        let m := eval cbv in (RETVAL t) in
        match m with
        | Some ?m' =>
            destruct (Hgen m' ltac:(discriminate) ltac:(discriminate))
              as (slot & r & H1 & H2 & H3);
            exists m', slot, r;
            split; [reflexivity|]; split; [exact H1|];
            split; [cbn [push_retval]; rewrite H2; reflexivity | exact H3]
        end
    end.
Qed.

Lemma integer_marshalling_wraps_witness :
  exists m slot r,
    RETVAL T_UINT8 = Some m
    /\ check_argument_case demo_env NW_method [demo_lib; LInteger 300] 0
         T_UINT8 = Ok slot
    /\ push_retval demo_env (Some T_UINT8) slot = Some [LInteger r]
    /\ (r - 300) mod 2 ^ bits (member_type (platform demo_env) m) = 0
    /\ in_range lua_Integer r
    /\ (bits (member_type (platform demo_env) m) < 64
        \/ is_signed (member_type (platform demo_env) m) = true ->
        in_range (member_type (platform demo_env) m) r)
    /\ (r = 300 <->
        in_range (member_type (platform demo_env) m) 300
        \/ bits (member_type (platform demo_env) m) = 64).
Proof.
  apply (integer_marshalling_wraps demo_env NW_method
           [demo_lib; LInteger 300] 0 T_UINT8 300).
  - reflexivity.
  - reflexivity.
  - unfold in_range. simpl. lia.
Defined.

(** ** The tables of the module agree *)

(** X15: for every integer tag, the row of the argument switch,
    the row of [RETVAL] and the row of the return switch name the same
    member of [callval_u], and the libffi descriptor that [check_ffitype]
    gives the tag has the width and the signedness of that member, on every
    platform where plain [char] is signed when the tag is [char]. *)
Theorem tag_tables_agree E ci st i t :
  is_integer_tag t = true ->
  (t = T_CHAR -> char_signed (platform E) = true) ->
  exists m,
    RETVAL t = Some m
    /\ check_argument_case E ci st i t = CHECK_CASE_integer E ci st (2 + i) m
    /\ (forall retval,
          push_retval E (Some t) retval = Some (PUSH_CASE_integer E retval m))
    /\ ffi_type_ctype (platform E) (ffi_type_of E t)
       = Some (member_type (platform E) m).
Proof.
  intros Hint Hchar.
  destruct t; try discriminate Hint;
    (eexists; split; [reflexivity|]; split; [reflexivity|];
     split; [reflexivity|]);
    cbn [ffi_type_of ffi_type_ctype member_type];
    try reflexivity.
  - rewrite (Hchar eq_refl). reflexivity.
  - unfold FFI_TYPE_SIZE_T. destruct (size_t_size (platform E)); reflexivity.
  - unfold FFI_TYPE_SSIZE_T. destruct (size_t_size (platform E)); reflexivity.
Qed.

Lemma tag_tables_agree_witness :
  exists m,
    RETVAL T_CHAR = Some m
    /\ check_argument_case demo_env NW_method [] 0 T_CHAR
       = CHECK_CASE_integer demo_env NW_method [] (2 + 0) m
    /\ (forall retval,
          push_retval demo_env (Some T_CHAR) retval
          = Some (PUSH_CASE_integer demo_env retval m))
    /\ ffi_type_ctype (platform demo_env) (ffi_type_of demo_env T_CHAR)
       = Some (member_type (platform demo_env) m).
Proof.
  apply (tag_tables_agree demo_env NW_method [] 0 T_CHAR).
  - reflexivity.
  - intros _. reflexivity.
Defined.

(** ** The outcome of a call *)

Lemma check_argument_case_no_crash E ci st i t f :
  check_argument_case E ci st i t <> Crash f.
Proof.
  destruct (is_integer_tag t) eqn:Hint.
  - destruct (check_argument_case_integer E ci st i t Hint) as [m ->].
    unfold CHECK_CASE_integer, luaL_checkinteger.
    destruct (value_at st (2 + i)) as [v|]; [|discriminate].
    destruct (lua_tointegerx E v); [discriminate|].
    destruct (lua_tonumberx E v); discriminate.
  - destruct t; try discriminate Hint; cbn [check_argument_case].
    + discriminate.
    + destruct (lua_type st (2 + i)); try discriminate;
        destruct (value_at st (2 + i)); discriminate.
    + destruct (lua_type st (2 + i)); try discriminate;
        destruct (value_at st (2 + i)) as [[]|]; discriminate.
    + unfold CHECK_CASE_float, luaL_checknumber.
      destruct (value_at st (2 + i)) as [v|];
        [destruct (lua_tonumberx E v)|]; discriminate.
    + unfold CHECK_CASE_double, luaL_checknumber.
      destruct (value_at st (2 + i)) as [v|];
        [destruct (lua_tonumberx E v)|]; discriminate.
Qed.

(** The argument loop of a well-formed entry fills one slot per turn or
    raises. *)
Lemma check_arguments_outcome E ci sym st :
  wf_sym sym ->
  forall todo k acc, (k + todo <= Z.to_nat (nargs sym))%nat ->
    (exists e, check_arguments E ci sym st (Z.of_nat k) todo acc = Raise e)
    \/ (exists args,
          check_arguments E ci sym st (Z.of_nat k) todo acc = Ok args
          /\ length args = (length acc + todo)%nat).
Proof.
  intros Hwf. induction todo as [|todo IH]; intros k acc Hk.
  { right. exists acc. split; [reflexivity | lia]. }
  cbn [check_arguments]. unfold check_argument.
  assert (Hk32 : (k < 32)%nat).
  { destruct Hwf as (Hn & _). unfold FFI_MAX_ARGS in Hn. lia. }
  destruct (nth_error (arg_types sym) k) as [z|] eqn:Hz.
  2:{ apply nth_error_None in Hz. destruct Hwf as (_ & Hl & _). lia. }
  destruct (valid_tag_at sym k z Hwf Hz) as (t & -> & Hvoid).
  rewrite (array_read_nth _ k _ Hk32 Hz). cbn [bind].
  rewrite enum_of_datatype.
  pose proof (check_argument_case_no_crash E ci st (Z.of_nat k) t) as Hnc.
  destruct (check_argument_case E ci st (Z.of_nat k) t) as [a|e|f];
    cbn [bind]; [|left; eexists; reflexivity | exfalso; exact (Hnc f eq_refl)].
  replace (Z.of_nat k + 1) with (Z.of_nat (S k)) by lia.
  destruct (IH (S k) (acc ++ [a])%list ltac:(lia)) as [[e He]|(args & Ha & Hl)].
  - left. exists e. exact He.
  - right. exists args. split; [exact Ha|].
    rewrite Hl, length_app. simpl. lia.
Qed.

(** X16: a call of a declared entry that has not been released, with any
    arguments Lua can pass, has one of two outcomes.  Either it raises an
    error, and then nothing was called and the state is unchanged; or it
    calls the native function exactly once, through the stored interface
    and address, with exactly as many argument slots as the entry declares
    and as the caller passed, and returns no value for [void] and one value
    otherwise. *)
Theorem symcall_lua_outcome E ci L sym st :
  wf_sym sym -> name sym <> None -> lua_gettop st <= LUAI_MAXSTACK ->
  (exists e, symcall_lua E ci L (Some sym) st = (Raise e, L))
  \/ (exists args results,
        symcall_lua E ci L (Some sym) st
        = (Ok results, emit L (Ev_ffi_call (cif sym) (addr sym) args))
        /\ Z.of_nat (length args) = nargs sym
        /\ lua_gettop st - 1 = nargs sym
        /\ push_retval E (datatype_of_enum (ret_type sym))
             (sys_ffi_call E (cif sym) (addr sym) args) = Some results
        /\ length results
           = (if ret_type sym =? enum_value T_VOID then 0%nat else 1%nat)).
Proof.
  intros Hwf Hname Hmax. unfold symcall_lua.
  destruct (name sym) as [nm|] eqn:Hnm; [clear Hname | congruence].
  destruct (Z.eq_dec (lua_gettop st - 1) (nargs sym)) as [Heq|Hne].
  - rewrite (symcall_check_loop E ci sym st Hwf Heq).
    destruct (check_arguments_outcome E ci sym st Hwf
                (Z.to_nat (nargs sym)) 0%nat [] ltac:(lia))
      as [[e He]|(args & Ha & Hl)]; change (Z.of_nat 0) with 0 in *.
    + rewrite He. left. exists e. reflexivity.
    + rewrite Ha. right.
      assert (Hwf' := Hwf). destruct Hwf' as (Hn & _ & _ & t & Ht).
      pose proof (datatype_of_enum_inv _ _ Ht) as Hr.
      rewrite Ht.
      assert (Hpush : exists results,
                push_retval E (Some t)
                  (sys_ffi_call E (cif sym) (addr sym) args) = Some results
                /\ length results
                   = (if enum_value t =? enum_value T_VOID then 0%nat else 1%nat)).
      { destruct t; eexists; (split; [reflexivity|]); reflexivity. }
      destruct Hpush as (results & Hp & Hlen). rewrite Hp.
      exists args, results. rewrite Hr.
      split; [reflexivity|]. split; [simpl in Hl; lia|].
      split; [exact Heq|]. split; [exact Hp | exact Hlen].
  - rewrite (symcall_check_count E ci sym st Hwf Hmax Hne), Hnm.
    left. eexists. reflexivity.
Qed.

Lemma symcall_lua_outcome_witness :
  (exists e, symcall_lua demo_env NW_method demo_add (Some demo_add_sym)
               [demo_lib; LInteger 2; LInteger 3] = (Raise e, demo_add))
  \/ (exists args results,
        symcall_lua demo_env NW_method demo_add (Some demo_add_sym)
          [demo_lib; LInteger 2; LInteger 3]
        = (Ok results,
           emit demo_add
             (Ev_ffi_call (cif demo_add_sym) (addr demo_add_sym) args))
        /\ Z.of_nat (length args) = nargs demo_add_sym
        /\ lua_gettop [demo_lib; LInteger 2; LInteger 3] - 1
           = nargs demo_add_sym
        /\ push_retval demo_env (datatype_of_enum (ret_type demo_add_sym))
             (sys_ffi_call demo_env (cif demo_add_sym) (addr demo_add_sym)
                args) = Some results
        /\ length results
           = (if ret_type demo_add_sym =? enum_value T_VOID then 0%nat else 1%nat)).
Proof.
  apply (symcall_lua_outcome demo_env NW_method demo_add demo_add_sym
           [demo_lib; LInteger 2; LInteger 3]).
  - exact demo_add_sym_wf.
  - discriminate.
  - vm_compute. discriminate.
Defined.

(** ** Declaring, then looking up *)

Lemma new_entry_live E r a rt nm tags :
  r <> LUA_NOREF -> live (new_entry E r a rt nm tags).
Proof. intros Hr. split; [exact Hr|]. exists nm. split; reflexivity. Qed.

Lemma new_entry_answers E r a rt nm tags :
  answers nm (new_entry E r a rt nm tags) = true.
Proof.
  unfold answers, new_entry. simpl. rewrite Z.eqb_refl, String.eqb_refl.
  reflexivity.
Qed.

Lemma find_app_none {A} (f : A -> bool) l later :
  List.find f l = None -> List.find f (l ++ later) = List.find f later.
Proof.
  induction l as [|a l IH]; simpl; [reflexivity|].
  destruct (f a); [discriminate | exact IH].
Qed.

(** X17: after a declaration that succeeds, looking up the declared name
    on the same library yields the call closure of the first entry that
    answers the name: the entry just appended when no earlier entry
    answers it, and the earlier entry otherwise, for every name that
    [index_lua] does not take for [dlsym] or [dlclose]. *)
Theorem declared_symbol_is_found E ci ci' L p d ret rt nm vtags tags :
  udata L !! p = Some d -> handle d <> 0 -> Forall live (symbols d) ->
  (length vtags <= 32)%nat ->
  names_tag ret rt -> Forall2 names_argument vtags tags ->
  strdup_ok E (c_str nm) = true ->
  sys_dlsym E (handle d) (c_str nm) <> 0 ->
  sys_ffi_prep_cif E (Z.of_nat (length tags)) (ffi_type_of E rt)
    (map (ffi_type_of E) tags) = FFI_OK ->
  key_matches nm "dlsym" = false -> key_matches nm "dlclose" = false ->
  let L' := snd (dlsym_lua E ci L (LUserdata p :: ret :: LString nm :: vtags)) in
  let new := new_entry E (Zpos (next_ref L))
               (sys_dlsym E (handle d) (c_str nm)) rt nm tags in
  index_lua E ci' L' [LUserdata p; LString nm]
  = (Ok [LFunction
           (CF_symcall
              (Some match List.find (answers nm) (symbols d) with
                    | Some s => s
                    | None => new
                    end))], L').
Proof.
  intros Hp Hh Hlive Hlen Hret Htags Hdup Hsym Hprep Hk1 Hk2 L' new.
  subst L'.
  rewrite (dlsym_lua_valid E ci L p d ret rt nm vtags tags Hp Hlen Hret Htags).
  rewrite Hdup. cbn [negb]. cbv zeta.
  assert (Hsym' := Hsym). apply Z.eqb_neq in Hsym'. rewrite Hsym', Hprep.
  cbn [snd]. fold new.
  assert (Hnew : live new) by (apply new_entry_live; discriminate).
  assert (Hall : Forall live (symbols d ++ [new])%list).
  { apply Forall_app. split; [exact Hlive|]. constructor; [exact Hnew|constructor]. }
  unfold index_lua, luaL_checkudata, luaL_checklstring.
  cbn [value_at Z.leb Z.compare Z.sub Z.to_nat nth_error Z.add Z.opp
       Z.pos_sub Pos.to_nat Pos.iter_op Nat.add bind lua_tolstring].
  change (value_at (LUserdata p :: LString nm :: []) 1) with (Some (LUserdata p)).
  change (value_at (LUserdata p :: LString nm :: []) 2) with (Some (LString nm)).
  cbn [bind lua_tolstring udata set_udata].
  rewrite lookup_insert_eq. cbn [bind handle symbols].
  apply Z.eqb_neq in Hh. rewrite Hh.
  rewrite (strncmp_key nm "dlsym" eq_refl), Hk1.
  rewrite (strncmp_key nm "dlclose" eq_refl), Hk2.
  rewrite (traverse_symbols_answers nm _ Hall).
  destruct (List.find (answers nm) (symbols d)) as [s|] eqn:Hf.
  - rewrite (find_app_first _ _ _ _ Hf).
    apply find_some in Hf as [Hin _].
    rewrite Forall_forall in Hlive. destruct (Hlive s) as [Hr _].
    { apply list_elem_of_In. exact Hin. }
    unfold symcall_closure. apply Z.eqb_neq in Hr. rewrite Hr. reflexivity.
  - rewrite (find_app_none _ _ _ Hf). simpl.
    unfold new at 1. rewrite new_entry_answers.
    unfold symcall_closure. reflexivity.
Qed.

Lemma declared_symbol_is_found_witness :
  let L' := snd (dlsym_lua demo_env NW_method demo_add
                   (LUserdata 0 :: LString "int" :: LString "add"
                    :: [LString "int"])) in
  let new := new_entry demo_env (Zpos (next_ref demo_add))
               (sys_dlsym demo_env (handle demo_add_dso) (c_str "add"))
               T_INT "add" [T_INT] in
  index_lua demo_env NW_other L' [LUserdata 0; LString "add"]
  = (Ok [LFunction
           (CF_symcall
              (Some match List.find (answers "add") (symbols demo_add_dso) with
                    | Some s => s
                    | None => new
                    end))], L').
Proof.
  apply (declared_symbol_is_found demo_env NW_method NW_other demo_add 0
           demo_add_dso (LString "int") T_INT "add" [LString "int"] [T_INT]).
  - exact demo_add_lookup.
  - discriminate.
  - constructor; [exact demo_add_sym_live | constructor].
  - simpl. lia.
  - reflexivity.
  - repeat constructor; discriminate.
  - reflexivity.
  - discriminate.
  - reflexivity.
  - reflexivity.
  - reflexivity.
Defined.
